(** * Trap-Analysis: the energy model and annealing loop of [artificial_anneal.py]

    A shallow embedding of [src/artificial_anneal.py] and the proofs of the
    properties stated about it.

    Conventions of the embedding.
    - A Python float is a real number ([R] of the Standard Library):
      rounding, infinities and NaN are outside the model.  [np.pi] is [PI].
    - A one-dimensional [ndarray] is a [list R]; a two-dimensional one is a
      shape together with its indexing function ([matrix]).
    - A Python exception is the [Raise] case of [result].
    - A division of arrays in [ElectrostaticPotential] keeps the
      floating-point errors it raises ([Np.true_divide]); where a divisor
      is zero the quotient (inf or nan) is outside the model.
    - Where a claim is about in-place mutation, arrays live in a store of
      buffers and an array object is a strided view of a buffer
      ([Module Store]). *)

From Stdlib Require Import Reals Lra Lia List ZArith String DecimalString DecimalNat.
From stdpp Require Import base option list gmap.
Import ListNotations.

(* ================================================================== *)
(** * Part I: the program *)
(* ================================================================== *)

(** ** Exceptions *)

Inductive exn : Type :=
| ValueError (msg : string).

Inductive result (A : Type) : Type :=
| Ok (a : A)
| Raise (e : exn).
Arguments Ok {A} a.
Arguments Raise {A} e.

Definition rbind {A B} (m : result A) (k : A -> result B) : result B :=
  match m with
  | Ok a => k a
  | Raise e => Raise e
  end.

Notation "'do' x <- m ; k" := (rbind m (fun x => k))
  (at level 10, x name, m at level 100, k at level 200).
Notation "'do' ' p <- m ; k" := (rbind m (fun x => let 'p := x in k))
  (at level 10, p pattern, m at level 100, k at level 200).

(** ** numpy on one-dimensional arrays *)

Module Np.

(** [l[::2]] *)
Fixpoint evens {A} (l : list A) : list A :=
  match l with
  | [] => []
  | a :: t => a :: match t with
                   | [] => []
                   | _ :: t' => evens t'
                   end
  end.

(** [l[1::2]] *)
Definition odds {A} (l : list A) : list A := evens (tl l).

(** [np.zeros(n)] *)
Definition zeros (n : nat) : list R := repeat 0%R n.

(** The writes of [r[::2] = v] when [v] has one value per even slot. *)
Fixpoint put_evens (r v : list R) : list R :=
  match r, v with
  | a :: t, x :: v' =>
      x :: match t with
           | [] => []
           | b :: t' => b :: put_evens t' v'
           end
  | _, _ => r
  end.

(** The writes of [r[1::2] = v] when [v] has one value per odd slot. *)
Definition put_odds (r v : list R) : list R :=
  match r with
  | [] => []
  | a :: t => a :: put_evens t v
  end.

Definition broadcast_error : exn :=
  ValueError "could not broadcast input array".

(** What numpy accepts on the right of a slice assignment to a slice of
    [n] elements: an array of [n] values, or a single value repeated. *)
Definition fit (n : nat) (v : list R) : result (list R) :=
  if length v =? n then Ok v
  else match v with
       | [c] => Ok (repeat c n)
       | _ => Raise broadcast_error
       end.

(** [r[::2] = v] *)
Definition set_evens (r v : list R) : result (list R) :=
  do v' <- fit (length (evens r)) v; Ok (put_evens r v').

(** [r[1::2] = v] *)
Definition set_odds (r v : list R) : result (list R) :=
  do v' <- fit (length (odds r)) v; Ok (put_odds r v').

(** An elementwise binary operation on two 1-D arrays, with numpy's
    broadcasting of a one-element operand. *)
Definition zip2 (f : R -> R -> R) (a b : list R) : result (list R) :=
  if length a =? length b then Ok (zip_with f a b)
  else match a, b with
       | [c], _ => Ok (map (f c) b)
       | _, [c] => Ok (map (fun x => f x c) a)
       | _, _ => Raise broadcast_error
       end.

(** [np.sum] of a 1-D array *)
Definition sum1 (l : list R) : R := fold_right Rplus 0%R l.

(** [x % m] on floats: the remainder has the sign of the divisor,
    [x - m * floor (x / m)].  ([Int_part] is the floor.) *)
Definition remainder (x m : R) : R := (x - m * IZR (Int_part (x / m)))%R.

(** *** Two-dimensional arrays *)

(** A 2-D array is its shape and its indexing function; only the entries
    inside the shape are ever read. *)
Record matrix : Type := Matrix {
  nrows : nat;
  ncols : nat;
  entry : nat -> nat -> R
}.

(** [np.meshgrid(xi, yi)] (default 'xy' indexing): both results have shape
    [(len(yi), len(xi))]; [Xi[a][b] = xi[b]] and [Yi[a][b] = yi[a]]. *)
Definition meshgrid (xi yi : list R) : matrix * matrix :=
  (Matrix (length yi) (length xi) (fun _ b => nth b xi 0%R),
   Matrix (length yi) (length xi) (fun a _ => nth a yi 0%R)).

(** [M.T] *)
Definition transpose (M : matrix) : matrix :=
  Matrix (ncols M) (nrows M) (fun a b => entry M b a).

(** An elementwise unary operation. *)
Definition mmap (f : R -> R) (M : matrix) : matrix :=
  Matrix (nrows M) (ncols M) (fun a b => f (entry M a b)).

(** An elementwise binary operation on two arrays of one shape (the only
    case that arises for the square matrices of N charges). *)
Definition mzip (f : R -> R -> R) (M N : matrix) : matrix :=
  Matrix (nrows M) (ncols M) (fun a b => f (entry M a b) (entry N a b)).

(** [np.fill_diagonal(M, v)] *)
Definition fill_diagonal (M : matrix) (v : R) : matrix :=
  Matrix (nrows M) (ncols M) (fun a b => if (a =? b)%nat then v else entry M a b).

(** [f 0 + f 1 + ... + f (n-1)] *)
Fixpoint sum_upto (n : nat) (f : nat -> R) : R :=
  match n with
  | O => 0%R
  | S n' => (sum_upto n' f + f n')%R
  end.

(** [np.sum(M)] *)
Definition sum (M : matrix) : R :=
  sum_upto (nrows M) (fun a => sum_upto (ncols M) (fun b => entry M a b)).

(** [np.sum(M, axis=0)]: one sum per column, over the rows. *)
Definition sum_axis0 (M : matrix) : list R :=
  map (fun b => sum_upto (nrows M) (fun a => entry M a b)) (seq 0 (ncols M)).

(** *** Division and its floating-point errors *)

(** The floating-point errors a division can raise.  With numpy's default
    error handling each is reported as a [RuntimeWarning]: "divide by zero
    encountered" where a nonzero number is divided by zero, "invalid value
    encountered" where zero is divided by zero. *)
Inductive fp_error : Type :=
| DivideByZero
| InvalidValue.

Definition Reqb (a b : R) : bool := if Req_dec_T a b then true else false.

(** Whether [p] holds at some entry inside the shape of [M]. *)
Definition any (M : matrix) (p : nat -> nat -> bool) : bool :=
  existsb (fun a => existsb (fun b => p a b) (seq 0 (ncols M))) (seq 0 (nrows M)).

(** [N / D] on two arrays of one shape: the quotients and the errors
    raised.  Where a divisor is zero numpy's quotient is inf or nan, which
    no real number stands for: the quotients are the computed ones only
    when no error is raised. *)
Definition true_divide (N D : matrix) : matrix * list fp_error :=
  let Q := mzip Rdiv N D in
  (Q,
   (if any Q (fun a b => Reqb (entry D a b) 0 && negb (Reqb (entry N a b) 0))
    then [DivideByZero] else [])
   ++ (if any Q (fun a b => Reqb (entry D a b) 0 && Reqb (entry N a b) 0)
       then [InvalidValue] else [])).

End Np.

(** ** The helper functions of the module *)

(** [r2xy(r)]: [return r[::2], r[1::2]] *)
Definition r2xy (r : list R) : list R * list R := (Np.evens r, Np.odds r).

(** [xy2r(x, y)] *)
Definition xy2r (x y : list R) : result (list R) :=
  if length x =? length y then
    let r := Np.zeros (2 * length x) in
    do r <- Np.set_evens r x;
    do r <- Np.set_odds r y;
    Ok r
  else Raise (ValueError "x and y must have the same length!").

(** ** class ElectrostaticPotential *)

Module ElectrostaticPotential.

Local Open Scope R_scope.

(** The object state: the fitted interpolant.  [interpolator self dx dy x y]
    is [self.interpolator.ev(x, y, dx=dx, dy=dy)] at one point. *)
Record self : Type := Self {
  interpolator : nat -> nat -> R -> R -> R
}.

(** The constants set by [__init__]. *)
Definition qe : R := 1.602E-19.
Definition eps0 : R := 8.85E-12.

(** The defaults of the keyword argument [eps] of [Vee] and of [grad_Vee]. *)
Definition Vee_eps : R := 1E-15.
Definition grad_Vee_eps : R := 1E-15.

Section Methods.

Variable s : self.

Definition V (xi yi : list R) : list R :=
  zip_with (interpolator s 0 0) xi yi.

Definition Velectrostatic (xi yi : list R) : R :=
  qe * Np.sum1 (V xi yi).

(** The distance matrix of [Vee], after [np.fill_diagonal(Rij, eps)]. *)
Definition Vee_Rij (xi yi : list R) (eps : R) : Np.matrix :=
  let '(Xi, Yi) := Np.meshgrid xi yi in
  let Xj := Np.transpose Xi in
  let Yj := Np.transpose Yi in
  let Rij := Np.mmap sqrt
               (Np.mzip Rplus (Np.mmap (fun d => d ^ 2) (Np.mzip Rminus Xi Xj))
                              (Np.mmap (fun d => d ^ 2) (Np.mzip Rminus Yi Yj))) in
  Np.fill_diagonal Rij eps.

(** The division of [Vee]: the scalar [1/2 * qe**2 / (4*pi*eps0) * 1],
    spread over the shape, by [Rij]. *)
Definition Vee_division (xi yi : list R) (eps : R) : Np.matrix * list Np.fp_error :=
  let Rij := Vee_Rij xi yi eps in
  Np.true_divide (Np.mmap (fun _ => 1 / 2 * qe ^ 2 / (4 * PI * eps0) * 1) Rij) Rij.

Definition Vee (xi yi : list R) (eps : R) : Np.matrix :=
  fst (Vee_division xi yi eps).

(** The floating-point errors raised while [Vee] is evaluated. *)
Definition Vee_errors (xi yi : list R) (eps : R) : list Np.fp_error :=
  snd (Vee_division xi yi eps).

Definition Vtotal (r : list R) : R :=
  let xi := Np.evens r in
  let yi := Np.odds r in
  let Vtot := Velectrostatic xi yi in
  let interaction_matrix := Vee xi yi Vee_eps in
  let interaction_matrix := Np.fill_diagonal interaction_matrix 0 in
  let Vtot := Vtot + Np.sum interaction_matrix in
  Vtot / qe.

(** The floating-point errors raised while [Vtotal] is evaluated: those of
    its call of [Vee] (the last division is by the nonzero constant
    [qe]). *)
Definition Vtotal_errors (r : list R) : list Np.fp_error :=
  let xi := Np.evens r in
  let yi := Np.odds r in
  Vee_errors xi yi Vee_eps.

Definition dVdx (xi yi : list R) : list R :=
  zip_with (interpolator s 1 0) xi yi.

Definition ddVdx (xi yi : list R) : list R :=
  zip_with (interpolator s 2 0) xi yi.

Definition dVdy (xi yi : list R) : list R :=
  zip_with (interpolator s 0 1) xi yi.

Definition ddVdy (xi yi : list R) : list R :=
  zip_with (interpolator s 0 2) xi yi.

(** The distance matrix of [grad_Vee], after [np.fill_diagonal(Rij, eps)]. *)
Definition grad_Vee_Rij (xi yi : list R) (eps : R) : Np.matrix :=
  let '(Xi, Yi) := Np.meshgrid xi yi in
  let Xj := Np.transpose Xi in
  let Yj := Np.transpose Yi in
  let Rij := Np.mmap sqrt
               (Np.mzip Rplus (Np.mmap (fun d => d ^ 2) (Np.mzip Rminus Xi Xj))
                              (Np.mmap (fun d => d ^ 2) (Np.mzip Rminus Yi Yj))) in
  Np.fill_diagonal Rij eps.

(** The division of [gradx_matrix]:
    [-1 * qe**2 / (4*pi*eps0) * (Xi - Xj)] by [Rij ** 3]. *)
Definition gradx_division (xi yi : list R) (eps : R) : Np.matrix * list Np.fp_error :=
  let '(Xi, Yi) := Np.meshgrid xi yi in
  let Xj := Np.transpose Xi in
  let Rij := grad_Vee_Rij xi yi eps in
  Np.true_divide
    (Np.mmap (fun d => -1 * qe ^ 2 / (4 * PI * eps0) * d) (Np.mzip Rminus Xi Xj))
    (Np.mmap (fun rij => rij ^ 3) Rij).

(** [gradx_matrix] of [grad_Vee], after its diagonal is zeroed. *)
Definition gradx_matrix (xi yi : list R) (eps : R) : Np.matrix :=
  let gradx_matrix := fst (gradx_division xi yi eps) in
  Np.fill_diagonal gradx_matrix 0.

(** The division of [grady_matrix]:
    [+1 * qe**2 / (4*pi*eps0) * (Yi - Yj)] by [Rij ** 3]. *)
Definition grady_division (xi yi : list R) (eps : R) : Np.matrix * list Np.fp_error :=
  let '(Xi, Yi) := Np.meshgrid xi yi in
  let Yj := Np.transpose Yi in
  let Rij := grad_Vee_Rij xi yi eps in
  Np.true_divide
    (Np.mmap (fun d => 1 * qe ^ 2 / (4 * PI * eps0) * d) (Np.mzip Rminus Yi Yj))
    (Np.mmap (fun rij => rij ^ 3) Rij).

(** [grady_matrix] of [grad_Vee], after its diagonal is zeroed. *)
Definition grady_matrix (xi yi : list R) (eps : R) : Np.matrix :=
  let grady_matrix := fst (grady_division xi yi eps) in
  Np.fill_diagonal grady_matrix 0.

Definition grad_Vee (xi yi : list R) (eps : R) : result (list R) :=
  let gradient := Np.zeros (2 * length xi) in
  do gradient <- Np.set_evens gradient (Np.sum_axis0 (gradx_matrix xi yi eps));
  do gradient <- Np.set_odds gradient (Np.sum_axis0 (grady_matrix xi yi eps));
  Ok gradient.

(** The floating-point errors raised while [grad_Vee] is evaluated: those
    of its two divisions, in order. *)
Definition grad_Vee_errors (xi yi : list R) (eps : R) : list Np.fp_error :=
  snd (gradx_division xi yi eps) ++ snd (grady_division xi yi eps).

Definition grad_total (r : list R) : result (list R) :=
  let xi := Np.evens r in
  let yi := Np.odds r in
  let gradient := Np.zeros (length r) in
  do gradient <- Np.set_evens gradient (dVdx xi yi);
  do gradient <- Np.set_odds gradient (dVdy xi yi);
  do g <- grad_Vee xi yi grad_Vee_eps;
  do gradient <- Np.zip2 Rplus gradient (map (fun v => v / qe) g);
  Ok gradient.

End Methods.

End ElectrostaticPotential.

(** ** class ResonatorSolver *)

(** The record returned by [scipy.optimize.minimize] (and accepted as
    [solution_data_reference]), restricted to the keys the code reads. *)
Record OptimizeResult : Type := MkResult {
  res_x : list R;      (* ['x'] *)
  res_fun : R;         (* ['fun'] *)
  res_status : Z       (* ['status'] *)
}.

Definition Rltb (a b : R) : bool := if Rlt_dec a b then true else false.

Module ResonatorSolver.

Local Open Scope string_scope.
Local Open Scope R_scope.

(** The object state set by [__init__]: the univariate interpolant, its
    first and second derivative objects, and the period along y. *)
Record self : Type := Self {
  interpolator : R -> R;
  derivative : R -> R;
  second_derivative : R -> R;
  box_y_length : R;
  Ex_interpolator : option (R -> R)
}.

Definition qe : R := 1.602E-19.
Definition eps0 : R := 8.85E-12.
Definition Vee_eps : R := 1E-15.
Definition grad_Vee_eps : R := 1E-15.

(** What the code beyond this module does for [perturb_and_solve]: the
    minimiser ([scipy.optimize.minimize] with [method='CG']) and the
    generator behind [np.random.randn], whose state is threaded
    explicitly. *)
Record externals (rng : Type) : Type := Externals {
  minimize : (list R -> R) -> list R -> OptimizeResult;
  randn : nat -> rng -> list R * rng
}.
Arguments minimize {rng} _ _ _.
Arguments randn {rng} _ _ _.

(** The effects of a run that are visible from outside: the generator
    state, the start vectors handed to the minimiser so far, and the lines
    printed by [cprint] (text and colour). *)
Record world (rng : Type) : Type := World {
  gen : rng;
  calls : list (list R);
  printed : list (string * string)
}.
Arguments World {rng} _ _ _.
Arguments gen {rng} _.
Arguments calls {rng} _.
Arguments printed {rng} _.

Section Methods.

Variable s : self.

Definition map_y_into_domain (y : list R) (ybounds : option (R * R)) : list R :=
  let ybounds :=
    match ybounds with
    | None => (- box_y_length s / 2, box_y_length s / 2)
    | Some b => b
    end in
  map (fun v => fst ybounds + Np.remainder (v - fst ybounds) (snd ybounds - fst ybounds)) y.

(** [Yi_shifted = Yi.copy(); Yi_shifted[Yi_shifted > 0] -= self.box_y_length] *)
Definition shift (Yi : Np.matrix) : Np.matrix :=
  Np.mmap (fun v => if Rlt_dec 0 v then v - box_y_length s else v) Yi.

Definition calculate_Rij (xi yi : list R) : Np.matrix :=
  let '(Xi, Yi) := Np.meshgrid xi yi in
  let Xj := Np.transpose Xi in
  let Yj := Np.transpose Yi in
  let Rij_standard :=
    Np.mmap sqrt
      (Np.mzip Rplus (Np.mmap (fun d => d ^ 2) (Np.mzip Rminus Xi Xj))
                     (Np.mmap (fun d => d ^ 2) (Np.mzip Rminus Yi Yj))) in
  let Yi_shifted := shift Yi in
  let Yj_shifted := Np.transpose Yi_shifted in
  let Rij_shifted :=
    Np.mmap sqrt
      (Np.mzip Rplus (Np.mmap (fun d => d ^ 2) (Np.mzip Rminus Xi Xj))
                     (Np.mmap (fun d => d ^ 2) (Np.mzip Rminus Yi_shifted Yj_shifted))) in
  Np.mzip Rmin Rij_standard Rij_shifted.

Definition calculate_YiYj (xi yi : list R) : Np.matrix :=
  let '(Xi, Yi) := Np.meshgrid xi yi in
  let Xj := Np.transpose Xi in
  let Yj := Np.transpose Yi in
  let Yi_shifted := shift Yi in
  let Yj_shifted := Np.transpose Yi_shifted in
  let Rij_standard :=
    Np.mmap sqrt
      (Np.mzip Rplus (Np.mmap (fun d => d ^ 2) (Np.mzip Rminus Xi Xj))
                     (Np.mmap (fun d => d ^ 2) (Np.mzip Rminus Yi Yj))) in
  let Rij_shifted :=
    Np.mmap sqrt
      (Np.mzip Rplus (Np.mmap (fun d => d ^ 2) (Np.mzip Rminus Xi Xj))
                     (Np.mmap (fun d => d ^ 2) (Np.mzip Rminus Yi_shifted Yj_shifted))) in
  let YiYj := Np.mzip Rminus Yi Yj in
  let YiYj_shifted := Np.mzip Rminus Yi_shifted Yj_shifted in
  (* np.copyto(YiYj, YiYj_shifted, where=Rij_shifted<Rij_standard) *)
  Np.Matrix (Np.nrows YiYj) (Np.ncols YiYj)
    (fun a b => if Rlt_dec (Np.entry Rij_shifted a b) (Np.entry Rij_standard a b)
                then Np.entry YiYj_shifted a b
                else Np.entry YiYj a b).

(** [Ex] reads [self.Ex_interpolator], which [__init__] sets only when
    [efield_data] is given; it is modelled where that attribute exists. *)
Definition Ex (xi yi : list R) : option (list R) :=
  match Ex_interpolator s with
  | Some f => Some (map f xi)
  | None => None
  end.

Definition V (xi yi : list R) : list R := map (interpolator s) xi.

Definition Velectrostatic (xi yi : list R) : R :=
  qe * Np.sum1 (V xi yi).

Definition Vee (xi yi : list R) (eps : R) : Np.matrix :=
  let yi := map_y_into_domain yi None in
  let Rij := calculate_Rij xi yi in
  let Rij := Np.fill_diagonal Rij eps in
  Np.mmap (fun rij => 1 / 2 * qe ^ 2 / (4 * PI * eps0) * 1 / rij) Rij.

Definition Vtotal (r : list R) : R :=
  let xi := Np.evens r in
  let yi := Np.odds r in
  let Vtot := Velectrostatic xi yi in
  let interaction_matrix := Vee xi yi Vee_eps in
  let interaction_matrix := Np.fill_diagonal interaction_matrix 0 in
  let Vtot := Vtot + Np.sum interaction_matrix in
  Vtot / qe.

Definition dVdx (xi yi : list R) : list R := map (derivative s) xi.

Definition ddVdx (xi yi : list R) : list R := map (second_derivative s) xi.

Definition dVdy (xi yi : list R) : list R := Np.zeros (length xi).

Definition ddVdy (xi yi : list R) : list R := Np.zeros (length xi).

(** [gradx_matrix] of [grad_Vee], after its diagonal is zeroed ([yi] is
    already mapped into the domain). *)
Definition gradx_matrix (xi yi : list R) (eps : R) : Np.matrix :=
  let '(Xi, Yi) := Np.meshgrid xi yi in
  let Xj := Np.transpose Xi in
  let Rij := calculate_Rij xi yi in
  let Rij := Np.fill_diagonal Rij eps in
  let gradx_matrix :=
    Np.mzip (fun d rij => -1 * qe ^ 2 / (4 * PI * eps0) * d / rij ^ 3)
            (Np.mzip Rminus Xi Xj) Rij in
  Np.fill_diagonal gradx_matrix 0.

(** [grady_matrix] of [grad_Vee], after its diagonal is zeroed. *)
Definition grady_matrix (xi yi : list R) (eps : R) : Np.matrix :=
  let Rij := calculate_Rij xi yi in
  let Rij := Np.fill_diagonal Rij eps in
  let YiYj := calculate_YiYj xi yi in
  let grady_matrix :=
    Np.mzip (fun d rij => 1 * qe ^ 2 / (4 * PI * eps0) * d / rij ^ 3) YiYj Rij in
  Np.fill_diagonal grady_matrix 0.

Definition grad_Vee (xi yi : list R) (eps : R) : result (list R) :=
  let yi := map_y_into_domain yi None in
  let gradient := Np.zeros (2 * length xi) in
  do gradient <- Np.set_evens gradient (Np.sum_axis0 (gradx_matrix xi yi eps));
  do gradient <- Np.set_odds gradient (Np.sum_axis0 (grady_matrix xi yi eps));
  Ok gradient.

Definition grad_total (r : list R) : result (list R) :=
  let xi := Np.evens r in
  let yi := Np.odds r in
  let gradient := Np.zeros (length r) in
  do gradient <- Np.set_evens gradient (dVdx xi yi);
  do gradient <- Np.set_odds gradient (dVdy xi yi);
  do g <- grad_Vee xi yi grad_Vee_eps;
  do gradient <- Np.zip2 Rplus gradient (map (fun v => v / qe) g);
  Ok gradient.

Definition thermal_kick_x (x y : list R) (T : R) : list R :=
  let kB := 1.38E-23 in
  let qe := 1.602E-19 in
  let ktrapx := map (fun d => Rabs (qe * d)) (ddVdx x y) in
  map (fun k => sqrt (2 * kB * T / k)) ktrapx.

Section Anneal.

Context {rng : Type}.
Variable ext : externals rng.
Variable cost_function : list R -> R.
Variable T : R.

(** The first half of the loop body: the perturbed start vector
    [electron_perturbed_positions] computed from the position that is
    decoded, and the generator state after the two draws. *)
Definition perturb (positions : list R) (g : rng) : result (list R * rng) :=
  let '(xi, yi) := r2xy positions in
  let '(z, g) := randn ext (length xi) g in
  do kick <- Np.zip2 Rmult (thermal_kick_x xi yi T) z;
  do xi_prime <- Np.zip2 Rplus xi kick;
  let '(z, g) := randn ext (length yi) g in
  do kick <- Np.zip2 Rmult (thermal_kick_x xi yi T) z;
  do yi_prime <- Np.zip2 Rplus yi kick;
  do electron_perturbed_positions <- xy2r xi_prime yi_prime;
  Ok (electron_perturbed_positions, g).

(** The [if]/[elif] chain that ends the loop body: the new [best_result]
    and the line printed, if any. *)
Definition classify (res best_result : OptimizeResult)
  : OptimizeResult * list (string * string) :=
  if (res_status res =? 0)%Z && Rltb (res_fun res) (res_fun best_result) then
    (res, [("New minimum was found after perturbing!", "green")])
  else if (res_status res =? 0)%Z && Rltb (res_fun best_result) (res_fun res) then
    (best_result, [])
  else if negb (res_status res =? 0)%Z && Rltb (res_fun res) (res_fun best_result) then
    (best_result, [("There is a lower state, but minimizer didn't converge!", "red")])
  else if negb (res_status res =? 0)%Z && Rltb (res_fun best_result) (res_fun res) then
    (best_result,
     [("Minimizer didn't converge, but this is not the lowest energy state!", "magenta")])
  else (best_result, []).

(** One pass through the body of the [for] loop. *)
Definition trial (electron_initial_positions : list R)
    (best_result : OptimizeResult) (w : world rng)
  : result (OptimizeResult * world rng) :=
  do '(electron_perturbed_positions, g) <- perturb electron_initial_positions (gen w);
  let res := minimize ext cost_function electron_perturbed_positions in
  let '(best_result, lines) := classify res best_result in
  Ok (best_result,
      World g (calls w ++ [electron_perturbed_positions]) (printed w ++ lines)).

(** [n] passes of the loop; [electron_initial_positions] is not assigned
    in the body. *)
Fixpoint trials (n : nat) (electron_initial_positions : list R)
    (best_result : OptimizeResult) (w : world rng)
  : result (OptimizeResult * world rng) :=
  match n with
  | O => Ok (best_result, w)
  | S n' =>
      do '(best_result, w) <- trial electron_initial_positions best_result w;
      trials n' electron_initial_positions best_result w
  end.

(** [perturb_and_solve(cost_function, N_perturbations, T,
    solution_data_reference)]; [range(N)] is empty for a negative [N]. *)
Definition perturb_and_solve (N_perturbations : Z)
    (solution_data_reference : OptimizeResult) (w : world rng)
  : result (OptimizeResult * world rng) :=
  let electron_initial_positions := res_x solution_data_reference in
  let best_result := solution_data_reference in
  trials (Z.to_nat N_perturbations) electron_initial_positions best_result w.

End Anneal.

End Methods.

End ResonatorSolver.

(** ** The helper functions on array objects *)

(** The same helpers as the interpreter runs them: an array object is a
    strided view of a buffer in a store, slicing makes views that share
    the buffer, and item assignment writes through the view. *)
Module Store.

Local Open Scope R_scope.

Record ndarray : Type := NdArray {
  base : nat;       (* the buffer the view reads and writes *)
  offset : nat;     (* buffer index of element 0 *)
  stride : nat;     (* buffer distance between consecutive elements *)
  size : nat        (* number of elements, [len(a)] *)
}.

Abbreviation store := (gmap nat (list R)).

(** The buffer index of [a[i]]. *)
Definition slot (a : ndarray) (i : nat) : nat := (offset a + i * stride a)%nat.

(** The content of one buffer cell, if it exists. *)
Definition cell (h : store) (b j : nat) : option R :=
  match h !! b with
  | Some buf => buf !! j
  | None => None
  end.

(** [a[i]] *)
Definition get (h : store) (a : ndarray) (i : nat) : R :=
  default 0 (cell h (base a) (slot a i)).

(** The elements of [a], in order. *)
Definition values (h : store) (a : ndarray) : list R :=
  map (get h a) (seq 0 (size a)).

(** [a[i] = v] *)
Definition set (h : store) (a : ndarray) (i : nat) (v : R) : store :=
  alter (fun buf => <[slot a i := v]> buf) (base a) h.

(** A new array object with its own buffer. *)
Definition alloc (h : store) (l : list R) : store * ndarray :=
  let b := fresh (dom h) in
  (<[b := l]> h, NdArray b 0 1 (length l)).

(** [a[mask] = v], the boolean [mask] having been computed before. *)
Definition set_masked (h : store) (a : ndarray) (mask : list bool) (v : R) : store :=
  fold_left (fun h '(i, m) => if (m : bool) then set h a i v else h)
            (zip (seq 0 (size a)) mask) h.

(** [a[::2]] and [a[1::2]]: views of the buffer of [a]. *)
Definition evens (a : ndarray) : ndarray :=
  NdArray (base a) (offset a) (2 * stride a) (Nat.div2 (S (size a))).

Definition odds (a : ndarray) : ndarray :=
  NdArray (base a) (offset a + stride a) (2 * stride a) (Nat.div2 (size a)).

(** [r2xy(r)] *)
Definition r2xy (h : store) (r : ndarray) : store * (ndarray * ndarray) :=
  (h, (evens r, odds r)).

(** [xy2r(x, y)]: the values computed as in [xy2r] above, in the buffer
    made by [np.zeros]. *)
Definition xy2r (h : store) (x y : ndarray) : result (store * ndarray) :=
  do r <- xy2r (values h x) (values h y);
  Ok (alloc h r).

(** [map_into_domain(xi, yi, xbounds, ybounds)] *)
Definition map_into_domain (h : store) (xi yi : ndarray)
    (xbounds ybounds : R * R) : store * (ndarray * ndarray) :=
  let '(left_boundary, right_boundary) := xbounds in
  let '(bottom_boundary, top_boundary) := ybounds in
  let L := right_boundary - left_boundary in
  let W := top_boundary - bottom_boundary in
  (* xi = ...: the name is bound to a new array *)
  let '(h, xi) :=
    alloc h (map (fun x => Rabs (L - Np.remainder (x - right_boundary) (2 * L))
                           + left_boundary)
                 (values h xi)) in
  (* yi[yi>top_boundary] = top_boundary *)
  let h := set_masked h yi (map (fun v => Rltb top_boundary v) (values h yi))
                      top_boundary in
  (* yi[yi<bottom_boundary] = bottom_boundary *)
  let h := set_masked h yi (map (fun v => Rltb v bottom_boundary) (values h yi))
                      bottom_boundary in
  (h, (xi, yi)).

End Store.

(** ** class ConvergenceMonitor *)

Module ConvergenceMonitor.

Local Open Scope R_scope.

(** What a call of the callback can raise. *)
Inductive error : Type :=
| ZeroDivisionError
| AttributeError (name : string)
| NumpyError (e : exn).

(** The attributes that [monitor_convergence] reads or writes.  [jac] and
    [approx_fprime] do not exist before the first record ([None]); they
    hold the list of the rows stacked so far (the one-dimensional array of
    the first record is the one-row case).  The callables [Uopt] and
    [grad_Uopt] are functions that return normally; [call_every] is an
    integer, as the docstring asks. *)
Record self : Type := Self {
  Uopt : list R -> R;
  grad_Uopt : list R -> list R;
  call_every : Z;
  call_counter : Z;
  verbose : bool;
  curr_grad_norm : list R;
  curr_fun : list R;
  iter : list Z;
  epsilon : R;
  jac : option (list (list R));
  approx_fprime : option (list (list R))
}.

(** [__init__(Uopt, grad_Uopt, N, verbose=..., eps=...)] *)
Definition init (Uopt : list R -> R) (grad_Uopt : list R -> list R) (N : Z)
    (verbose : bool) (eps : R) : self :=
  Self Uopt grad_Uopt N 0 verbose [] [] [] eps None None.

(** Attribute assignments. *)
Definition set_call_counter (s : self) (v : Z) : self :=
  Self (Uopt s) (grad_Uopt s) (call_every s) v (verbose s)
       (curr_grad_norm s) (curr_fun s) (iter s) (epsilon s) (jac s)
       (approx_fprime s).

Definition set_curr_grad_norm (s : self) (v : list R) : self :=
  Self (Uopt s) (grad_Uopt s) (call_every s) (call_counter s) (verbose s)
       v (curr_fun s) (iter s) (epsilon s) (jac s) (approx_fprime s).

Definition set_curr_fun (s : self) (v : list R) : self :=
  Self (Uopt s) (grad_Uopt s) (call_every s) (call_counter s) (verbose s)
       (curr_grad_norm s) v (iter s) (epsilon s) (jac s) (approx_fprime s).

Definition set_iter (s : self) (v : list Z) : self :=
  Self (Uopt s) (grad_Uopt s) (call_every s) (call_counter s) (verbose s)
       (curr_grad_norm s) (curr_fun s) v (epsilon s) (jac s)
       (approx_fprime s).

Definition set_jac (s : self) (v : list (list R)) : self :=
  Self (Uopt s) (grad_Uopt s) (call_every s) (call_counter s) (verbose s)
       (curr_grad_norm s) (curr_fun s) (iter s) (epsilon s) (Some v)
       (approx_fprime s).

Definition set_approx_fprime (s : self) (v : list (list R)) : self :=
  Self (Uopt s) (grad_Uopt s) (call_every s) (call_counter s) (verbose s)
       (curr_grad_norm s) (curr_fun s) (iter s) (epsilon s) (jac s)
       (Some v).

(** [np.max(np.abs(g))]; the maximum of an empty array raises. *)
Definition max_abs (g : list R) : result R :=
  match g with
  | [] => Raise (ValueError
      "zero-size array to reduction operation maximum which has no identity"%string)
  | a :: t => Ok (fold_left Rmax (map Rabs t) (Rabs a))
  end.

(** [np.vstack((rows, g))]: the new row must be as long as the others. *)
Definition vstack (rows : list (list R)) (g : list R) : result (list (list R)) :=
  if forallb (fun row => length row =? length g) rows then Ok (rows ++ [g])
  else Raise (ValueError
      "all the input array dimensions except for the concatenation axis must match exactly"%string).

(** The state a call leaves behind, the lines it printed (the three
    formatted values of each) and the exception it raised, if any. *)
Record outcome : Type := Outcome {
  state : self;
  stdout : list (Z * R * R);
  raised : option error
}.

Section Methods.

(** [scipy.optimize.approx_fprime(xk, f, epsilon)] *)
Variable scipy_approx_fprime : list R -> (list R -> R) -> R -> list R.

(** Lines 53 to 58: the first record binds [jac] and [approx_fprime], the
    later ones stack a row under each. *)
Definition stack_rows (s : self) (xk : list R) : self * option error :=
  if (call_counter s =? 0)%Z then
    let s := set_jac s [grad_Uopt s xk] in
    let s := set_approx_fprime s [scipy_approx_fprime xk (Uopt s) (epsilon s)] in
    (s, None)
  else
    match jac s with
    | None => (s, Some (AttributeError "jac"%string))
    | Some rows =>
        match vstack rows (grad_Uopt s xk) with
        | Raise e => (s, Some (NumpyError e))
        | Ok rows =>
            let s := set_jac s rows in
            match approx_fprime s with
            | None => (s, Some (AttributeError "approx_fprime"%string))
            | Some rows =>
                match vstack rows (scipy_approx_fprime xk (Uopt s) (epsilon s)) with
                | Raise e => (s, Some (NumpyError e))
                | Ok rows => (set_approx_fprime s rows, None)
                end
            end
        end
    end.

Definition monitor_convergence (s : self) (xk : list R) : outcome :=
  if (call_every s =? 0)%Z then Outcome s [] (Some ZeroDivisionError)
  else if (call_counter s mod call_every s =? 0)%Z then
    let s := set_iter s (iter s ++ [call_counter s]) in
    let s := set_curr_fun s (curr_fun s ++ [Uopt s xk]) in
    match max_abs (grad_Uopt s xk) with
    | Raise e => Outcome s [] (Some (NumpyError e))
    | Ok norm =>
        let s := set_curr_grad_norm s (curr_grad_norm s ++ [norm]) in
        match stack_rows s xk with
        | (s, Some e) => Outcome s [] (Some e)
        | (s, None) =>
            let line := (call_counter s, List.last (curr_fun s) 0,
                         List.last (curr_grad_norm s) 0) in
            Outcome (set_call_counter s (call_counter s + 1))
                    (if verbose s then [line] else []) None
        end
    end
  else Outcome (set_call_counter s (call_counter s + 1)) [] None.

End Methods.

End ConvergenceMonitor.

(** ** class PostProcess *)

Module PostProcess.

Local Open Scope R_scope.

(** [np.where(mask)[0]]: the indices at which a 1-D mask holds. *)
Definition np_where (mask : list bool) : list nat :=
  map fst (List.filter snd (zip (seq 0 (length mask)) mask)).

(** The smallest of [f 0, ..., f n]. *)
Fixpoint min_upto (n : nat) (f : nat -> R) : R :=
  match n with
  | O => f O
  | S n' => Rmin (min_upto n' f) (f n)
  end.

(** [np.min(M, axis=1)]: one minimum per row, over the columns; a row
    without entries has none. *)
Definition min_axis1 (M : Np.matrix) : result (list R) :=
  match Np.ncols M with
  | O => Raise (ValueError
      "zero-size array to reduction operation minimum which has no identity"%string)
  | S n => Ok (map (fun a => min_upto n (fun b => Np.entry M a b))
                   (seq 0 (Np.nrows M)))
  end.

(** [np.mean] of a one-dimensional array *)
Definition mean (l : list R) : R := Np.sum1 l / INR (length l).

(** The distance matrix of [get_electron_density], after
    [np.fill_diagonal(Rij, 1E10)]. *)
Definition density_Rij (xi yi : list R) : Np.matrix :=
  let '(Xi, Yi) := Np.meshgrid xi yi in
  let Xj := Np.transpose Xi in
  let Yj := Np.transpose Yi in
  let Rij := Np.mmap sqrt
               (Np.mzip Rplus (Np.mmap (fun d => d ^ 2) (Np.mzip Rminus Xi Xj))
                              (Np.mmap (fun d => d ^ 2) (Np.mzip Rminus Yi Yj))) in
  Np.fill_diagonal Rij 1E10.

(** The array [nearest_neighbors] of [get_electron_density]. *)
Definition nearest_neighbors (r : list R) : result (list R) :=
  let '(xi, yi) := r2xy r in
  min_axis1 (density_Rij xi yi).

(** [get_electron_density(r, verbose)]: the value returned and the values
    printed. *)
Definition get_electron_density (r : list R) (verbose : bool)
    : result (R * list R) :=
  do nearest_neighbors <- nearest_neighbors r;
  let ns := 1 / (mean nearest_neighbors) ^ 2 in
  Ok (ns, if verbose then [ns] else []).

(** The default of the keyword argument [trap_area_x]. *)
Definition trap_area_x_default : R * R := (-4E-6, -1.8E-6).

(** [get_trapped_electrons(r, trap_area_x)] *)
Definition get_trapped_electrons (r : list R) (trap_area_x : R * R) : nat :=
  let xs := Np.evens r in
  length (np_where (zip_with andb
                   (map (fun x => Rltb (fst trap_area_x) x) xs)
                   (map (fun x => Rltb x (snd trap_area_x)) xs))).

(** ["%.5d" % number]: the decimal digits, padded with zeros to five. *)
Definition five_digits (number : nat) : string :=
  let digits := NilZero.string_of_uint (Nat.to_uint number) in
  (String.concat "" (repeat "0" (5 - String.length digits)) ++ digits)%string.

(** ["%.5d.npz" % number] *)
Definition npz_name (number : nat) : string :=
  (five_digits number ++ ".npz")%string.

(** The [while] loop of [write2file]: [listdir] is what [os.listdir]
    returns at every test (nothing is written while the loop runs);
    [fuel] bounds the number of tests. *)
Fixpoint next_free (fuel : nat) (listdir : list string) (file_name : string)
    (number : nat) : option (string * nat) :=
  match fuel with
  | O => None
  | S fuel =>
      if existsb (String.eqb file_name) listdir then
        next_free fuel listdir (npz_name number) (S number)
      else Some (file_name, number)
  end.

(** [write2file]: the name of the file that [np.savez] writes and
    the directory afterwards. *)
Definition write2file (fuel : nat) (listdir : list string)
    : option (string * list string) :=
  match next_free fuel listdir (npz_name 0) 0 with
  | Some (file_name, _) => Some (file_name, file_name :: listdir)
  | None => None
  end.

End PostProcess.

(** ** Definitions used to state the properties *)

Module EP := ElectrostaticPotential.
Module RS := ResonatorSolver.
Module CM := ConvergenceMonitor.
Module PP := PostProcess.

(** The sum of the entries off the diagonal. *)
Definition sum_offdiag (M : Np.matrix) : R :=
  Np.sum_upto (Np.nrows M) (fun a =>
    Np.sum_upto (Np.ncols M) (fun b =>
      if (a =? b)%nat then 0%R else Np.entry M a b)).

(** An identically zero external field. *)
Definition zero_field : ElectrostaticPotential.self :=
  ElectrostaticPotential.Self (fun _ _ _ _ => 0%R).

(** Coulomb's constant, [k = 1/(4*pi*eps0)]. *)
Definition coulomb_k : R := (1 / (4 * PI * ElectrostaticPotential.eps0))%R.

(** [[x0; y0; x1; y1; ...]] *)
Fixpoint interleave (x y : list R) : list R :=
  match x, y with
  | a :: x', b :: y' => a :: b :: interleave x' y'
  | _, _ => []
  end.

Section StatementDefinitions.

Local Open Scope R_scope.

(** The coordinates [X] with the one of charge [k] replaced by [t]. *)
Definition upd (X : nat -> R) (k : nat) (t : R) : nat -> R :=
  fun i => if (i =? k)%nat then t else X i.

(** [Vtotal] of [ElectrostaticPotential] on the coordinates [X], [Y] of [N] charges. *)
Definition EP_energy (V : R -> R -> R) (N : nat) (X Y : nat -> R) : R :=
  (EP.qe * Np.sum_upto N (fun i => V (X i) (Y i))
   + Np.sum_upto N (fun a => Np.sum_upto N (fun b =>
       if (a =? b)%nat then 0
       else 1 / 2 * EP.qe ^ 2 / (4 * PI * EP.eps0) * 1
            / sqrt ((X b - X a) ^ 2 + (Y a - Y b) ^ 2)))) / EP.qe.

(** One element of [map_y_into_domain] with the default bounds, for a
    period [L]. *)
Definition wrap (L : R) (v : R) : R :=
  - L / 2 + Np.remainder (v - - L / 2) (L / 2 - - L / 2).

(** One element of [Yi_shifted]. *)
Definition shifted (L : R) (v : R) : R :=
  if Rlt_dec 0 v then v - L else v.

(** One entry of [calculate_Rij]: the x-difference [dx] and the two
    y-coordinates. *)
Definition min_image (L dx u w : R) : R :=
  Rmin (sqrt (dx ^ 2 + (u - w) ^ 2))
       (sqrt (dx ^ 2 + (shifted L u - shifted L w) ^ 2)).

(** One entry of [calculate_YiYj]. *)
Definition eff_dy (L dx u w : R) : R :=
  if Rlt_dec (sqrt (dx ^ 2 + (shifted L u - shifted L w) ^ 2))
             (sqrt (dx ^ 2 + (u - w) ^ 2))
  then shifted L u - shifted L w
  else u - w.

(** A solver over a zero field with a period of 4 along y. *)
Definition periodic_box : RS.self :=
  RS.Self (fun _ => 0) (fun _ => 0) (fun _ => 0) 4 None.

(** [Vtotal] of [ResonatorSolver] on the coordinates [X], [Y] of [N]
    charges, for the field [V] and the period [L]. *)
Definition RS_energy (V : R -> R) (L : R) (N : nat) (X Y : nat -> R) : R :=
  (RS.qe * Np.sum_upto N (fun i => V (X i))
   + Np.sum_upto N (fun a => Np.sum_upto N (fun b =>
       if (a =? b)%nat then 0
       else 1 / 2 * RS.qe ^ 2 / (4 * PI * RS.eps0) * 1
            / min_image L (X b - X a) (wrap L (Y a)) (wrap L (Y b))))) / RS.qe.

(** [g[j]] is the derivative of [f] in coordinate [j] at [r]. *)
Definition partial_derivative_at (f : list R -> R) (r g : list R) (j : nat) : Prop :=
  derivable_pt_lim (fun t => f (<[j := t]> r)) (nth j r 0) (nth j g 0).

(** The interpolated 2-D field is differentiable at every charge of [r],
    with the partial derivatives that [ev(dx=1)] and [ev(dy=1)] return. *)
Definition EP_field_differentiable (s : EP.self) (r : list R) : Prop :=
  forall k, (k < length (Np.evens r))%nat ->
    let x := nth k (Np.evens r) 0 in
    let y := nth k (Np.odds r) 0 in
    derivable_pt_lim (fun t => EP.interpolator s 0 0 t y) x (EP.interpolator s 1 0 x y)
    /\ derivable_pt_lim (fun t => EP.interpolator s 0 0 x t) y (EP.interpolator s 0 1 x y).

(** No two distinct charges of [r] are at distance zero. *)
Definition EP_distances_nonzero (r : list R) : Prop :=
  forall a b, (a < length (Np.evens r))%nat -> (b < length (Np.evens r))%nat -> a <> b ->
    Np.entry (EP.Vee_Rij (Np.evens r) (Np.odds r) EP.Vee_eps) a b <> 0.

(** The interpolated 1-D field is differentiable at every charge of [r],
    with the derivative that [self.derivative] returns. *)
Definition RS_field_differentiable (s : RS.self) (r : list R) : Prop :=
  forall k, (k < length (Np.evens r))%nat ->
    derivable_pt_lim (RS.interpolator s) (nth k (Np.evens r) 0)
                     (RS.derivative s (nth k (Np.evens r) 0)).

(** No two distinct charges of [r] are at minimum-image distance zero. *)
Definition RS_distances_nonzero (s : RS.self) (r : list R) : Prop :=
  forall a b, (a < length (Np.evens r))%nat -> (b < length (Np.evens r))%nat -> a <> b ->
    Np.entry (RS.calculate_Rij s (Np.evens r)
                (RS.map_y_into_domain s (Np.odds r) None)) a b <> 0.

(** No other charge is exactly half a period from charge [k] in the
    wrapped y-coordinate. *)
Definition RS_off_half_period (s : RS.self) (r : list R) (k : nat) : Prop :=
  forall a, (a < length (Np.evens r))%nat -> a <> k ->
    Rabs (nth a (RS.map_y_into_domain s (Np.odds r) None) 0
          - nth k (RS.map_y_into_domain s (Np.odds r) None) 0)
    <> RS.box_y_length s / 2.

(** The start vectors of [n] trials that all perturb the same [positions]:
    only the generator state changes from one to the next. *)
Fixpoint restarts {rng : Type} (s : RS.self) (ext : RS.externals rng) (T : R)
    (n : nat) (positions : list R) (g : rng) : result (list (list R) * rng) :=
  match n with
  | O => Ok ([], g)
  | S n' =>
      do '(p, g) <- RS.perturb s ext T positions g;
      do '(ps, g) <- restarts s ext T n' positions g;
      Ok (p :: ps, g)
  end.

(** [np.random.randn(n)] returns [n] samples. *)
Definition randn_sized {rng : Type} (ext : RS.externals rng) : Prop :=
  forall n g, length (fst (RS.randn ext n g)) = n.

(** A solver whose field has curvature 1 everywhere. *)
Definition curved_box : RS.self :=
  RS.Self (fun _ => 0) (fun _ => 0) (fun _ => 1) 4 None.

(** A minimiser that moves every coordinate by 1 and reports energy -1,
    converged; a generator whose samples are all 1. *)
Definition shifting_minimizer : RS.externals unit :=
  RS.Externals unit
    (fun _ p => MkResult (map (fun v => v + 1) p) (-1) 0%Z)
    (fun n g => (repeat 1 n, g)).

(** A converged starting solution of one charge at the origin, energy 0. *)
Definition origin_solution : OptimizeResult := MkResult [0; 0] 0 0%Z.

Definition quiet_world : RS.world unit := RS.World tt [] [].

Definition flat_cost : list R -> R := fun _ => 0.

(** One step of [set_masked]. *)
Definition masked_step (a : Store.ndarray) (v : R)
  : Store.store -> nat * bool -> Store.store :=
  fun h '(i, m) => if (m : bool) then Store.set h a i v else h.

(** The cell [j] of buffer [b] is an element of the array [a]. *)
Definition addresses (a : Store.ndarray) (b j : nat) : Prop :=
  b = Store.base a /\ exists i, (i < Store.size a)%nat /\ j = Store.slot a i.

(** Every element of [a] is a cell of the store. *)
Definition valid (h : Store.store) (a : Store.ndarray) : Prop :=
  forall i, (i < Store.size a)%nat ->
    is_Some (Store.cell h (Store.base a) (Store.slot a i)).

(** What the two masked assignments of [map_into_domain] leave in an
    element that held [v]. *)
Definition clamp (bottom_boundary top_boundary v : R) : R :=
  let v := if Rltb top_boundary v then top_boundary else v in
  if Rltb v bottom_boundary then bottom_boundary else v.

(** A store with two one-element arrays: [xi = [0]] and [yi = [2]]. *)
Definition two_arrays : Store.store := <[1%nat := [2]]> (<[0%nat := [0]]> ∅).
Definition array_0 : Store.ndarray := Store.NdArray 0 0 1 1.
Definition array_1 : Store.ndarray := Store.NdArray 1 0 1 1.

(** A store with one array [[0; 5]]: one charge at [(0, 5)]. *)
Definition one_charge_store : Store.store := <[0%nat := [0; 5]]> ∅.
Definition one_charge : Store.ndarray := Store.NdArray 0 0 1 2.

(** The callback called on one iterate after the other, as the optimiser
    does, until a call raises. *)
Fixpoint callbacks (fprime : list R -> (list R -> R) -> R -> list R)
    (s : CM.self) (xs : list (list R)) : CM.outcome :=
  match xs with
  | [] => CM.Outcome s [] None
  | xk :: xs' =>
      let o := CM.monitor_convergence fprime s xk in
      match CM.raised o with
      | Some _ => o
      | None =>
          let o' := callbacks fprime (CM.state o) xs' in
          CM.Outcome (CM.state o') (CM.stdout o ++ CM.stdout o') (CM.raised o')
      end
  end.

(** The callback called on one iterate after the other by a caller that
    catches what a call raises and goes on. *)
Definition callbacks_caught (fprime : list R -> (list R -> R) -> R -> list R)
    (s : CM.self) (xs : list (list R)) : CM.self :=
  fold_left (fun s xk => CM.state (CM.monitor_convergence fprime s xk)) xs s.

(** The calls numbered [k], [k+1], ... that are a multiple of [N], each
    with its iterate. *)
Fixpoint multiples (N k : Z) (xs : list (list R)) : list (Z * list R) :=
  match xs with
  | [] => []
  | xk :: xs' =>
      (if (k mod N =? 0)%Z then [(k, xk)] else []) ++ multiples N (k + 1) xs'
  end.

(** The largest absolute value of the entries of [g]. *)
Definition linf_norm (g : list R) : R := fold_right Rmax 0 (map Rabs g).

(** The values of the line printed for a recorded call. *)
Definition line (U : list R -> R) (G : list R -> list R) (p : Z * list R)
    : Z * R * R :=
  (fst p, U (snd p), linf_norm (G (snd p))).

(** The invariant behind the attribute reads of the later records. *)
Definition attributes_bound (s : CM.self) : Prop :=
  (0 <= CM.call_counter s)%Z
  /\ (CM.call_counter s <> 0%Z ->
      CM.jac s <> None /\ CM.approx_fprime s <> None).

(** A monitor on a constant cost whose gradient is the iterate itself. *)
Definition plain_monitor (N : Z) : CM.self :=
  CM.init (fun _ => 0) (fun xk => xk) N true 1E-12.

(** A stand-in for the numerical gradient. *)
Definition plain_fprime (xk : list R) (f : list R -> R) (eps : R) : list R := xk.

(** The distance between charges [a] and [b] of [r]. *)
Definition distance (r : list R) (a b : nat) : R :=
  sqrt ((nth b (Np.evens r) 0 - nth a (Np.evens r) 0) ^ 2
        + (nth a (Np.odds r) 0 - nth b (Np.odds r) 0) ^ 2).

(** Three charges on a line, one micron apart and then two. *)
Definition three_charges : list R := [0; 0; 1E-6; 0; 3E-6; 0].

End StatementDefinitions.

(* ================================================================== *)
(** * Part II: the properties *)
(* ================================================================== *)

(** ** The coordinate codec *)

Section Codec.

(** Induction two elements at a time, the recursion scheme of [evens]. *)
Lemma pairs_ind {A} (P : list A -> Prop) :
  P [] -> (forall a, P [a]) -> (forall a b t, P t -> P (a :: b :: t)) ->
  forall l, P l.
Proof.
  intros H0 H1 H2.
  fix IH 1. intros [|a [|b t]]; [exact H0 | apply H1 | apply H2, IH].
Qed.

Lemma evens_length {A} (l : list A) :
  length (Np.evens l) = Nat.div2 (S (length l)).
Proof.
  induction l as [|a|a b t IH] using pairs_ind; try reflexivity.
  cbn [Np.evens length]. rewrite IH. reflexivity.
Qed.

Lemma odds_length {A} (l : list A) : length (Np.odds l) = Nat.div2 (length l).
Proof. destruct l as [|a t]; [reflexivity|]. unfold Np.odds. cbn [tl]. rewrite evens_length. reflexivity. Qed.

Lemma evens_lookup {A} (l : list A) k : Np.evens l !! k = l !! (2 * k)%nat.
Proof.
  revert k. induction l as [|a|a b t IH] using pairs_ind; intros k.
  - reflexivity.
  - destruct k as [|k]; [reflexivity|]. cbn. replace (k + S (k + 0))%nat with (S (2 * k)) by lia. reflexivity.
  - destruct k as [|k]; [reflexivity|].
    cbn [Np.evens]. replace (2 * S k)%nat with (S (S (2 * k))) by lia.
    cbn [lookup list_lookup]. apply IH.
Qed.

Lemma odds_lookup {A} (l : list A) k : Np.odds l !! k = l !! (2 * k + 1)%nat.
Proof.
  destruct l as [|a t]; [reflexivity|].
  unfold Np.odds. cbn [tl]. rewrite evens_lookup.
  replace (2 * k + 1)%nat with (S (2 * k)) by lia. reflexivity.
Qed.

Lemma odds_cons2 {A} (a b : A) t : Np.odds (a :: b :: t) = b :: Np.odds t.
Proof. unfold Np.odds. destruct t; reflexivity. Qed.

Lemma evens_interleave x y : length x = length y -> Np.evens (interleave x y) = x.
Proof.
  revert y. induction x as [|a x IH]; intros [|b y] H; try discriminate; [reflexivity|].
  cbn. f_equal. apply IH. cbn in H. lia.
Qed.

Lemma odds_interleave x y : length x = length y -> Np.odds (interleave x y) = y.
Proof.
  revert y. induction x as [|a x IH]; intros [|b y] H; try discriminate; [reflexivity|].
  cbn [interleave]. rewrite odds_cons2. f_equal. apply (IH y). cbn in H. lia.
Qed.

Lemma interleave_evens_odds (r : list R) :
  Nat.Even (length r) -> interleave (Np.evens r) (Np.odds r) = r.
Proof.
  induction r as [|a|a b t IH] using pairs_ind; intros H.
  - reflexivity.
  - destruct H as [k Hk]. cbn in Hk. lia.
  - rewrite odds_cons2. cbn [Np.evens interleave]. f_equal. f_equal. apply IH.
    destruct H as [k Hk]. exists (k - 1)%nat. cbn in Hk. lia.
Qed.

Lemma interleave_length x y : length x = length y -> length (interleave x y) = (2 * length x)%nat.
Proof.
  revert y. induction x as [|a x IH]; intros [|b y] H; try discriminate; [reflexivity|].
  cbn. rewrite (IH y) by (cbn in H; lia). lia.
Qed.

(** The two slice assignments of [xy2r] turn any array of the right length into the interleaving. *)
Lemma put_interleave x y r0 :
  length x = length y -> length r0 = (2 * length x)%nat ->
  Np.put_odds (Np.put_evens r0 x) y = interleave x y.
Proof.
  revert y r0. induction x as [|a x IH]; intros [|b y] r0 Hxy Hr; try discriminate.
  - destruct r0; [reflexivity|discriminate].
  - destruct r0 as [|c [|d r0]]; try (cbn in Hr; lia).
    transitivity (a :: b :: Np.put_odds (Np.put_evens r0 x) y); [reflexivity|].
    rewrite IH; [reflexivity | cbn in Hxy; lia | cbn in Hr; lia].
Qed.

Lemma fit_same n v : length v = n -> Np.fit n v = Ok v.
Proof. intros H. unfold Np.fit. rewrite H, Nat.eqb_refl. reflexivity. Qed.

Lemma put_evens_length r v : length (Np.put_evens r v) = length r.
Proof.
  revert v. induction r as [|a|a b t IH] using pairs_ind; intros [|x v]; try reflexivity.
  cbn. rewrite IH. reflexivity.
Qed.

Lemma odds_put_evens r v : Np.odds (Np.put_evens r v) = Np.odds r.
Proof.
  revert v. induction r as [|a|a b t IH] using pairs_ind; intros [|x v]; try reflexivity.
  unfold Np.odds in *. cbn. f_equal.
  specialize (IH v). destruct t as [|c t]; [destruct v; reflexivity|].
  destruct v as [|x' v]; [reflexivity|]. cbn in IH |- *. exact IH.
Qed.

Lemma zeros_length n : length (Np.zeros n) = n.
Proof. apply repeat_length. Qed.

Lemma div2_double_S n : Nat.div2 (S (2 * n)) = n.
Proof. induction n; [reflexivity|]. replace (S (2 * S n)) with (S (S (S (2 * n)))) by lia. cbn [Nat.div2]. f_equal. exact IHn. Qed.
Lemma div2_double n : Nat.div2 (2 * n) = n.
Proof. induction n; [reflexivity|]. replace ((2 * S n))%nat with ((S (S (2 * n)))) by lia. cbn [Nat.div2]. f_equal. exact IHn. Qed.

Lemma xy2r_interleave x y : length x = length y -> xy2r x y = Ok (interleave x y).
Proof.
  intros H. unfold xy2r. rewrite H, Nat.eqb_refl.
  unfold Np.set_evens. rewrite fit_same.
  2:{ rewrite evens_length, zeros_length, div2_double_S. congruence. }
  cbn [rbind]. unfold Np.set_odds. rewrite fit_same.
  2:{ rewrite odds_put_evens, odds_length, zeros_length, div2_double. reflexivity. }
  cbn [rbind]. rewrite <- H. rewrite put_interleave; auto. apply zeros_length.
Qed.

Lemma interleave_lookup x y k :
  length x = length y ->
  interleave x y !! (2 * k)%nat = x !! k /\ interleave x y !! (2 * k + 1)%nat = y !! k.
Proof.
  intros H. rewrite <- evens_lookup, <- odds_lookup.
  rewrite evens_interleave, odds_interleave by exact H. split; reflexivity.
Qed.

(** C6.  For coordinate sequences [x], [y] of equal length, [xy2r] succeeds
    and [r2xy] gives [(x, y)] back; for an even-length [r], [xy2r] of the two
    halves of [r2xy r] succeeds with [r]; under both maps charge [k] has its
    x-coordinate at index [2k] and its y-coordinate at index [2k+1]. *)
Theorem codec_round_trip (x y r : list R)
    (Hxy : length x = length y) (Hr : Nat.Even (length r)) :
  (exists r', xy2r x y = Ok r' /\ r2xy r' = (x, y)
              /\ forall k, r' !! (2 * k)%nat = x !! k /\ r' !! (2 * k + 1)%nat = y !! k)
  /\ (xy2r (fst (r2xy r)) (snd (r2xy r)) = Ok r
      /\ forall k, fst (r2xy r) !! k = r !! (2 * k)%nat
                   /\ snd (r2xy r) !! k = r !! (2 * k + 1)%nat).
Proof.
  split.
  - exists (interleave x y). split; [apply xy2r_interleave, Hxy|]. split.
    + unfold r2xy. rewrite evens_interleave, odds_interleave by exact Hxy. reflexivity.
    + intros k. apply interleave_lookup, Hxy.
  - unfold r2xy. cbn [fst snd]. split.
    + rewrite xy2r_interleave.
      * rewrite interleave_evens_odds by exact Hr. reflexivity.
      * rewrite evens_length, odds_length. destruct Hr as [n Hn]. rewrite Hn.
        rewrite div2_double_S, div2_double. reflexivity.
    + intros k. split; [apply evens_lookup | apply odds_lookup].
Qed.

Lemma codec_round_trip_witness :
  length [1%R; 2%R] = length [3%R; 4%R]
  /\ Nat.Even (length [1%R; 3%R; 2%R; 4%R])
  /\ xy2r (fst (r2xy [1%R; 3%R; 2%R; 4%R])) (snd (r2xy [1%R; 3%R; 2%R; 4%R]))
     = Ok [1%R; 3%R; 2%R; 4%R].
Proof.
  assert (H1 : length [1%R; 2%R] = length [3%R; 4%R]) by reflexivity.
  assert (H2 : Nat.Even (length [1%R; 3%R; 2%R; 4%R])) by (exists 2%nat; reflexivity).
  split; [exact H1|]. split; [exact H2|].
  exact (proj1 (proj2 (codec_round_trip [1%R; 2%R] [3%R; 4%R] [1%R; 3%R; 2%R; 4%R] H1 H2))).
Defined.

(** C7.  [xy2r x y] raises exactly when [len(x) <> len(y)], and then it is
    the [ValueError] of the length check; a result, when there is one, has
    length [2 * len(x)] and holds [x] and [y] themselves (no padding, no
    truncation); with equal lengths it always succeeds. *)
Theorem xy2r_shape_mismatch (x y : list R) :
  (length x <> length y <-> exists e, xy2r x y = Raise e)
  /\ (forall e, xy2r x y = Raise e -> e = ValueError "x and y must have the same length!")
  /\ (forall r, xy2r x y = Ok r ->
        length x = length y /\ length r = (2 * length x)%nat
        /\ Np.evens r = x /\ Np.odds r = y)
  /\ (length x = length y -> exists r, xy2r x y = Ok r /\ length r = (2 * length x)%nat).
Proof.
  destruct (Nat.eq_dec (length x) (length y)) as [E|NE].
  - pose proof (xy2r_interleave x y E) as HI.
    split; [|split; [|split]].
    + split; [intros H; contradiction|]. intros [e He]. congruence.
    + intros e He. congruence.
    + intros r Hr. rewrite HI in Hr. injection Hr as <-.
      split; [exact E|]. split; [apply interleave_length, E|].
      split; [apply evens_interleave, E | apply odds_interleave, E].
    + intros _. exists (interleave x y). split; [exact HI | apply interleave_length, E].
  - assert (HR : xy2r x y = Raise (ValueError "x and y must have the same length!")).
    { unfold xy2r. destruct (Nat.eqb_spec (length x) (length y)); [contradiction | reflexivity]. }
    split; [|split; [|split]].
    + split; [intros _; eexists; exact HR | intros _; exact NE].
    + intros e He. congruence.
    + intros r Hr. congruence.
    + intros E. contradiction.
Qed.

Lemma xy2r_shape_mismatch_witness :
  length [1%R] <> length [2%R; 3%R]
  /\ xy2r [1%R] [2%R; 3%R] = Raise (ValueError "x and y must have the same length!").
Proof.
  assert (H : length [1%R] <> length [2%R; 3%R]) by (cbn; lia).
  split; [exact H|].
  destruct (proj1 (proj1 (xy2r_shape_mismatch [1%R] [2%R; 3%R])) H) as [e He].
  rewrite He. f_equal.
  exact (proj1 (proj2 (xy2r_shape_mismatch [1%R] [2%R; 3%R])) e He).
Defined.

End Codec.

Local Open Scope R_scope.

(** ** Calculus on the pair terms *)

Section Calculus.

Lemma deriv_affine al be x :
  derivable_pt_lim (fun t => al * t + be) x al.
Proof.
  apply (derivable_pt_lim_ext (plus_fct (mult_real_fct al id) (fct_cte be))).
  - intros z. reflexivity.
  - replace al with (al * 1 + 0) at 2 by ring.
    apply derivable_pt_lim_plus.
    + apply derivable_pt_lim_scal, derivable_pt_lim_id.
    + apply derivable_pt_lim_const.
Qed.

Lemma deriv_quadratic al be w x :
  derivable_pt_lim (fun t => (al * t + be) ^ 2 + w ^ 2) x (2 * al * (al * x + be)).
Proof.
  apply (derivable_pt_lim_ext
           (plus_fct (mult_fct (fun t => al * t + be) (fun t => al * t + be))
                     (fct_cte (w ^ 2)))).
  - intros z. unfold plus_fct, mult_fct, fct_cte. ring.
  - replace (2 * al * (al * x + be))
      with ((al * (al * x + be) + (al * x + be) * al) + 0) by ring.
    apply derivable_pt_lim_plus.
    + apply (derivable_pt_lim_mult (fun t => al * t + be) (fun t => al * t + be)
                                   x al al); apply deriv_affine.
    + apply derivable_pt_lim_const.
Qed.

(** The derivative of [c / sqrt ((al*t + be)^2 + w^2)], the shape of every
    pair term as a function of one coordinate. *)
Lemma deriv_inv_dist c al be w x :
  0 < (al * x + be) ^ 2 + w ^ 2 ->
  derivable_pt_lim (fun t => c / sqrt ((al * t + be) ^ 2 + w ^ 2)) x
    (- c * al * (al * x + be) / sqrt ((al * x + be) ^ 2 + w ^ 2) ^ 3).
Proof.
  intros Hpos.
  set (q := fun t => (al * t + be) ^ 2 + w ^ 2).
  assert (Hs : 0 < sqrt (q x)) by (apply sqrt_lt_R0; exact Hpos).
  apply (derivable_pt_lim_ext (div_fct (fct_cte c) (comp sqrt q))).
  - intros z. reflexivity.
  - replace (- c * al * (al * x + be) / sqrt ((al * x + be) ^ 2 + w ^ 2) ^ 3)
      with ((0 * comp sqrt q x
             - (/ (2 * sqrt (q x)) * (2 * al * (al * x + be))) * fct_cte c x)
            / Rsqr (comp sqrt q x)).
    + apply derivable_pt_lim_div.
      * apply derivable_pt_lim_const.
      * apply derivable_pt_lim_comp.
        -- apply deriv_quadratic.
        -- apply derivable_pt_lim_sqrt. exact Hpos.
      * unfold comp. lra.
    + unfold comp, fct_cte, Rsqr. fold (q x). field. lra.
Qed.

End Calculus.

(** ** Finite sums and array updates *)

Section Sums.

Lemma sum_upto_ext n f g :
  (forall i, (i < n)%nat -> f i = g i) -> Np.sum_upto n f = Np.sum_upto n g.
Proof.
  induction n as [|n IH]; intros H; [reflexivity|].
  cbn. rewrite IH by (intros; apply H; lia). rewrite H by lia. reflexivity.
Qed.

Lemma sum_upto_zero n : Np.sum_upto n (fun _ => 0) = 0.
Proof. induction n as [|n IH]; cbn; [reflexivity | rewrite IH; ring]. Qed.

Lemma sum_upto_plus n f g :
  Np.sum_upto n (fun i => f i + g i) = Np.sum_upto n f + Np.sum_upto n g.
Proof. induction n as [|n IH]; cbn; [ring | rewrite IH; ring]. Qed.

Lemma sum_upto_scal n c f :
  Np.sum_upto n (fun i => c * f i) = c * Np.sum_upto n f.
Proof. induction n as [|n IH]; cbn; [ring | rewrite IH; ring]. Qed.

Lemma sum_upto_shift n f :
  Np.sum_upto (S n) f = f O + Np.sum_upto n (fun i => f (S i)).
Proof.
  induction n as [|n IH]; [cbn; ring|].
  change (Np.sum_upto (S (S n)) f) with (Np.sum_upto (S n) f + f (S n)).
  rewrite IH. cbn. ring.
Qed.

(** A sum with a single nonzero term. *)
Lemma sum_upto_single n k v :
  (k < n)%nat -> Np.sum_upto n (fun i => if (i =? k)%nat then v else 0) = v.
Proof.
  induction n as [|n IH]; intros H; [lia|].
  cbn. destruct (Nat.eqb_spec n k) as [->|NE].
  - rewrite (sum_upto_ext k _ (fun _ => 0)), sum_upto_zero; [ring|].
    intros i Hi. destruct (Nat.eqb_spec i k); [lia | reflexivity].
  - rewrite IH by lia. ring.
Qed.

Lemma sum_upto_pick n k f :
  (k < n)%nat -> Np.sum_upto n (fun i => if (i =? k)%nat then f i else 0) = f k.
Proof.
  intros H. rewrite <- (sum_upto_single n k (f k) H). apply sum_upto_ext.
  intros i _. destruct (Nat.eqb_spec i k) as [->|]; reflexivity.
Qed.

Lemma sum1_nth l : Np.sum1 l = Np.sum_upto (length l) (fun i => nth i l 0).
Proof.
  induction l as [|a l IH]; [reflexivity|].
  cbn [length]. rewrite sum_upto_shift. cbn [Np.sum1 fold_right nth].
  fold (Np.sum1 l). rewrite IH. reflexivity.
Qed.

Lemma nth_zip_with (f : R -> R -> R) xi yi i :
  (i < length xi)%nat -> (i < length yi)%nat ->
  nth i (zip_with f xi yi) 0 = f (nth i xi 0) (nth i yi 0).
Proof.
  revert yi i. induction xi as [|a xi IH]; intros [|b yi] i Hx Hy; cbn in *; try lia.
  destruct i; [reflexivity|]. apply IH; lia.
Qed.

Lemma length_zip_with_same (f : R -> R -> R) xi yi :
  length xi = length yi -> length (zip_with f xi yi) = length xi.
Proof.
  revert yi. induction xi as [|a xi IH]; intros [|b yi] H; cbn in *; try lia.
  rewrite IH; lia.
Qed.

Lemma nth_map_R (f : R -> R) l i :
  (i < length l)%nat -> nth i (map f l) 0 = f (nth i l 0).
Proof.
  revert i. induction l as [|a l IH]; intros i H; cbn in *; [lia|].
  destruct i; [reflexivity|]. apply IH. lia.
Qed.

Lemma nth_insert (l : list R) k t i :
  (k < length l)%nat ->
  nth i (<[k := t]> l) 0 = if (i =? k)%nat then t else nth i l 0.
Proof.
  revert k i. induction l as [|a l IH]; intros k i H; cbn in H; [lia|].
  destruct k as [|k]; destruct i as [|i]; try reflexivity.
  cbn. apply IH. lia.
Qed.

Lemma nth_lookup_R (l : list R) i v : l !! i = Some v -> nth i l 0 = v.
Proof.
  revert i. induction l as [|a l IH]; intros [|i] H; cbn in *; try discriminate.
  - congruence.
  - apply IH, H.
Qed.

Lemma evens_insert_even {A} (l : list A) k t :
  Np.evens (<[(2 * k)%nat := t]> l) = <[k := t]> (Np.evens l).
Proof.
  revert k. induction l as [|a|a b l IH] using pairs_ind; intros k.
  - reflexivity.
  - destruct k; reflexivity.
  - destruct k as [|k]; [reflexivity|].
    replace (2 * S k)%nat with (S (S (2 * k))) by lia.
    cbn. f_equal. apply IH.
Qed.

Lemma evens_insert_odd {A} (l : list A) k t :
  Np.evens (<[(2 * k + 1)%nat := t]> l) = Np.evens l.
Proof.
  revert k. induction l as [|a|a b l IH] using pairs_ind; intros k.
  - reflexivity.
  - replace (2 * k + 1)%nat with (S (2 * k)) by lia. reflexivity.
  - destruct k as [|k]; [reflexivity|].
    replace (2 * S k + 1)%nat with (S (S (2 * k + 1))) by lia.
    cbn. f_equal. apply IH.
Qed.

Lemma odds_insert_even {A} (l : list A) k t :
  Np.odds (<[(2 * k)%nat := t]> l) = Np.odds l.
Proof.
  destruct l as [|a l]; [reflexivity|].
  destruct k as [|k]; [reflexivity|].
  replace (2 * S k)%nat with (S (2 * k + 1)) by lia.
  unfold Np.odds. cbn [tl]. change (<[S (2 * k + 1) := t]> (a :: l)) with (a :: <[(2 * k + 1)%nat := t]> l).
  cbn [tl]. apply evens_insert_odd.
Qed.

Lemma odds_insert_odd {A} (l : list A) k t :
  Np.odds (<[(2 * k + 1)%nat := t]> l) = <[k := t]> (Np.odds l).
Proof.
  destruct l as [|a l]; [reflexivity|].
  replace (2 * k + 1)%nat with (S (2 * k)) by lia.
  unfold Np.odds. change (<[S (2 * k) := t]> (a :: l)) with (a :: <[(2 * k)%nat := t]> l).
  cbn [tl]. apply evens_insert_even.
Qed.

End Sums.

Section Calculus2.

Lemma deriv_sum_upto n (f : nat -> R -> R) (l : nat -> R) x :
  (forall i, (i < n)%nat -> derivable_pt_lim (f i) x (l i)) ->
  derivable_pt_lim (fun t => Np.sum_upto n (fun i => f i t)) x (Np.sum_upto n l).
Proof.
  induction n as [|n IH]; intros H.
  - cbn. apply (derivable_pt_lim_const 0).
  - cbn [Np.sum_upto].
    apply (derivable_pt_lim_plus (fun t => Np.sum_upto n (fun i => f i t)) (f n)).
    + apply IH. intros i Hi. apply H. lia.
    + apply H. lia.
Qed.

Lemma deriv_const c x : derivable_pt_lim (fun _ => c) x 0.
Proof. apply (derivable_pt_lim_const c). Qed.

(** The shape shared by both [Vtotal]: field sum and pair sum over [N]
    charges, divided by the charge. *)
Lemma deriv_energy q N (v : nat -> R -> R) (e : nat -> nat -> R -> R) x v' e' :
  (forall i, (i < N)%nat -> derivable_pt_lim (v i) x (v' i)) ->
  (forall a b, (a < N)%nat -> (b < N)%nat -> derivable_pt_lim (e a b) x (e' a b)) ->
  derivable_pt_lim
    (fun t => (q * Np.sum_upto N (fun i => v i t)
               + Np.sum_upto N (fun a => Np.sum_upto N (fun b => e a b t))) / q) x
    ((q * Np.sum_upto N v'
      + Np.sum_upto N (fun a => Np.sum_upto N (fun b => e' a b))) / q).
Proof.
  intros Hv He.
  apply (derivable_pt_lim_div_scal
           (fun t => q * Np.sum_upto N (fun i => v i t)
                     + Np.sum_upto N (fun a => Np.sum_upto N (fun b => e a b t)))).
  apply (derivable_pt_lim_plus
           (fun t => q * Np.sum_upto N (fun i => v i t))
           (fun t => Np.sum_upto N (fun a => Np.sum_upto N (fun b => e a b t)))).
  - apply (derivable_pt_lim_scal (fun t => Np.sum_upto N (fun i => v i t))).
    apply deriv_sum_upto, Hv.
  - apply (deriv_sum_upto N (fun a t => Np.sum_upto N (fun b => e a b t))
                          (fun a => Np.sum_upto N (fun b => e' a b))).
    intros a Ha. apply (deriv_sum_upto N (e a) (e' a)). intros b Hb. apply He; assumption.
Qed.

Lemma deriv_pair_x1 c u w x :
  0 < (x - u) ^ 2 + w ^ 2 ->
  derivable_pt_lim (fun t => c * 1 / sqrt ((t - u) ^ 2 + w ^ 2)) x
    (- c * (x - u) / sqrt ((x - u) ^ 2 + w ^ 2) ^ 3).
Proof.
  intros H.
  apply (derivable_pt_lim_ext (fun t => c / sqrt ((1 * t + - u) ^ 2 + w ^ 2))).
  - intros z. replace (1 * z + - u) with (z - u) by ring. unfold Rdiv. ring.
  - replace (- c * (x - u) / sqrt ((x - u) ^ 2 + w ^ 2) ^ 3)
      with (- c * 1 * (1 * x + - u) / sqrt ((1 * x + - u) ^ 2 + w ^ 2) ^ 3).
    + apply deriv_inv_dist. replace (1 * x + - u) with (x - u) by ring. exact H.
    + replace (1 * x + - u) with (x - u) by ring. unfold Rdiv. ring.
Qed.

Lemma deriv_pair_x2 c u w x :
  0 < (u - x) ^ 2 + w ^ 2 ->
  derivable_pt_lim (fun t => c * 1 / sqrt ((u - t) ^ 2 + w ^ 2)) x
    (c * (u - x) / sqrt ((u - x) ^ 2 + w ^ 2) ^ 3).
Proof.
  intros H.
  apply (derivable_pt_lim_ext (fun t => c / sqrt ((-1 * t + u) ^ 2 + w ^ 2))).
  - intros z. replace (-1 * z + u) with (u - z) by ring. unfold Rdiv. ring.
  - replace (c * (u - x) / sqrt ((u - x) ^ 2 + w ^ 2) ^ 3)
      with (- c * -1 * (-1 * x + u) / sqrt ((-1 * x + u) ^ 2 + w ^ 2) ^ 3).
    + apply deriv_inv_dist. replace (-1 * x + u) with (u - x) by ring. exact H.
    + replace (-1 * x + u) with (u - x) by ring. unfold Rdiv. ring.
Qed.

Lemma deriv_pair_y1 c d u x :
  0 < d ^ 2 + (u - x) ^ 2 ->
  derivable_pt_lim (fun t => c * 1 / sqrt (d ^ 2 + (u - t) ^ 2)) x
    (c * (u - x) / sqrt (d ^ 2 + (u - x) ^ 2) ^ 3).
Proof.
  intros H.
  apply (derivable_pt_lim_ext (fun t => c * 1 / sqrt ((u - t) ^ 2 + d ^ 2))).
  - intros z. rewrite (Rplus_comm (d ^ 2)). reflexivity.
  - rewrite (Rplus_comm (d ^ 2)). apply deriv_pair_x2. rewrite Rplus_comm. exact H.
Qed.

Lemma deriv_pair_y2 c d u x :
  0 < d ^ 2 + (x - u) ^ 2 ->
  derivable_pt_lim (fun t => c * 1 / sqrt (d ^ 2 + (t - u) ^ 2)) x
    (- c * (x - u) / sqrt (d ^ 2 + (x - u) ^ 2) ^ 3).
Proof.
  intros H.
  apply (derivable_pt_lim_ext (fun t => c * 1 / sqrt ((t - u) ^ 2 + d ^ 2))).
  - intros z. rewrite (Rplus_comm (d ^ 2)). reflexivity.
  - rewrite (Rplus_comm (d ^ 2)). apply deriv_pair_x1. rewrite Rplus_comm. exact H.
Qed.

(** A double sum whose terms vanish off row [k] and off column [k]. *)
Lemma sum_cross N k (A B : nat -> R) :
  (k < N)%nat ->
  Np.sum_upto N (fun a => Np.sum_upto N (fun b =>
     (if (b =? k)%nat then A a else 0) + (if (a =? k)%nat then B b else 0)))
  = Np.sum_upto N (fun a => A a + B a).
Proof.
  intros Hk.
  transitivity (Np.sum_upto N (fun a => A a + (if (a =? k)%nat then Np.sum_upto N B else 0))).
  - apply sum_upto_ext. intros a Ha.
    rewrite sum_upto_plus. f_equal.
    + apply sum_upto_single, Hk.
    + destruct (a =? k)%nat; [reflexivity | apply sum_upto_zero].
  - rewrite !sum_upto_plus. f_equal. apply sum_upto_single, Hk.
Qed.

End Calculus2.

(** ** The energy and gradient of [ElectrostaticPotential] *)

Section EPFacts.

Variable s : EP.self.

Lemma qe_pos : 0 < EP.qe.
Proof. unfold EP.qe. lra. Qed.

Lemma eps0_pos : 0 < EP.eps0.
Proof. unfold EP.eps0. lra. Qed.

Lemma four_pi_eps0_pos : 0 < 4 * PI * EP.eps0.
Proof.
  pose proof PI_RGT_0. pose proof eps0_pos.
  apply Rmult_lt_0_compat; lra.
Qed.

Lemma EP_Vtotal_sum r :
  length (Np.evens r) = length (Np.odds r) ->
  EP.Vtotal s r
  = EP_energy (EP.interpolator s 0 0) (length (Np.evens r))
              (fun i => nth i (Np.evens r) 0) (fun i => nth i (Np.odds r) 0).
Proof.
  intros HN.
  unfold EP.Vtotal, EP_energy, EP.Velectrostatic, EP.V, EP.Vee, EP.Vee_division,
    Np.true_divide, EP.Vee_Rij.
  cbn [Np.meshgrid Np.transpose Np.mmap Np.mzip Np.fill_diagonal Np.sum
       Np.nrows Np.ncols Np.entry fst].
  rewrite sum1_nth, length_zip_with_same by exact HN.
  rewrite <- HN. f_equal. f_equal.
  - f_equal. apply sum_upto_ext. intros i Hi. apply nth_zip_with; lia.
  - apply sum_upto_ext. intros a _. apply sum_upto_ext. intros b _.
    cbn [Np.meshgrid Np.transpose Np.mmap Np.mzip Np.fill_diagonal
         Np.nrows Np.ncols Np.entry].
    destruct (a =? b)%nat; reflexivity.
Qed.

Lemma pair_pos (X Y : nat -> R) a b :
  sqrt ((X b - X a) ^ 2 + (Y a - Y b) ^ 2) <> 0 ->
  0 < (X b - X a) ^ 2 + (Y a - Y b) ^ 2.
Proof.
  intros H. destruct (Rle_or_lt ((X b - X a) ^ 2 + (Y a - Y b) ^ 2) 0) as [Hle|]; [|assumption].
  exfalso. apply H. apply sqrt_neg_0. exact Hle.
Qed.

(** The x-derivative of the energy of [N] charges. *)
Lemma EP_energy_deriv_x V N X Y k dVx :
  (k < N)%nat ->
  derivable_pt_lim (fun t => V t (Y k)) (X k) dVx ->
  (forall a, (a < N)%nat -> a <> k ->
     sqrt ((X k - X a) ^ 2 + (Y a - Y k) ^ 2) <> 0) ->
  derivable_pt_lim (fun t => EP_energy V N (upd X k t) Y) (X k)
    (dVx + Np.sum_upto N (fun a =>
             if (a =? k)%nat then 0
             else -1 * EP.qe ^ 2 / (4 * PI * EP.eps0) * (X k - X a)
                  / sqrt ((X k - X a) ^ 2 + (Y a - Y k) ^ 2) ^ 3) / EP.qe).
Proof.
  intros Hk HV Hd.
  pose proof qe_pos as Hq. pose proof four_pi_eps0_pos as Hp.
  set (c := 1 / 2 * EP.qe ^ 2 / (4 * PI * EP.eps0)).
  set (A := fun a => if (a =? k)%nat then 0
                     else - c * (X k - X a) / sqrt ((X k - X a) ^ 2 + (Y a - Y k) ^ 2) ^ 3).
  set (B := fun b => if (b =? k)%nat then 0
                     else c * (X b - X k) / sqrt ((X b - X k) ^ 2 + (Y k - Y b) ^ 2) ^ 3).
  pose proof (deriv_energy EP.qe N
    (fun i t => V (upd X k t i) (Y i))
    (fun a b t => if (a =? b)%nat then 0
                  else c * 1 / sqrt ((upd X k t b - upd X k t a) ^ 2 + (Y a - Y b) ^ 2))
    (X k)
    (fun i => if (i =? k)%nat then dVx else 0)
    (fun a b => (if (b =? k)%nat then A a else 0) + (if (a =? k)%nat then B b else 0)))
    as HE.
  unfold EP_energy. fold c.
  match type of HE with _ -> _ -> derivable_pt_lim _ _ ?l =>
    replace (dVx + Np.sum_upto N (fun a =>
             if (a =? k)%nat then 0
             else -1 * EP.qe ^ 2 / (4 * PI * EP.eps0) * (X k - X a)
                  / sqrt ((X k - X a) ^ 2 + (Y a - Y k) ^ 2) ^ 3) / EP.qe) with l
  end.
  - apply HE.
    + intros i Hi. unfold upd. destruct (Nat.eqb_spec i k) as [->|NE].
      * exact HV.
      * apply deriv_const.
    + intros a b Ha Hb. unfold upd, A, B.
      destruct (Nat.eqb_spec a b) as [->|Hab].
      * destruct (Nat.eqb_spec b k); replace (0 + 0) with 0 by ring; apply deriv_const.
      * destruct (Nat.eqb_spec b k) as [->|Hbk]; destruct (Nat.eqb_spec a k) as [->|Hak];
          try congruence.
        -- rewrite Rplus_0_r. apply deriv_pair_x1. apply pair_pos. apply Hd; assumption.
        -- rewrite Rplus_0_l. apply deriv_pair_x2.
           apply (pair_pos X Y k b).
           replace ((X b - X k) ^ 2 + (Y k - Y b) ^ 2)
             with ((X k - X b) ^ 2 + (Y b - Y k) ^ 2) by ring.
           apply Hd; assumption.
        -- rewrite Rplus_0_l. apply deriv_const.
  - rewrite sum_upto_single by exact Hk. rewrite sum_cross by exact Hk.
    replace (Np.sum_upto N (fun a => A a + B a))
      with (Np.sum_upto N (fun a =>
             if (a =? k)%nat then 0
             else -1 * EP.qe ^ 2 / (4 * PI * EP.eps0) * (X k - X a)
                  / sqrt ((X k - X a) ^ 2 + (Y a - Y k) ^ 2) ^ 3)).
    + field. lra.
    + apply sum_upto_ext. intros a Ha. unfold A, B.
      destruct (Nat.eqb_spec a k) as [->|Hak]; [ring|].
      replace ((X a - X k) ^ 2 + (Y k - Y a) ^ 2)
        with ((X k - X a) ^ 2 + (Y a - Y k) ^ 2) by ring.
      unfold c. field.
      repeat split;
        first [ apply Hd; assumption | apply PI_neq0
              | pose proof eps0_pos; lra ].
Qed.

(** The y-derivative of the energy of [N] charges. *)
Lemma EP_energy_deriv_y V N X Y k dVy :
  (k < N)%nat ->
  derivable_pt_lim (fun t => V (X k) t) (Y k) dVy ->
  (forall a, (a < N)%nat -> a <> k ->
     sqrt ((X k - X a) ^ 2 + (Y a - Y k) ^ 2) <> 0) ->
  derivable_pt_lim (fun t => EP_energy V N X (upd Y k t)) (Y k)
    (dVy + Np.sum_upto N (fun a =>
             if (a =? k)%nat then 0
             else 1 * EP.qe ^ 2 / (4 * PI * EP.eps0) * (Y a - Y k)
                  / sqrt ((X k - X a) ^ 2 + (Y a - Y k) ^ 2) ^ 3) / EP.qe).
Proof.
  intros Hk HV Hd.
  pose proof qe_pos as Hq. pose proof four_pi_eps0_pos as Hp.
  set (c := 1 / 2 * EP.qe ^ 2 / (4 * PI * EP.eps0)).
  set (A := fun a => if (a =? k)%nat then 0
                     else c * (Y a - Y k) / sqrt ((X k - X a) ^ 2 + (Y a - Y k) ^ 2) ^ 3).
  set (B := fun b => if (b =? k)%nat then 0
                     else - c * (Y k - Y b) / sqrt ((X b - X k) ^ 2 + (Y k - Y b) ^ 2) ^ 3).
  pose proof (deriv_energy EP.qe N
    (fun i t => V (X i) (upd Y k t i))
    (fun a b t => if (a =? b)%nat then 0
                  else c * 1 / sqrt ((X b - X a) ^ 2 + (upd Y k t a - upd Y k t b) ^ 2))
    (Y k)
    (fun i => if (i =? k)%nat then dVy else 0)
    (fun a b => (if (b =? k)%nat then A a else 0) + (if (a =? k)%nat then B b else 0)))
    as HE.
  unfold EP_energy. fold c.
  match type of HE with _ -> _ -> derivable_pt_lim _ _ ?l =>
    replace (dVy + Np.sum_upto N (fun a =>
             if (a =? k)%nat then 0
             else 1 * EP.qe ^ 2 / (4 * PI * EP.eps0) * (Y a - Y k)
                  / sqrt ((X k - X a) ^ 2 + (Y a - Y k) ^ 2) ^ 3) / EP.qe) with l
  end.
  - apply HE.
    + intros i Hi. unfold upd. destruct (Nat.eqb_spec i k) as [->|NE].
      * exact HV.
      * apply deriv_const.
    + intros a b Ha Hb. unfold upd, A, B.
      destruct (Nat.eqb_spec a b) as [->|Hab].
      * destruct (Nat.eqb_spec b k); replace (0 + 0) with 0 by ring; apply deriv_const.
      * destruct (Nat.eqb_spec b k) as [->|Hbk]; destruct (Nat.eqb_spec a k) as [->|Hak];
          try congruence.
        -- rewrite Rplus_0_r. apply deriv_pair_y1. apply pair_pos. apply Hd; assumption.
        -- rewrite Rplus_0_l. apply deriv_pair_y2.
           apply (pair_pos X Y k b).
           replace ((X b - X k) ^ 2 + (Y k - Y b) ^ 2)
             with ((X k - X b) ^ 2 + (Y b - Y k) ^ 2) by ring.
           apply Hd; assumption.
        -- rewrite Rplus_0_l. apply deriv_const.
  - rewrite sum_upto_single by exact Hk. rewrite sum_cross by exact Hk.
    replace (Np.sum_upto N (fun a => A a + B a))
      with (Np.sum_upto N (fun a =>
             if (a =? k)%nat then 0
             else 1 * EP.qe ^ 2 / (4 * PI * EP.eps0) * (Y a - Y k)
                  / sqrt ((X k - X a) ^ 2 + (Y a - Y k) ^ 2) ^ 3)).
    + field. lra.
    + apply sum_upto_ext. intros a Ha. unfold A, B.
      destruct (Nat.eqb_spec a k) as [->|Hak]; [ring|].
      replace ((X a - X k) ^ 2 + (Y k - Y a) ^ 2)
        with ((X k - X a) ^ 2 + (Y a - Y k) ^ 2) by ring.
      unfold c. field.
      repeat split;
        first [ apply Hd; assumption | apply PI_neq0
              | pose proof eps0_pos; lra ].
Qed.

End EPFacts.

Section Glue.

Lemma evens_odds_length {A} (l : list A) :
  (length (Np.evens l) + length (Np.odds l))%nat = length l.
Proof.
  induction l as [|a|a b l IH] using pairs_ind; try reflexivity.
  rewrite odds_cons2. cbn [Np.evens length]. lia.
Qed.

Lemma even_halves {A} (l : list A) :
  Nat.Even (length l) -> length (Np.evens l) = length (Np.odds l).
Proof.
  intros [n Hn]. rewrite evens_length, odds_length, Hn.
  rewrite div2_double_S, div2_double. reflexivity.
Qed.

(** The two slice assignments that fill a fresh array of length [2n]. *)
Lemma set_pair_interleave x y r0 :
  length x = length y -> length r0 = (2 * length x)%nat ->
  (do g <- Np.set_evens r0 x; do g <- Np.set_odds g y; Ok g) = Ok (interleave x y).
Proof.
  intros Hxy Hr. unfold Np.set_evens. rewrite fit_same.
  2:{ rewrite evens_length, Hr, div2_double_S. reflexivity. }
  cbn [rbind]. unfold Np.set_odds. rewrite fit_same.
  2:{ rewrite odds_put_evens, odds_length, Hr, div2_double. congruence. }
  cbn [rbind]. rewrite put_interleave; auto.
Qed.

Lemma nth_interleave x y k :
  length x = length y -> (k < length x)%nat ->
  nth (2 * k) (interleave x y) 0 = nth k x 0
  /\ nth (2 * k + 1) (interleave x y) 0 = nth k y 0.
Proof.
  revert y k. induction x as [|a x IH]; intros [|b y] k Hxy Hk; cbn in Hxy, Hk; try lia.
  destruct k as [|k]; [split; reflexivity|].
  replace (2 * S k)%nat with (S (S (2 * k))) by lia.
  replace (S (S (2 * k)) + 1)%nat with (S (S (2 * k + 1))) by lia.
  cbn [interleave nth]. apply IH; lia.
Qed.

Lemma nth_map_seq (F : nat -> R) n k :
  (k < n)%nat -> nth k (map F (seq 0 n)) 0 = F k.
Proof.
  intros Hk. assert (G : forall s, nth k (map F (seq s n)) 0 = F (s + k)%nat).
  { revert k Hk. induction n as [|n IH]; intros k Hk s; [lia|].
    destruct k as [|k]; cbn; [f_equal; lia|].
    rewrite IH by lia. f_equal. lia. }
  apply (G 0%nat).
Qed.

Lemma sum_axis0_length M : length (Np.sum_axis0 M) = Np.ncols M.
Proof. unfold Np.sum_axis0. rewrite length_map, length_seq. reflexivity. Qed.

Lemma nth_sum_axis0 M k :
  (k < Np.ncols M)%nat ->
  nth k (Np.sum_axis0 M) 0 = Np.sum_upto (Np.nrows M) (fun a => Np.entry M a k).
Proof. intros H. unfold Np.sum_axis0. apply nth_map_seq, H. Qed.

Lemma zip2_same f a b :
  length a = length b -> Np.zip2 f a b = Ok (zip_with f a b).
Proof. intros H. unfold Np.zip2. rewrite H, Nat.eqb_refl. reflexivity. Qed.

End Glue.

Section EPGradient.

Variable s : EP.self.

Lemma EP_grad_Vee_ok xi yi eps :
  length xi = length yi ->
  EP.grad_Vee xi yi eps
  = Ok (interleave (Np.sum_axis0 (EP.gradx_matrix xi yi eps))
                   (Np.sum_axis0 (EP.grady_matrix xi yi eps))).
Proof.
  intros H. unfold EP.grad_Vee. apply set_pair_interleave.
  - rewrite !sum_axis0_length. reflexivity.
  - rewrite zeros_length, sum_axis0_length. reflexivity.
Qed.

Lemma EP_grad_total_ok r :
  Nat.Even (length r) ->
  EP.grad_total s r
  = Ok (zip_with Rplus
          (interleave (EP.dVdx s (Np.evens r) (Np.odds r))
                      (EP.dVdy s (Np.evens r) (Np.odds r)))
          (map (fun v => v / EP.qe)
               (interleave
                  (Np.sum_axis0 (EP.gradx_matrix (Np.evens r) (Np.odds r) EP.grad_Vee_eps))
                  (Np.sum_axis0 (EP.grady_matrix (Np.evens r) (Np.odds r) EP.grad_Vee_eps))))).
Proof.
  intros He. pose proof (even_halves r He) as HN.
  pose proof (evens_odds_length r) as HL.
  unfold EP.grad_total.
  assert (Hd : length (EP.dVdx s (Np.evens r) (Np.odds r)) = length (Np.evens r))
    by (apply length_zip_with_same, HN).
  assert (Hd' : length (EP.dVdy s (Np.evens r) (Np.odds r)) = length (Np.evens r))
    by (apply length_zip_with_same, HN).
  unfold Np.set_evens. rewrite fit_same.
  2:{ rewrite evens_length, zeros_length, <- evens_length. exact Hd. }
  cbn [rbind]. unfold Np.set_odds. rewrite fit_same.
  2:{ rewrite odds_put_evens, odds_length, zeros_length, <- odds_length. congruence. }
  cbn [rbind]. rewrite put_interleave; [| congruence | rewrite zeros_length; lia ].
  rewrite EP_grad_Vee_ok by exact HN. cbn [rbind].
  rewrite zip2_same; [reflexivity|].
  rewrite length_map, !interleave_length; [| rewrite !sum_axis0_length; reflexivity | congruence ].
  rewrite sum_axis0_length. unfold EP.gradx_matrix. cbn. congruence.
Qed.

Lemma EP_gradx_entry xi yi eps a k :
  Np.entry (EP.gradx_matrix xi yi eps) a k
  = if (a =? k)%nat then 0
    else -1 * EP.qe ^ 2 / (4 * PI * EP.eps0) * (nth k xi 0 - nth a xi 0)
         / sqrt ((nth k xi 0 - nth a xi 0) ^ 2 + (nth a yi 0 - nth k yi 0) ^ 2) ^ 3.
Proof. unfold EP.gradx_matrix, EP.grad_Vee_Rij. cbn. destruct (a =? k)%nat; reflexivity. Qed.

Lemma EP_grady_entry xi yi eps a k :
  Np.entry (EP.grady_matrix xi yi eps) a k
  = if (a =? k)%nat then 0
    else 1 * EP.qe ^ 2 / (4 * PI * EP.eps0) * (nth a yi 0 - nth k yi 0)
         / sqrt ((nth k xi 0 - nth a xi 0) ^ 2 + (nth a yi 0 - nth k yi 0) ^ 2) ^ 3.
Proof. unfold EP.grady_matrix, EP.grad_Vee_Rij. cbn. destruct (a =? k)%nat; reflexivity. Qed.

Lemma EP_Rij_entry xi yi eps a b :
  Np.entry (EP.Vee_Rij xi yi eps) a b
  = if (a =? b)%nat then eps
    else sqrt ((nth b xi 0 - nth a xi 0) ^ 2 + (nth a yi 0 - nth b yi 0) ^ 2).
Proof. reflexivity. Qed.

Lemma EP_gradx_shape xi yi eps :
  Np.nrows (EP.gradx_matrix xi yi eps) = length yi
  /\ Np.ncols (EP.gradx_matrix xi yi eps) = length xi.
Proof. split; reflexivity. Qed.

Lemma EP_grady_shape xi yi eps :
  Np.nrows (EP.grady_matrix xi yi eps) = length yi
  /\ Np.ncols (EP.grady_matrix xi yi eps) = length xi.
Proof. split; reflexivity. Qed.

(** The components of [grad_total]. *)
Lemma EP_grad_total_nth r g k :
  Nat.Even (length r) -> EP.grad_total s r = Ok g -> (k < length (Np.evens r))%nat ->
  nth (2 * k) g 0
  = EP.interpolator s 1 0 (nth k (Np.evens r) 0) (nth k (Np.odds r) 0)
    + Np.sum_upto (length (Np.evens r)) (fun a =>
        Np.entry (EP.gradx_matrix (Np.evens r) (Np.odds r) EP.grad_Vee_eps) a k) / EP.qe
  /\ nth (2 * k + 1) g 0
  = EP.interpolator s 0 1 (nth k (Np.evens r) 0) (nth k (Np.odds r) 0)
    + Np.sum_upto (length (Np.evens r)) (fun a =>
        Np.entry (EP.grady_matrix (Np.evens r) (Np.odds r) EP.grad_Vee_eps) a k) / EP.qe.
Proof.
  intros He Hg Hk. pose proof (even_halves r He) as HN.
  rewrite EP_grad_total_ok in Hg by exact He. injection Hg as <-.
  set (xi := Np.evens r) in *. set (yi := Np.odds r) in *.
  assert (Hd : length (EP.dVdx s xi yi) = length xi) by (apply length_zip_with_same, HN).
  assert (Hd' : length (EP.dVdy s xi yi) = length xi) by (apply length_zip_with_same, HN).
  assert (Hgx : length (Np.sum_axis0 (EP.gradx_matrix xi yi EP.grad_Vee_eps)) = length xi)
    by (rewrite sum_axis0_length; reflexivity).
  assert (Hgy : length (Np.sum_axis0 (EP.grady_matrix xi yi EP.grad_Vee_eps)) = length xi)
    by (rewrite sum_axis0_length; unfold EP.grady_matrix; cbn; reflexivity).
  assert (L1 : length (interleave (EP.dVdx s xi yi) (EP.dVdy s xi yi)) = (2 * length xi)%nat)
    by (rewrite interleave_length; congruence).
  assert (L2 : length (interleave (Np.sum_axis0 (EP.gradx_matrix xi yi EP.grad_Vee_eps))
                                  (Np.sum_axis0 (EP.grady_matrix xi yi EP.grad_Vee_eps)))
               = (2 * length xi)%nat)
    by (rewrite interleave_length; congruence).
  destruct (nth_interleave (EP.dVdx s xi yi) (EP.dVdy s xi yi) k) as [E1 E2];
    [congruence | lia |].
  destruct (nth_interleave (Np.sum_axis0 (EP.gradx_matrix xi yi EP.grad_Vee_eps))
                           (Np.sum_axis0 (EP.grady_matrix xi yi EP.grad_Vee_eps)) k)
    as [E3 E4]; [congruence | lia |].
  split.
  - rewrite nth_zip_with by (rewrite ?length_map; lia).
    rewrite nth_map_R by lia. rewrite E1, E3.
    unfold EP.dVdx. rewrite nth_zip_with by lia.
    rewrite nth_sum_axis0 by (rewrite (proj2 (EP_gradx_shape _ _ _)); lia).
    rewrite (proj1 (EP_gradx_shape _ _ _)), <- HN. reflexivity.
  - rewrite nth_zip_with by (rewrite ?length_map; lia).
    rewrite nth_map_R by lia. rewrite E2, E4.
    unfold EP.dVdy. rewrite nth_zip_with by lia.
    rewrite nth_sum_axis0 by (rewrite (proj2 (EP_grady_shape _ _ _)); lia).
    rewrite (proj1 (EP_grady_shape _ _ _)), <- HN. reflexivity.
Qed.

End EPGradient.

Section EPMain.

Lemma nth_evens (l : list R) k : nth k (Np.evens l) 0 = nth (2 * k) l 0.
Proof.
  revert k. induction l as [|a|a b l IH] using pairs_ind; intros k.
  - destruct k; reflexivity.
  - destruct k as [|k]; [reflexivity|].
    replace (2 * S k)%nat with (S (S (2 * k))) by lia. destruct k; reflexivity.
  - destruct k as [|k]; [reflexivity|].
    replace (2 * S k)%nat with (S (S (2 * k))) by lia. cbn [Np.evens nth]. apply IH.
Qed.

Lemma nth_odds (l : list R) k : nth k (Np.odds l) 0 = nth (2 * k + 1) l 0.
Proof.
  destruct l as [|a l].
  - destruct k; reflexivity.
  - unfold Np.odds. cbn [tl]. rewrite nth_evens.
    replace (2 * k + 1)%nat with (S (2 * k)) by lia. reflexivity.
Qed.

Lemma EP_energy_ext V N X X' Y Y' :
  (forall i, X i = X' i) -> (forall i, Y i = Y' i) ->
  EP_energy V N X Y = EP_energy V N X' Y'.
Proof.
  intros HX HY. unfold EP_energy. f_equal. f_equal.
  - f_equal. apply sum_upto_ext. intros i _. rewrite HX, HY. reflexivity.
  - apply sum_upto_ext. intros a _. apply sum_upto_ext. intros b _.
    rewrite !HX, !HY. reflexivity.
Qed.

Variable s : EP.self.

Lemma EP_Vtotal_insert_x r k z :
  Nat.Even (length r) -> (k < length (Np.evens r))%nat ->
  EP.Vtotal s (<[(2 * k)%nat := z]> r)
  = EP_energy (EP.interpolator s 0 0) (length (Np.evens r))
      (upd (fun i => nth i (Np.evens r) 0) k z) (fun i => nth i (Np.odds r) 0).
Proof.
  intros He Hk. pose proof (even_halves r He) as HN.
  rewrite EP_Vtotal_sum.
  - rewrite evens_insert_even, odds_insert_even, length_insert.
    apply EP_energy_ext; [|reflexivity].
    intros i. unfold upd. apply nth_insert, Hk.
  - rewrite evens_insert_even, odds_insert_even, length_insert. exact HN.
Qed.

Lemma EP_Vtotal_insert_y r k z :
  Nat.Even (length r) -> (k < length (Np.evens r))%nat ->
  EP.Vtotal s (<[(2 * k + 1)%nat := z]> r)
  = EP_energy (EP.interpolator s 0 0) (length (Np.evens r))
      (fun i => nth i (Np.evens r) 0) (upd (fun i => nth i (Np.odds r) 0) k z).
Proof.
  intros He Hk. pose proof (even_halves r He) as HN.
  rewrite EP_Vtotal_sum.
  - rewrite evens_insert_odd, odds_insert_odd.
    apply EP_energy_ext; [reflexivity|].
    intros i. unfold upd. apply nth_insert. lia.
  - rewrite evens_insert_odd, odds_insert_odd, length_insert. exact HN.
Qed.

Lemma EP_grad_total_derivative r :
  Nat.Even (length r) ->
  (forall k, (k < length (Np.evens r))%nat ->
     let x := nth k (Np.evens r) 0 in
     let y := nth k (Np.odds r) 0 in
     derivable_pt_lim (fun t => EP.interpolator s 0 0 t y) x (EP.interpolator s 1 0 x y)
     /\ derivable_pt_lim (fun t => EP.interpolator s 0 0 x t) y (EP.interpolator s 0 1 x y)) ->
  (forall a b, (a < length (Np.evens r))%nat -> (b < length (Np.evens r))%nat -> a <> b ->
     Np.entry (EP.Vee_Rij (Np.evens r) (Np.odds r) EP.Vee_eps) a b <> 0) ->
  exists g,
    EP.grad_total s r = Ok g /\ length g = length r
    /\ forall k, (k < length (Np.evens r))%nat ->
         derivable_pt_lim (fun t => EP.Vtotal s (<[(2 * k)%nat := t]> r))
                          (nth (2 * k) r 0) (nth (2 * k) g 0)
         /\ derivable_pt_lim (fun t => EP.Vtotal s (<[(2 * k + 1)%nat := t]> r))
                             (nth (2 * k + 1) r 0) (nth (2 * k + 1) g 0).
Proof.
  intros He Hfield Hdist. pose proof (even_halves r He) as HN.
  pose proof (evens_odds_length r) as HL.
  pose proof (EP_grad_total_ok s r He) as Hg.
  eexists. split; [exact Hg|]. split.
  { rewrite length_zip_with_same.
    - rewrite interleave_length; [| unfold EP.dVdx, EP.dVdy; rewrite !length_zip_with_same; congruence].
      unfold EP.dVdx. rewrite length_zip_with_same by exact HN. lia.
    - rewrite length_map, !interleave_length.
      + unfold EP.dVdx. rewrite length_zip_with_same by exact HN.
        rewrite sum_axis0_length. rewrite (proj2 (EP_gradx_shape _ _ _)). reflexivity.
      + rewrite !sum_axis0_length. reflexivity.
      + unfold EP.dVdx, EP.dVdy; rewrite !length_zip_with_same; congruence. }
  intros k Hk.
  destruct (EP_grad_total_nth s r _ k He Hg Hk) as [G1 G2].
  rewrite G1, G2. clear G1 G2 Hg.
  destruct (Hfield k Hk) as [Fx Fy]. cbn zeta in Fx, Fy.
  assert (Hd : forall a, (a < length (Np.evens r))%nat -> a <> k ->
            sqrt ((nth k (Np.evens r) 0 - nth a (Np.evens r) 0) ^ 2
                  + (nth a (Np.odds r) 0 - nth k (Np.odds r) 0) ^ 2) <> 0).
  { intros a Ha Hak. specialize (Hdist a k Ha Hk Hak).
    rewrite EP_Rij_entry in Hdist. destruct (Nat.eqb_spec a k); [contradiction|exact Hdist]. }
  split.
  - apply (derivable_pt_lim_ext
             (fun t => EP_energy (EP.interpolator s 0 0) (length (Np.evens r))
                         (upd (fun i => nth i (Np.evens r) 0) k t)
                         (fun i => nth i (Np.odds r) 0))).
    + intros z. symmetry. apply EP_Vtotal_insert_x; assumption.
    + rewrite <- nth_evens.
      rewrite (sum_upto_ext _ _ _ (fun a _ => EP_gradx_entry (Np.evens r) (Np.odds r) EP.grad_Vee_eps a k)).
      apply (EP_energy_deriv_x (EP.interpolator s 0 0) (length (Np.evens r))
               (fun i => nth i (Np.evens r) 0) (fun i => nth i (Np.odds r) 0) k);
        assumption.
  - apply (derivable_pt_lim_ext
             (fun t => EP_energy (EP.interpolator s 0 0) (length (Np.evens r))
                         (fun i => nth i (Np.evens r) 0)
                         (upd (fun i => nth i (Np.odds r) 0) k t))).
    + intros z. symmetry. apply EP_Vtotal_insert_y; assumption.
    + rewrite <- nth_odds.
      rewrite (sum_upto_ext _ _ _ (fun a _ => EP_grady_entry (Np.evens r) (Np.odds r) EP.grad_Vee_eps a k)).
      apply (EP_energy_deriv_y (EP.interpolator s 0 0) (length (Np.evens r))
               (fun i => nth i (Np.evens r) 0) (fun i => nth i (Np.odds r) 0) k);
        assumption.
Qed.

End EPMain.

(** ** Division and floating-point errors *)

Section Division.

Lemma Reqb_true a b : Np.Reqb a b = true <-> a = b.
Proof. unfold Np.Reqb. destruct (Req_dec_T a b); split; intros; congruence. Qed.

Lemma Reqb_false a b : Np.Reqb a b = false <-> a <> b.
Proof. unfold Np.Reqb. destruct (Req_dec_T a b); split; intros; congruence. Qed.

Lemma any_false M p :
  (forall a b, (a < Np.nrows M)%nat -> (b < Np.ncols M)%nat -> p a b = false) ->
  Np.any M p = false.
Proof.
  intros H. unfold Np.any.
  destruct (existsb _ _) eqn:E; [|reflexivity].
  apply existsb_exists in E as (a & Ha & E).
  apply existsb_exists in E as (b & Hb & E).
  apply in_seq in Ha, Hb. rewrite H in E by lia. discriminate.
Qed.

Lemma any_true M p a b :
  (a < Np.nrows M)%nat -> (b < Np.ncols M)%nat -> p a b = true -> Np.any M p = true.
Proof.
  intros Ha Hb H. unfold Np.any. apply existsb_exists.
  exists a. split; [apply in_seq; lia|].
  apply existsb_exists. exists b. split; [apply in_seq; lia|exact H].
Qed.

(** A division raises no error when no divisor inside the shape is zero. *)
Lemma true_divide_no_error N D :
  (forall a b, (a < Np.nrows N)%nat -> (b < Np.ncols N)%nat -> Np.entry D a b <> 0) ->
  snd (Np.true_divide N D) = [].
Proof.
  intros H. unfold Np.true_divide. cbn [snd].
  rewrite !any_false; [reflexivity| |];
    intros a b Ha Hb; pose proof (H a b Ha Hb) as Hab; apply Reqb_false in Hab;
    rewrite Hab; reflexivity.
Qed.

(** A nonzero number divided by zero raises [DivideByZero]. *)
Lemma true_divide_by_zero N D a b :
  (a < Np.nrows N)%nat -> (b < Np.ncols N)%nat ->
  Np.entry D a b = 0 -> Np.entry N a b <> 0 ->
  In Np.DivideByZero (snd (Np.true_divide N D)).
Proof.
  intros Ha Hb HD HN. unfold Np.true_divide. cbn [snd].
  rewrite (any_true (Np.mzip Rdiv N D) _ a b Ha Hb); [now left|].
  apply Reqb_true in HD. apply Reqb_false in HN. now rewrite HD, HN.
Qed.

(** Zero divided by zero raises [InvalidValue]. *)
Lemma true_divide_invalid N D a b :
  (a < Np.nrows N)%nat -> (b < Np.ncols N)%nat ->
  Np.entry D a b = 0 -> Np.entry N a b = 0 ->
  In Np.InvalidValue (snd (Np.true_divide N D)).
Proof.
  intros Ha Hb HD HN. unfold Np.true_divide. cbn [snd].
  apply in_or_app. right.
  rewrite (any_true (Np.mzip Rdiv N D) _ a b Ha Hb); [now left|].
  apply Reqb_true in HD, HN. now rewrite HD, HN.
Qed.

End Division.

(** ** The diagonal of the interaction matrix *)

Section Diagonal.

Lemma EP_Vee_entry xi yi eps a b :
  Np.entry (EP.Vee xi yi eps) a b
  = 1 / 2 * EP.qe ^ 2 / (4 * PI * EP.eps0) * 1 / Np.entry (EP.Vee_Rij xi yi eps) a b.
Proof. reflexivity. Qed.

Lemma sum_fill_diagonal_0 M : Np.sum (Np.fill_diagonal M 0) = sum_offdiag M.
Proof. reflexivity. Qed.

Lemma EP_offdiag_eps xi yi eps eps' :
  sum_offdiag (EP.Vee xi yi eps) = sum_offdiag (EP.Vee xi yi eps').
Proof.
  unfold sum_offdiag. apply sum_upto_ext. intros a _. apply sum_upto_ext. intros b _.
  rewrite !EP_Vee_entry, !EP_Rij_entry. destruct (a =? b)%nat; reflexivity.
Qed.

Lemma half_k_qe2_nonzero : 1 / 2 * EP.qe ^ 2 / (4 * PI * EP.eps0) * 1 <> 0.
Proof.
  pose proof qe_pos as Hq. pose proof four_pi_eps0_pos as Hp.
  apply Rgt_not_eq. rewrite Rmult_1_r.
  apply Rdiv_lt_0_compat; [|exact Hp].
  apply Rmult_lt_0_compat; [lra|]. apply pow_lt. exact Hq.
Qed.

(** The errors of [Vee]: none when [eps] and the distances between
    different charges are nonzero. *)
Lemma EP_Vee_no_error xi yi eps :
  eps <> 0 ->
  (forall a b, (a < length yi)%nat -> (b < length xi)%nat -> a <> b ->
     sqrt ((nth b xi 0 - nth a xi 0) ^ 2 + (nth a yi 0 - nth b yi 0) ^ 2) <> 0) ->
  EP.Vee_errors xi yi eps = [].
Proof.
  intros He Hd. unfold EP.Vee_errors, EP.Vee_division.
  apply true_divide_no_error. intros a b Ha Hb.
  rewrite EP_Rij_entry. destruct (Nat.eqb_spec a b); [exact He|].
  apply Hd; assumption.
Qed.

(** The errors of [grad_Vee]: none under the same conditions. *)
Lemma EP_grad_Vee_no_error xi yi eps :
  eps <> 0 ->
  (forall a b, (a < length yi)%nat -> (b < length xi)%nat -> a <> b ->
     sqrt ((nth b xi 0 - nth a xi 0) ^ 2 + (nth a yi 0 - nth b yi 0) ^ 2) <> 0) ->
  EP.grad_Vee_errors xi yi eps = [].
Proof.
  intros He Hd. unfold EP.grad_Vee_errors, EP.gradx_division, EP.grady_division.
  cbv zeta. cbn [Np.meshgrid].
  rewrite !true_divide_no_error; [reflexivity| |];
    intros a b Ha Hb; cbn [Np.mmap Np.entry]; apply pow_nonzero;
    rewrite EP_Rij_entry; (destruct (Nat.eqb_spec a b); [exact He|]);
    apply Hd; assumption.
Qed.

(** Without the substitution ([eps = 0]) the self-distance is divided by. *)
Lemma EP_Vee_error_0 xi yi :
  xi <> [] -> yi <> [] -> In Np.DivideByZero (EP.Vee_errors xi yi 0).
Proof.
  intros Hx Hy. unfold EP.Vee_errors, EP.Vee_division.
  apply (true_divide_by_zero _ _ 0%nat 0%nat).
  - destruct yi; [congruence|cbn; lia].
  - destruct xi; [congruence|cbn; lia].
  - reflexivity.
  - apply half_k_qe2_nonzero.
Qed.

Lemma EP_grad_Vee_error_0 xi yi :
  xi <> [] -> yi <> [] -> In Np.InvalidValue (EP.grad_Vee_errors xi yi 0).
Proof.
  intros Hx Hy. unfold EP.grad_Vee_errors, EP.gradx_division.
  cbv zeta. cbn [Np.meshgrid]. apply in_or_app. left.
  apply (true_divide_invalid _ _ 0%nat 0%nat).
  - destruct yi; [congruence|cbn; lia].
  - destruct xi; [congruence|cbn; lia].
  - cbn. ring.
  - cbn. ring.
Qed.

Lemma EP_sum_axis0_gradx_eps xi yi eps eps' :
  Np.sum_axis0 (EP.gradx_matrix xi yi eps) = Np.sum_axis0 (EP.gradx_matrix xi yi eps').
Proof.
  unfold Np.sum_axis0. apply map_ext. intros b.
  apply sum_upto_ext. intros a _. now rewrite !EP_gradx_entry.
Qed.

Lemma EP_sum_axis0_grady_eps xi yi eps eps' :
  Np.sum_axis0 (EP.grady_matrix xi yi eps) = Np.sum_axis0 (EP.grady_matrix xi yi eps').
Proof.
  unfold Np.sum_axis0. apply map_ext. intros b.
  apply sum_upto_ext. intros a _. now rewrite !EP_grady_entry.
Qed.

(** C8.  For an even-length position vector [r], the pair contribution that
    [Vtotal] sums is the sum of the off-diagonal entries of the [Vee] matrix
    only; it, and so [Vtotal], is the same whatever placeholder [eps] is put
    on the diagonal.  [Vee] divides by [eps] on the diagonal and by the
    distance elsewhere.  [grad_Vee] has the same default [eps]; what it
    returns is, for each charge, the sum of the terms of the other charges
    alone, whatever [eps] is.  The substitution comes before the divisions
    in both: with a nonzero [eps] and charges at different places the
    evaluation of [Vee], of [Vtotal] and of [grad_Vee] raises no
    floating-point error, whereas with [eps = 0], that is without the
    substitution, [Vee] divides by zero and [grad_Vee] divides zero by
    zero. *)
Theorem Vtotal_ignores_diagonal (s : EP.self) (r : list R) (eps eps' : R)
    (Heven : Nat.Even (length r)) :
  let xi := Np.evens r in
  let yi := Np.odds r in
  let N := length xi in
  let dist a b :=
    sqrt ((nth b xi 0 - nth a xi 0) ^ 2 + (nth a yi 0 - nth b yi 0) ^ 2) in
  Np.sum (Np.fill_diagonal (EP.Vee xi yi eps) 0) = sum_offdiag (EP.Vee xi yi eps)
  /\ sum_offdiag (EP.Vee xi yi eps) = sum_offdiag (EP.Vee xi yi eps')
  /\ EP.Vtotal s r
     = (EP.Velectrostatic s xi yi + sum_offdiag (EP.Vee xi yi eps)) / EP.qe
  /\ (forall a b,
        Np.entry (EP.Vee xi yi eps) a b
        = 1 / 2 * EP.qe ^ 2 / (4 * PI * EP.eps0) * 1
          / (if (a =? b)%nat then eps else dist a b))
  /\ EP.Vee_eps = EP.grad_Vee_eps
  /\ (exists g,
        EP.grad_Vee xi yi eps = Ok g
        /\ EP.grad_Vee xi yi eps' = Ok g
        /\ length g = (2 * N)%nat
        /\ forall k, (k < N)%nat ->
             nth (2 * k) g 0
             = Np.sum_upto N (fun a =>
                 if (a =? k)%nat then 0
                 else -1 * EP.qe ^ 2 / (4 * PI * EP.eps0)
                      * (nth k xi 0 - nth a xi 0) / dist a k ^ 3)
             /\ nth (2 * k + 1) g 0
                = Np.sum_upto N (fun a =>
                    if (a =? k)%nat then 0
                    else 1 * EP.qe ^ 2 / (4 * PI * EP.eps0)
                         * (nth a yi 0 - nth k yi 0) / dist a k ^ 3))
  /\ (eps <> 0 ->
      (forall a b, (a < N)%nat -> (b < N)%nat -> a <> b -> dist a b <> 0) ->
      EP.Vee_errors xi yi eps = [] /\ EP.grad_Vee_errors xi yi eps = [])
  /\ ((forall a b, (a < N)%nat -> (b < N)%nat -> a <> b -> dist a b <> 0) ->
      EP.Vtotal_errors r = [])
  /\ (r <> [] ->
      In Np.DivideByZero (EP.Vee_errors xi yi 0)
      /\ In Np.InvalidValue (EP.grad_Vee_errors xi yi 0)).
Proof.
  intros xi yi N dist.
  pose proof (even_halves r Heven) as Hlen. fold xi yi in Hlen.
  split; [apply sum_fill_diagonal_0|].
  split; [apply EP_offdiag_eps|].
  split.
  { unfold EP.Vtotal. fold xi yi. cbv zeta. rewrite sum_fill_diagonal_0.
    rewrite (EP_offdiag_eps xi yi EP.Vee_eps eps). reflexivity. }
  split.
  { intros a b. rewrite EP_Vee_entry, EP_Rij_entry. reflexivity. }
  split; [reflexivity|].
  split.
  { exists (interleave (Np.sum_axis0 (EP.gradx_matrix xi yi eps))
                       (Np.sum_axis0 (EP.grady_matrix xi yi eps))).
    split; [apply EP_grad_Vee_ok, Hlen|].
    split.
    { rewrite (EP_grad_Vee_ok xi yi eps' Hlen).
      now rewrite (EP_sum_axis0_gradx_eps xi yi eps eps'),
                  (EP_sum_axis0_grady_eps xi yi eps eps'). }
    assert (Hlx : length (Np.sum_axis0 (EP.gradx_matrix xi yi eps)) = N)
      by (rewrite sum_axis0_length; apply (proj2 (EP_gradx_shape xi yi eps))).
    assert (Hly : length (Np.sum_axis0 (EP.grady_matrix xi yi eps)) = N)
      by (rewrite sum_axis0_length; apply (proj2 (EP_grady_shape xi yi eps))).
    split.
    { rewrite interleave_length by congruence. rewrite Hlx. reflexivity. }
    intros k Hk.
    destruct (nth_interleave (Np.sum_axis0 (EP.gradx_matrix xi yi eps))
                (Np.sum_axis0 (EP.grady_matrix xi yi eps)) k) as [Hx Hy];
      [congruence|lia|].
    rewrite Hx, Hy.
    rewrite !nth_sum_axis0
      by (first [rewrite (proj2 (EP_gradx_shape xi yi eps))
                |rewrite (proj2 (EP_grady_shape xi yi eps))]; exact Hk).
    rewrite (proj1 (EP_gradx_shape xi yi eps)), (proj1 (EP_grady_shape xi yi eps)).
    rewrite <- Hlen. fold N.
    split; apply sum_upto_ext; intros a _;
      [rewrite EP_gradx_entry|rewrite EP_grady_entry]; reflexivity. }
  split.
  { intros He Hd. split.
    - apply EP_Vee_no_error; [exact He|]. intros a b Ha Hb. apply Hd; lia.
    - apply EP_grad_Vee_no_error; [exact He|]. intros a b Ha Hb. apply Hd; lia. }
  split.
  { intros Hd. unfold EP.Vtotal_errors. fold xi yi. cbv zeta.
    apply EP_Vee_no_error; [unfold EP.Vee_eps; lra|].
    intros a b Ha Hb. apply Hd; lia. }
  intros Hr.
  assert (Hx : xi <> []).
  { unfold xi. destruct r as [|x r']; [congruence|]. discriminate. }
  assert (Hy : yi <> []).
  { intros E. rewrite E in Hlen. destruct xi; [congruence|discriminate]. }
  split; [now apply EP_Vee_error_0|now apply EP_grad_Vee_error_0].
Qed.

Lemma Vtotal_ignores_diagonal_witness :
  Nat.Even (length [0; 0; 1; 0])
  /\ sum_offdiag (EP.Vee (Np.evens [0; 0; 1; 0]) (Np.odds [0; 0; 1; 0]) 1)
     = sum_offdiag (EP.Vee (Np.evens [0; 0; 1; 0]) (Np.odds [0; 0; 1; 0]) 2)
  /\ In Np.InvalidValue
        (EP.grad_Vee_errors (Np.evens [0; 0; 1; 0]) (Np.odds [0; 0; 1; 0]) 0).
Proof.
  assert (H : Nat.Even (length [0; 0; 1; 0])) by (exists 2%nat; reflexivity).
  split; [exact H|].
  pose proof (Vtotal_ignores_diagonal zero_field [0; 0; 1; 0] 1 2 H) as T.
  cbv zeta in T.
  destruct T as (_ & T2 & _ & _ & _ & _ & _ & _ & T9).
  split; [exact T2|]. apply T9. discriminate.
Defined.

End Diagonal.

(** ** A single charge *)

Section SingleCharge.

Lemma Vee_eps_pos : 0 < EP.Vee_eps.
Proof. unfold EP.Vee_eps. lra. Qed.

Lemma grad_Vee_eps_pos : 0 < EP.grad_Vee_eps.
Proof. unfold EP.grad_Vee_eps. lra. Qed.

(** The errors of a division of two one-by-one arrays. *)
Lemma true_divide_1x1 N D :
  Np.nrows N = 1%nat -> Np.ncols N = 1%nat ->
  snd (Np.true_divide N D)
  = (if Np.Reqb (Np.entry D 0 0) 0 && negb (Np.Reqb (Np.entry N 0 0) 0)
     then [Np.DivideByZero] else [])
    ++ (if Np.Reqb (Np.entry D 0 0) 0 && Np.Reqb (Np.entry N 0 0) 0
        then [Np.InvalidValue] else []).
Proof.
  intros Hr Hc. unfold Np.true_divide, Np.any. cbn [snd Np.mzip Np.nrows Np.ncols].
  rewrite Hr, Hc. cbn [seq existsb]. rewrite !orb_false_r. reflexivity.
Qed.

(** C9.  With one charge at [(x, y)] the pair contribution to [Vtotal] is
    zero (so [Vtotal] is the field value alone) and both components of
    [grad_Vee] are zero.  No division by zero occurs in their evaluation:
    [Vtotal], [Vee] and [grad_Vee] raise no floating-point error, because
    the one entry of the distance matrix is [eps] when it is divided by
    (the entry of [Vee] is the constant over [eps]); with [eps = 0], that
    is with the zero self-distance left in place, [Vee] would divide by
    zero and each of the two divisions of [grad_Vee] zero by zero. *)
Theorem single_charge_no_interaction (s : EP.self) (x y : R) :
  Np.sum (Np.fill_diagonal (EP.Vee (Np.evens [x; y]) (Np.odds [x; y]) EP.Vee_eps) 0) = 0
  /\ EP.Vtotal s [x; y] = EP.interpolator s 0 0 x y
  /\ EP.grad_Vee [x] [y] EP.grad_Vee_eps = Ok [0; 0]
  /\ EP.Vtotal_errors [x; y] = []
  /\ EP.Vee_errors [x] [y] EP.Vee_eps = []
  /\ EP.grad_Vee_errors [x] [y] EP.grad_Vee_eps = []
  /\ Np.entry (EP.Vee [x] [y] EP.Vee_eps) 0 0
     = 1 / 2 * EP.qe ^ 2 / (4 * PI * EP.eps0) * 1 / EP.Vee_eps
  /\ EP.Vee_errors [x] [y] 0 = [Np.DivideByZero]
  /\ EP.grad_Vee_errors [x] [y] 0 = [Np.InvalidValue; Np.InvalidValue].
Proof.
  pose proof Vee_eps_pos as He. pose proof grad_Vee_eps_pos as Hg.
  pose proof qe_pos as Hq. pose proof four_pi_eps0_pos as Hp.
  assert (Hone : forall a b : nat, (a < 1)%nat -> (b < 1)%nat -> a <> b ->
            sqrt ((nth b [x] 0 - nth a [x] 0) ^ 2 + (nth a [y] 0 - nth b [y] 0) ^ 2) <> 0)
    by (intros a b Ha Hb Hab; lia).
  split; [cbn; ring|].
  split.
  { unfold EP.Vtotal, EP.Velectrostatic, EP.V. cbn. field. lra. }
  split.
  { rewrite EP_grad_Vee_ok by reflexivity. cbn. repeat f_equal; ring. }
  split.
  { unfold EP.Vtotal_errors. cbn [Np.evens Np.odds tl].
    apply EP_Vee_no_error; [lra|exact Hone]. }
  split; [apply EP_Vee_no_error; [lra|exact Hone]|].
  split; [apply EP_grad_Vee_no_error; [lra|exact Hone]|].
  split; [reflexivity|].
  assert (H0 : Np.Reqb 0 0 = true) by (now apply Reqb_true).
  assert (H03 : Np.Reqb (0 ^ 3) 0 = true) by (apply Reqb_true; ring).
  split.
  { unfold EP.Vee_errors, EP.Vee_division.
    rewrite true_divide_1x1 by reflexivity.
    cbn [Np.mmap Np.entry]. rewrite EP_Rij_entry. cbn [Nat.eqb].
    rewrite H0. pose proof half_k_qe2_nonzero as Hc. apply Reqb_false in Hc.
    rewrite Hc. reflexivity. }
  unfold EP.grad_Vee_errors, EP.gradx_division, EP.grady_division.
  cbv zeta. cbn [Np.meshgrid].
  rewrite !true_divide_1x1 by reflexivity.
  cbn [Np.mmap Np.mzip Np.transpose Np.entry nth]. rewrite EP_Rij_entry. cbn [Nat.eqb].
  assert (Hx : Np.Reqb (-1 * EP.qe ^ 2 / (4 * PI * EP.eps0) * (x - x)) 0 = true)
    by (apply Reqb_true; ring).
  assert (Hy : Np.Reqb (1 * EP.qe ^ 2 / (4 * PI * EP.eps0) * (y - y)) 0 = true)
    by (apply Reqb_true; ring).
  rewrite H03, Hx, Hy. reflexivity.
Qed.

End SingleCharge.

(** ** Two charges one micrometre apart in zero field *)

Section TwoCharges.

Lemma sqrt_sq_1e6 : sqrt ((1e-6 - 0) ^ 2 + (0 - 0) ^ 2) = 1e-6.
Proof.
  replace ((1e-6 - 0) ^ 2 + (0 - 0) ^ 2) with (1e-6 * 1e-6) by lra.
  apply sqrt_square. lra.
Qed.

Lemma sqrt_sq_1e6' : sqrt ((0 - 1e-6) ^ 2 + (0 - 0) ^ 2) = 1e-6.
Proof.
  replace ((0 - 1e-6) ^ 2 + (0 - 0) ^ 2) with (1e-6 * 1e-6) by lra.
  apply sqrt_square. lra.
Qed.

Lemma two_charges_energy :
  EP.Vtotal zero_field [0; 0; 1e-6; 0] = coulomb_k * EP.qe / 1e-6.
Proof.
  pose proof qe_pos as Hq. pose proof eps0_pos as He. pose proof PI_RGT_0 as Hpi.
  unfold EP.Vtotal, EP.Velectrostatic, EP.V, EP.Vee, EP.Vee_division, Np.true_divide,
    EP.Vee_Rij.
  cbn [Np.evens Np.odds tl Np.meshgrid Np.transpose Np.mmap Np.mzip Np.fill_diagonal
       Np.sum Np.sum_upto Np.nrows Np.ncols Np.entry length Nat.eqb nth zip_with
       Np.sum1 fold_right zero_field EP.interpolator fst].
  rewrite sqrt_sq_1e6, sqrt_sq_1e6'. unfold coulomb_k. field. lra.
Qed.

(** The energy the claim names is half the one computed. *)
Lemma two_charges_energy_not_half :
  EP.Vtotal zero_field [0; 0; 1e-6; 0] <> coulomb_k * EP.qe / (2 * 1e-6).
Proof.
  rewrite two_charges_energy.
  pose proof qe_pos as Hq. pose proof four_pi_eps0_pos as Hp.
  assert (Hk : 0 < coulomb_k * EP.qe).
  { unfold coulomb_k. apply Rmult_lt_0_compat; [|exact Hq].
    apply Rdiv_lt_0_compat; lra. }
  intros H.
  assert (E : coulomb_k * EP.qe / 1e-6 = 2 * (coulomb_k * EP.qe / (2 * 1e-6))) by (field; lra).
  rewrite <- H in E.
  assert (0 < coulomb_k * EP.qe / 1e-6) by (apply Rdiv_lt_0_compat; lra).
  lra.
Qed.

(** C5 (as the code computes it).  Two charges at [(0,0)] and [(1e-6,0)] in
    zero field: [Vtotal] is [k*qe/1e-6] (both off-diagonal halves are
    summed), and [grad_total] is [[g; 0; -g; 0]] with [g = k*qe/(1e-6)^2 > 0]:
    equal and opposite x-components, zero y-components, and the descent
    direction [-grad] moves the charges apart. *)
Theorem two_charges_scenario :
  EP.Vtotal zero_field [0; 0; 1e-6; 0] = coulomb_k * EP.qe / 1e-6
  /\ exists g,
       EP.grad_total zero_field [0; 0; 1e-6; 0] = Ok [g; 0; - g; 0]
       /\ g = coulomb_k * EP.qe / (1e-6) ^ 2
       /\ 0 < g.
Proof.
  split; [exact two_charges_energy|].
  pose proof qe_pos as Hq. pose proof eps0_pos as He. pose proof PI_RGT_0 as Hpi.
  pose proof four_pi_eps0_pos as Hp.
  exists (coulomb_k * EP.qe / (1e-6) ^ 2).
  split; [|split; [reflexivity|]].
  - rewrite EP_grad_total_ok by (exists 2%nat; reflexivity).
    unfold EP.dVdx, EP.dVdy, EP.gradx_matrix, EP.grady_matrix, EP.gradx_division,
      EP.grady_division, Np.true_divide, EP.grad_Vee_Rij, Np.sum_axis0.
    cbn [Np.evens Np.odds tl Np.meshgrid Np.transpose Np.mmap Np.mzip Np.fill_diagonal
         Np.sum Np.sum_upto Np.nrows Np.ncols Np.entry length Nat.eqb nth zip_with
         map seq interleave zero_field EP.interpolator fst].
    rewrite sqrt_sq_1e6, sqrt_sq_1e6'. unfold coulomb_k.
    repeat f_equal; field; lra.
  - unfold coulomb_k. apply Rdiv_lt_0_compat; [|lra].
    apply Rmult_lt_0_compat; [|exact Hq]. apply Rdiv_lt_0_compat; lra.
Qed.

End TwoCharges.

(** ** The periodic minimum-image rule *)

Section MinimumImage.

Lemma Rabs_le_between a b : Rabs a <= b -> - b <= a <= b.
Proof. unfold Rabs. destruct (Rcase_abs a); lra. Qed.

Lemma Rabs_lt_between a b : Rabs a < b -> - b < a < b.
Proof. unfold Rabs. destruct (Rcase_abs a); lra. Qed.

Variable L : R.
Hypothesis HL : 0 < L.

Lemma remainder_spec x m :
  0 < m ->
  0 <= Np.remainder x m < m /\ exists n : Z, Np.remainder x m = x - IZR n * m.
Proof.
  intros Hm. unfold Np.remainder.
  destruct (base_Int_part (x / m)) as [H1 H2].
  set (n := Int_part (x / m)) in *.
  assert (E : x = x / m * m) by (field; lra).
  split.
  - split.
    + assert (IZR n * m <= x / m * m) by (apply Rmult_le_compat_r; lra). lra.
    + assert (x / m * m < (IZR n + 1) * m)
        by (apply Rmult_lt_compat_r; lra). lra.
  - exists n. ring.
Qed.

Lemma remainder_small x m : 0 <= x < m -> Np.remainder x m = x.
Proof.
  intros [H0 H1]. unfold Np.remainder.
  assert (Hm : 0 < m) by lra.
  replace (Int_part (x / m)) with 0%Z; [ring|].
  apply Int_part_spec. split.
  - assert (x / m < 1); [|simpl; lra].
    apply (Rmult_lt_reg_r m); [exact Hm|]. replace (x / m * m) with x by (field; lra). lra.
  - simpl. apply Rmult_le_reg_r with m; [exact Hm|].
    replace (x / m * m) with x by (field; lra). lra.
Qed.

Lemma wrap_spec v :
  - L / 2 <= wrap L v < L / 2 /\ exists n : Z, wrap L v = v - IZR n * L.
Proof.
  unfold wrap. replace (L / 2 - - L / 2) with L by field.
  destruct (remainder_spec (v - - L / 2) L HL) as [[H1 H2] [n Hn]].
  split; [lra|]. exists n. rewrite Hn. lra.
Qed.

Lemma wrap_in_domain v : - L / 2 <= v < L / 2 -> wrap L v = v.
Proof.
  intros H. unfold wrap. replace (L / 2 - - L / 2) with L by field.
  rewrite remainder_small by lra. lra.
Qed.

Lemma Rmin_sqrt_l p q : p <= q -> Rmin (sqrt p) (sqrt q) = sqrt p.
Proof. intros H. apply Rmin_left, sqrt_le_1_alt, H. Qed.

Lemma Rmin_sqrt_r p q : q <= p -> Rmin (sqrt p) (sqrt q) = sqrt q.
Proof. intros H. apply Rmin_right, sqrt_le_1_alt, H. Qed.

Lemma small_multiple (n : Z) (d e : R) :
  Rabs d < L -> Rabs e <= L / 2 -> e = d + IZR n * L ->
  n = (-1)%Z \/ n = 0%Z \/ n = 1%Z.
Proof.
  intros Hd He E.
  apply Rabs_lt_between in Hd. assert (He' := Rabs_le_between _ _ He).
  assert (H1 : IZR n < IZR 2).
  { apply (Rmult_lt_reg_r L); [exact HL|]. lra. }
  assert (H2 : IZR (-2) < IZR n).
  { apply (Rmult_lt_reg_r L); [exact HL|]. lra. }
  apply lt_IZR in H1, H2. lia.
Qed.

(** The entry of [calculate_Rij] is the distance for any representative of
    the y-difference modulo [L] that is at most [L/2] in absolute value. *)
Lemma min_image_rep dx u w e :
  - L / 2 <= u < L / 2 -> - L / 2 <= w < L / 2 ->
  Rabs e <= L / 2 -> (exists n : Z, e = u - w + IZR n * L) ->
  min_image L dx u w = sqrt (dx ^ 2 + e ^ 2).
Proof.
  intros Hu Hw He [n En]. assert (He' := Rabs_le_between _ _ He).
  assert (Hd : Rabs (u - w) < L) by (apply Rabs_def1; lra).
  destruct (small_multiple n (u - w) e Hd He En) as [-> | [-> | ->]];
    unfold min_image, shifted;
    destruct (Rlt_dec 0 u) as [Pu|Nu]; destruct (Rlt_dec 0 w) as [Pw|Nw];
    subst e; simpl in He';
    first
      [ (* both candidates coincide with the representative *)
        rewrite Rmin_sqrt_l by nra; f_equal; nra
      | rewrite Rmin_sqrt_r by nra; f_equal; nra ].
Qed.

(** What [calculate_YiYj] selects is such a representative, and
    [calculate_Rij] is the distance it gives. *)
Lemma eff_dy_rep dx u w :
  - L / 2 <= u < L / 2 -> - L / 2 <= w < L / 2 ->
  Rabs (eff_dy L dx u w) <= L / 2
  /\ (exists n : Z, eff_dy L dx u w = u - w + IZR n * L)
  /\ (Rabs (u - w) <> L / 2 -> Rabs (eff_dy L dx u w) < L / 2).
Proof.
  intros Hu Hw. unfold eff_dy.
  destruct (Rlt_dec _ _) as [Hlt|Hge].
  - apply sqrt_lt_0_alt in Hlt.
    unfold shifted in *.
    destruct (Rlt_dec 0 u) as [Pu|Nu]; destruct (Rlt_dec 0 w) as [Pw|Nw];
      try (exfalso; lra).
    + assert (L / 2 < u - w) by nra.
      split; [apply Rabs_le; lra|]. split; [exists (-1)%Z; simpl; lra|].
      intros _. apply Rabs_def1; lra.
    + assert (u - w < - (L / 2)) by nra.
      split; [apply Rabs_le; lra|]. split; [exists 1%Z; simpl; lra|].
      intros _. apply Rabs_def1; lra.
  - assert (Hle : (u - w) ^ 2 <= (shifted L u - shifted L w) ^ 2).
    { destruct (Rle_or_lt ((u - w) ^ 2) ((shifted L u - shifted L w) ^ 2)) as [|Hc];
        [assumption|].
      exfalso. apply Hge. apply sqrt_lt_1_alt.
      pose proof (pow2_ge_0 dx). pose proof (pow2_ge_0 (shifted L u - shifted L w)).
      split; lra. }
    unfold shifted in Hle.
    destruct (Rlt_dec 0 u) as [Pu|Nu]; destruct (Rlt_dec 0 w) as [Pw|Nw].
    + split; [apply Rabs_le; lra|]. split; [exists 0%Z; simpl; lra|].
      intros _. apply Rabs_def1; lra.
    + assert (u - w <= L / 2) by nra.
      split; [apply Rabs_le; lra|]. split; [exists 0%Z; simpl; lra|].
      intros Hk. assert (u - w <> L / 2).
      { intros E. apply Hk. rewrite E. apply Rabs_pos_eq. lra. }
      apply Rabs_def1; lra.
    + assert (- (L / 2) <= u - w) by nra.
      split; [apply Rabs_le; lra|]. split; [exists 0%Z; simpl; lra|].
      intros Hk. assert (u - w <> - (L / 2)).
      { intros E. apply Hk. rewrite E, Rabs_Ropp. apply Rabs_pos_eq. lra. }
      apply Rabs_def1; lra.
    + split; [apply Rabs_le; lra|]. split; [exists 0%Z; simpl; lra|].
      intros Hk.
      assert (u - w <> L / 2).
      { intros E. apply Hk. rewrite E. apply Rabs_pos_eq. lra. }
      assert (u - w <> - (L / 2)).
      { intros E. apply Hk. rewrite E, Rabs_Ropp. apply Rabs_pos_eq. lra. }
      apply Rabs_def1; lra.
Qed.

Lemma min_image_eff dx dx' u w :
  - L / 2 <= u < L / 2 -> - L / 2 <= w < L / 2 ->
  min_image L dx' u w = sqrt (dx' ^ 2 + eff_dy L dx u w ^ 2).
Proof.
  intros Hu Hw. destruct (eff_dy_rep dx u w Hu Hw) as (H1 & H2 & _).
  apply min_image_rep; assumption.
Qed.

Lemma eff_dy_antisym dx dx' u w :
  dx' ^ 2 = dx ^ 2 -> eff_dy L dx' w u = - eff_dy L dx u w.
Proof.
  intros E. unfold eff_dy. rewrite E.
  replace ((shifted L w - shifted L u) ^ 2) with ((shifted L u - shifted L w) ^ 2) by ring.
  replace ((w - u) ^ 2) with ((u - w) ^ 2) by ring.
  destruct (Rlt_dec _ _); ring.
Qed.

Lemma min_image_sym dx dx' u w :
  dx' ^ 2 = dx ^ 2 -> min_image L dx' w u = min_image L dx u w.
Proof.
  intros E. unfold min_image. rewrite E.
  replace ((shifted L w - shifted L u) ^ 2) with ((shifted L u - shifted L w) ^ 2) by ring.
  replace ((w - u) ^ 2) with ((u - w) ^ 2) by ring.
  reflexivity.
Qed.

End MinimumImage.

Section PeriodicDistance.

Lemma RS_Rij_entry s xi yi a b :
  Np.entry (RS.calculate_Rij s xi yi) a b
  = min_image (RS.box_y_length s) (nth b xi 0 - nth a xi 0) (nth a yi 0) (nth b yi 0).
Proof. reflexivity. Qed.

Lemma RS_YiYj_entry s xi yi a b :
  Np.entry (RS.calculate_YiYj s xi yi) a b
  = eff_dy (RS.box_y_length s) (nth b xi 0 - nth a xi 0) (nth a yi 0) (nth b yi 0).
Proof. reflexivity. Qed.

(** C4.  Two charges [a] and [b] whose y-coordinates lie in
    [[-L/2, L/2)] and differ by more than [L/2]: the entry of
    [calculate_Rij] for the pair is the wrapped separation
    [sqrt (dx^2 + (L - |dy|)^2)], strictly less than the direct one. *)
Theorem periodic_minimum_image (s : RS.self) (xi yi : list R) (a b : nat)
    (Hlen : length xi = length yi)
    (Ha : (a < length xi)%nat) (Hb : (b < length xi)%nat)
    (Hya : - RS.box_y_length s / 2 <= nth a yi 0 < RS.box_y_length s / 2)
    (Hyb : - RS.box_y_length s / 2 <= nth b yi 0 < RS.box_y_length s / 2)
    (Hfar : RS.box_y_length s / 2 < Rabs (nth a yi 0 - nth b yi 0)) :
  let L := RS.box_y_length s in
  let dx := nth a xi 0 - nth b xi 0 in
  let dy := nth a yi 0 - nth b yi 0 in
  a <> b
  /\ Np.entry (RS.calculate_Rij s xi yi) a b = sqrt (dx ^ 2 + (L - Rabs dy) ^ 2)
  /\ Np.entry (RS.calculate_Rij s xi yi) a b < sqrt (dx ^ 2 + dy ^ 2).
Proof.
  intros L dx dy. fold L in Hya, Hyb, Hfar. fold dy in Hfar.
  assert (HL : 0 < L) by lra.
  assert (Hab : a <> b).
  { intros ->. unfold dy in Hfar. rewrite Rminus_diag, Rabs_R0 in Hfar. lra. }
  split; [exact Hab|].
  assert (Hdy : Rabs dy < L) by (apply Rabs_def1; unfold dy; lra).
  assert (E : Np.entry (RS.calculate_Rij s xi yi) a b = sqrt (dx ^ 2 + (L - Rabs dy) ^ 2)).
  { rewrite RS_Rij_entry. fold L.
    replace (dx ^ 2) with ((nth b xi 0 - nth a xi 0) ^ 2) by (unfold dx; ring).
    unfold Rabs in *. fold dy. destruct (Rcase_abs dy) as [Neg|Pos].
    - replace ((L - - dy) ^ 2) with ((dy + L) ^ 2) by ring.
      apply min_image_rep; try assumption.
      + unfold Rabs. destruct (Rcase_abs (dy + L)); lra.
      + exists 1%Z. unfold dy. simpl. ring.
    - replace ((L - dy) ^ 2) with ((dy - L) ^ 2) by ring.
      apply min_image_rep; try assumption.
      + unfold Rabs. destruct (Rcase_abs (dy - L)); lra.
      + exists (-1)%Z. unfold dy. simpl. ring. }
  split; [exact E|]. rewrite E.
  apply sqrt_lt_1_alt. split; [nra|].
  assert ((L - Rabs dy) ^ 2 < dy ^ 2); [|lra].
  unfold Rabs in *. destruct (Rcase_abs dy); nra.
Qed.

End PeriodicDistance.


Lemma periodic_minimum_image_witness :
  Rabs (-3 / 2 - 3 / 2) = 3
  /\ Np.entry (RS.calculate_Rij periodic_box [0; 0] [-3 / 2; 3 / 2]) 0 1
     = sqrt ((0 - 0) ^ 2 + (4 - Rabs (-3 / 2 - 3 / 2)) ^ 2).
Proof.
  assert (HR : Rabs (-3 / 2 - 3 / 2) = 3).
  { replace (-3 / 2 - 3 / 2) with (- (3)) by lra. rewrite Rabs_Ropp. apply Rabs_pos_eq. lra. }
  split; [exact HR|].
  refine (proj1 (proj2 (periodic_minimum_image periodic_box [0; 0] [-3 / 2; 3 / 2] 0 1
                          _ _ _ _ _ _))).
  - reflexivity.
  - cbn. lia.
  - cbn. lia.
  - cbn. lra.
  - cbn. lra.
  - cbn [nth RS.box_y_length periodic_box]. rewrite HR. lra.
Defined.

(** ** The energy and gradient of [ResonatorSolver] *)

Section PeriodicCalculus.

Variable L : R.
Hypothesis HL : 0 < L.

Lemma min_image_dx dx dx' u w :
  dx' ^ 2 = dx ^ 2 -> min_image L dx' u w = min_image L dx u w.
Proof. intros E. unfold min_image. rewrite E. reflexivity. Qed.

Lemma eff_dy_dx dx dx' u w :
  dx' ^ 2 = dx ^ 2 -> eff_dy L dx' u w = eff_dy L dx u w.
Proof. intros E. unfold eff_dy. rewrite E. reflexivity. Qed.

Lemma min_image_swap dx u w : min_image L dx w u = min_image L dx u w.
Proof. apply min_image_sym. reflexivity. Qed.

Lemma sqrt_nonzero_pos p : sqrt p <> 0 -> 0 < p.
Proof.
  intros H. destruct (Rle_or_lt p 0) as [Hle|]; [|assumption].
  exfalso. apply H, sqrt_neg_0, Hle.
Qed.

(** Away from a y-separation of exactly half a period, the pair term is
    differentiable in the second y-coordinate, with the slope that
    [grad_Vee] computes from [calculate_YiYj]. *)
Lemma deriv_min_image_y c dx u t0 :
  - L / 2 <= u < L / 2 ->
  Rabs (u - wrap L t0) <> L / 2 ->
  min_image L dx u (wrap L t0) <> 0 ->
  derivable_pt_lim (fun t => c * 1 / min_image L dx u (wrap L t)) t0
    (c * eff_dy L dx u (wrap L t0) / min_image L dx u (wrap L t0) ^ 3).
Proof.
  intros Hu Hk Hnz.
  destruct (wrap_spec L HL t0) as [Hw0 [n0 En0]].
  destruct (eff_dy_rep L HL dx u (wrap L t0) Hu Hw0) as (_ & [n En] & Hlt).
  specialize (Hlt Hk).
  set (E0 := eff_dy L dx u (wrap L t0)) in *.
  pose proof (min_image_eff L HL dx dx u (wrap L t0) Hu Hw0) as HM. fold E0 in HM.
  apply Rabs_lt_between in Hlt.
  set (dl := L / 2 - Rabs E0).
  assert (Hdl : 0 < dl).
  { unfold dl, Rabs. destruct (Rcase_abs E0); lra. }
  apply (derivable_pt_lim_locally_ext
           (fun t => c * 1 / sqrt (dx ^ 2 + (E0 + t0 - t) ^ 2)) _ t0 (t0 - dl) (t0 + dl)).
  - lra.
  - intros z Hz.
    destruct (wrap_spec L HL z) as [Hwz [n1 En1]].
    rewrite (min_image_rep L HL dx u (wrap L z) (E0 + t0 - z)); try assumption; [reflexivity| |].
    + unfold dl, Rabs in *. destruct (Rcase_abs E0); destruct (Rcase_abs (E0 + t0 - z)); lra.
    + exists (n + n0 - n1)%Z. rewrite minus_IZR, plus_IZR. rewrite En, En0, En1. ring.
  - rewrite HM in Hnz |- *.
    replace E0 with (E0 + t0 - t0) at 1 2 by ring.
    apply deriv_pair_y1.
    replace (E0 + t0 - t0) with E0 by ring.
    apply sqrt_nonzero_pos, Hnz.
Qed.

Lemma rs_qe_pos : 0 < RS.qe.
Proof. unfold RS.qe. lra. Qed.

Lemma rs_four_pi_eps0_pos : 0 < 4 * PI * RS.eps0.
Proof.
  pose proof PI_RGT_0. assert (0 < RS.eps0) by (unfold RS.eps0; lra).
  apply Rmult_lt_0_compat; lra.
Qed.

(** The x-derivative of the periodic energy of [N] charges. *)
Lemma RS_energy_deriv_x V N X Y k dVx :
  (k < N)%nat ->
  derivable_pt_lim V (X k) dVx ->
  (forall a, (a < N)%nat -> a <> k ->
     min_image L (X k - X a) (wrap L (Y a)) (wrap L (Y k)) <> 0) ->
  derivable_pt_lim (fun t => RS_energy V L N (upd X k t) Y) (X k)
    (dVx + Np.sum_upto N (fun a =>
             if (a =? k)%nat then 0
             else -1 * RS.qe ^ 2 / (4 * PI * RS.eps0) * (X k - X a)
                  / min_image L (X k - X a) (wrap L (Y a)) (wrap L (Y k)) ^ 3) / RS.qe).
Proof.
  intros Hk HV Hd.
  pose proof rs_qe_pos as Hq. pose proof rs_four_pi_eps0_pos as Hp.
  assert (HW : forall i, - L / 2 <= wrap L (Y i) < L / 2)
    by (intros i; apply wrap_spec, HL).
  set (c := 1 / 2 * RS.qe ^ 2 / (4 * PI * RS.eps0)).
  set (A := fun a => if (a =? k)%nat then 0
                     else - c * (X k - X a) / min_image L (X k - X a) (wrap L (Y a)) (wrap L (Y k)) ^ 3).
  set (B := fun b => if (b =? k)%nat then 0
                     else c * (X b - X k) / min_image L (X b - X k) (wrap L (Y k)) (wrap L (Y b)) ^ 3).
  pose proof (deriv_energy RS.qe N
    (fun i t => V (upd X k t i))
    (fun a b t => if (a =? b)%nat then 0
                  else c * 1 / min_image L (upd X k t b - upd X k t a) (wrap L (Y a)) (wrap L (Y b)))
    (X k)
    (fun i => if (i =? k)%nat then dVx else 0)
    (fun a b => (if (b =? k)%nat then A a else 0) + (if (a =? k)%nat then B b else 0)))
    as HE.
  unfold RS_energy. fold c.
  match type of HE with _ -> _ -> derivable_pt_lim _ _ ?l =>
    match goal with |- derivable_pt_lim _ _ ?g => replace g with l end
  end.
  - apply HE.
    + intros i Hi. unfold upd. destruct (Nat.eqb_spec i k) as [->|NE].
      * apply (derivable_pt_lim_ext V); [reflexivity | exact HV].
      * apply deriv_const.
    + intros a b Ha Hb. unfold upd, A, B.
      destruct (Nat.eqb_spec a b) as [->|Hab].
      * destruct (Nat.eqb_spec b k); replace (0 + 0) with 0 by ring; apply deriv_const.
      * destruct (Nat.eqb_spec b k) as [->|Hbk]; destruct (Nat.eqb_spec a k) as [->|Hak];
          try congruence.
        -- rewrite Rplus_0_r.
           pose proof (min_image_eff L HL (X k - X a) (X k - X a) (wrap L (Y a)) (wrap L (Y k)) (HW a) (HW k)) as HM.
           rewrite HM. specialize (Hd a Ha Hak). rewrite HM in Hd.
           apply (derivable_pt_lim_ext
                    (fun t => c * 1 / sqrt ((t - X a) ^ 2
                                            + eff_dy L (X k - X a) (wrap L (Y a)) (wrap L (Y k)) ^ 2))).
           ++ intros z. rewrite (min_image_eff L HL (X k - X a) (z - X a)); auto.
           ++ apply deriv_pair_x1. apply sqrt_nonzero_pos, Hd.
        -- rewrite Rplus_0_l.
           pose proof (min_image_eff L HL (X b - X k) (X b - X k) (wrap L (Y k)) (wrap L (Y b)) (HW k) (HW b)) as HM.
           rewrite HM. specialize (Hd b Hb Hbk).
           rewrite <- (min_image_sym L (X k - X b) (X b - X k)
                         (wrap L (Y b)) (wrap L (Y k))) in Hd by ring.
           rewrite HM in Hd.
           apply (derivable_pt_lim_ext
                    (fun t => c * 1 / sqrt ((X b - t) ^ 2
                                            + eff_dy L (X b - X k) (wrap L (Y k)) (wrap L (Y b)) ^ 2))).
           ++ intros z. rewrite (min_image_eff L HL (X b - X k) (X b - z)); auto.
           ++ apply deriv_pair_x2. apply sqrt_nonzero_pos, Hd.
        -- rewrite Rplus_0_l. apply deriv_const.
  - rewrite sum_upto_single by exact Hk. rewrite sum_cross by exact Hk.
    replace (Np.sum_upto N (fun a => A a + B a))
      with (Np.sum_upto N (fun a =>
             if (a =? k)%nat then 0
             else -1 * RS.qe ^ 2 / (4 * PI * RS.eps0) * (X k - X a)
                  / min_image L (X k - X a) (wrap L (Y a)) (wrap L (Y k)) ^ 3)).
    + field. lra.
    + apply sum_upto_ext. intros a Ha. unfold A, B.
      destruct (Nat.eqb_spec a k) as [->|Hak]; [ring|].
      rewrite (min_image_sym L (X k - X a) (X a - X k) (wrap L (Y a)) (wrap L (Y k))) by ring.
      unfold c. field.
      repeat split;
        first [ apply Hd; assumption | apply PI_neq0
              | unfold RS.eps0; lra ].
Qed.

(** The y-derivative of the periodic energy, where no other charge is
    exactly half a period away in y. *)
Lemma RS_energy_deriv_y V N X Y k :
  (k < N)%nat ->
  (forall a, (a < N)%nat -> a <> k ->
     min_image L (X k - X a) (wrap L (Y a)) (wrap L (Y k)) <> 0) ->
  (forall a, (a < N)%nat -> a <> k ->
     Rabs (wrap L (Y a) - wrap L (Y k)) <> L / 2) ->
  derivable_pt_lim (fun t => RS_energy V L N X (upd Y k t)) (Y k)
    (0 + Np.sum_upto N (fun a =>
           if (a =? k)%nat then 0
           else 1 * RS.qe ^ 2 / (4 * PI * RS.eps0)
                * eff_dy L (X k - X a) (wrap L (Y a)) (wrap L (Y k))
                / min_image L (X k - X a) (wrap L (Y a)) (wrap L (Y k)) ^ 3) / RS.qe).
Proof.
  intros Hk Hd Hkink.
  pose proof rs_qe_pos as Hq. pose proof rs_four_pi_eps0_pos as Hp.
  assert (HW : forall i, - L / 2 <= wrap L (Y i) < L / 2)
    by (intros i; apply wrap_spec, HL).
  set (c := 1 / 2 * RS.qe ^ 2 / (4 * PI * RS.eps0)).
  set (A := fun a => if (a =? k)%nat then 0
                     else c * eff_dy L (X k - X a) (wrap L (Y a)) (wrap L (Y k))
                          / min_image L (X k - X a) (wrap L (Y a)) (wrap L (Y k)) ^ 3).
  set (B := fun b => if (b =? k)%nat then 0
                     else c * eff_dy L (X b - X k) (wrap L (Y b)) (wrap L (Y k))
                          / min_image L (X b - X k) (wrap L (Y b)) (wrap L (Y k)) ^ 3).
  pose proof (deriv_energy RS.qe N
    (fun i t => V (X i))
    (fun a b t => if (a =? b)%nat then 0
                  else c * 1 / min_image L (X b - X a) (wrap L (upd Y k t a))
                                             (wrap L (upd Y k t b)))
    (Y k)
    (fun i => 0)
    (fun a b => (if (b =? k)%nat then A a else 0) + (if (a =? k)%nat then B b else 0)))
    as HE.
  unfold RS_energy. fold c.
  match type of HE with _ -> _ -> derivable_pt_lim _ _ ?l =>
    match goal with |- derivable_pt_lim _ _ ?g => replace g with l end
  end.
  - apply HE.
    + intros i Hi. apply deriv_const.
    + intros a b Ha Hb. unfold upd, A, B.
      destruct (Nat.eqb_spec a b) as [->|Hab].
      * destruct (Nat.eqb_spec b k); replace (0 + 0) with 0 by ring; apply deriv_const.
      * destruct (Nat.eqb_spec b k) as [->|Hbk]; destruct (Nat.eqb_spec a k) as [->|Hak];
          try congruence.
        -- rewrite Rplus_0_r.
           apply (deriv_min_image_y c (X k - X a) (wrap L (Y a)) (Y k)); auto.
        -- rewrite Rplus_0_l.
           apply (derivable_pt_lim_ext
                    (fun t => c * 1 / min_image L (X b - X k) (wrap L (Y b)) (wrap L t))).
           ++ intros z. rewrite (min_image_swap (X b - X k) (wrap L (Y b)) (wrap L z)). reflexivity.
           ++ apply (deriv_min_image_y c (X b - X k) (wrap L (Y b)) (Y k)); auto.
              rewrite (min_image_dx (X k - X b)) by ring. auto.
        -- rewrite Rplus_0_l. apply deriv_const.
  - rewrite sum_upto_zero. rewrite sum_cross by exact Hk.
    replace (Np.sum_upto N (fun a => A a + B a))
      with (Np.sum_upto N (fun a =>
             if (a =? k)%nat then 0
             else 1 * RS.qe ^ 2 / (4 * PI * RS.eps0)
                  * eff_dy L (X k - X a) (wrap L (Y a)) (wrap L (Y k))
                  / min_image L (X k - X a) (wrap L (Y a)) (wrap L (Y k)) ^ 3)).
    + field. lra.
    + apply sum_upto_ext. intros a Ha. unfold A, B.
      destruct (Nat.eqb_spec a k) as [->|Hak]; [ring|].
      rewrite (min_image_dx (X k - X a) (X a - X k)) by ring.
      rewrite (eff_dy_dx (X k - X a) (X a - X k)) by ring.
      unfold c. field.
      repeat split;
        first [ apply Hd; assumption | apply PI_neq0
              | unfold RS.eps0; lra ].
Qed.

End PeriodicCalculus.

Section RSFacts.

Variable s : RS.self.

Lemma RS_map_y yi : RS.map_y_into_domain s yi None = map (wrap (RS.box_y_length s)) yi.
Proof. reflexivity. Qed.

Lemma RS_Vee_shape xi yi eps :
  Np.nrows (RS.Vee s xi yi eps) = length yi /\ Np.ncols (RS.Vee s xi yi eps) = length xi.
Proof.
  unfold RS.Vee, RS.calculate_Rij. cbn [Np.meshgrid Np.transpose Np.mmap Np.mzip Np.fill_diagonal Np.nrows Np.ncols].
  rewrite RS_map_y, length_map. split; reflexivity.
Qed.

Lemma RS_Vee_entry xi yi eps a b :
  Np.entry (RS.Vee s xi yi eps) a b
  = 1 / 2 * RS.qe ^ 2 / (4 * PI * RS.eps0) * 1
    / (if (a =? b)%nat then eps
       else min_image (RS.box_y_length s) (nth b xi 0 - nth a xi 0)
              (nth a (map (wrap (RS.box_y_length s)) yi) 0)
              (nth b (map (wrap (RS.box_y_length s)) yi) 0)).
Proof. reflexivity. Qed.

Lemma RS_Vtotal_sum r :
  length (Np.evens r) = length (Np.odds r) ->
  RS.Vtotal s r
  = RS_energy (RS.interpolator s) (RS.box_y_length s) (length (Np.evens r))
              (fun i => nth i (Np.evens r) 0) (fun i => nth i (Np.odds r) 0).
Proof.
  intros HN. unfold RS.Vtotal, RS_energy, RS.Velectrostatic, RS.V.
  rewrite sum1_nth, length_map. cbv zeta.
  f_equal. f_equal.
  - f_equal. apply sum_upto_ext. intros i Hi. apply nth_map_R, Hi.
  - unfold Np.sum. cbn [Np.fill_diagonal Np.nrows Np.ncols Np.entry].
    rewrite (proj1 (RS_Vee_shape _ _ _)), (proj2 (RS_Vee_shape _ _ _)), <- HN.
    apply sum_upto_ext. intros a Ha. apply sum_upto_ext. intros b Hb.
    rewrite RS_Vee_entry. destruct (a =? b)%nat; [reflexivity|].
    rewrite !nth_map_R by lia. reflexivity.
Qed.

End RSFacts.

Section RSGradient.

Variable s : RS.self.

Lemma RS_energy_ext V L N X X' Y Y' :
  (forall i, X i = X' i) -> (forall i, Y i = Y' i) ->
  RS_energy V L N X Y = RS_energy V L N X' Y'.
Proof.
  intros HX HY. unfold RS_energy. f_equal. f_equal.
  - f_equal. apply sum_upto_ext. intros i _. rewrite HX. reflexivity.
  - apply sum_upto_ext. intros a _. apply sum_upto_ext. intros b _.
    rewrite !HX, !HY. reflexivity.
Qed.

Lemma RS_gradx_shape xi yi eps :
  Np.nrows (RS.gradx_matrix s xi yi eps) = length yi
  /\ Np.ncols (RS.gradx_matrix s xi yi eps) = length xi.
Proof. split; reflexivity. Qed.

Lemma RS_grady_shape xi yi eps :
  Np.nrows (RS.grady_matrix s xi yi eps) = length yi
  /\ Np.ncols (RS.grady_matrix s xi yi eps) = length xi.
Proof. split; reflexivity. Qed.

Lemma RS_gradx_entry xi yi eps a k :
  Np.entry (RS.gradx_matrix s xi yi eps) a k
  = if (a =? k)%nat then 0
    else -1 * RS.qe ^ 2 / (4 * PI * RS.eps0) * (nth k xi 0 - nth a xi 0)
         / min_image (RS.box_y_length s) (nth k xi 0 - nth a xi 0)
                     (nth a yi 0) (nth k yi 0) ^ 3.
Proof.
  unfold RS.gradx_matrix.
  cbn [Np.meshgrid Np.transpose Np.mmap Np.mzip Np.fill_diagonal Np.nrows Np.ncols Np.entry].
  rewrite RS_Rij_entry. destruct (a =? k)%nat; reflexivity.
Qed.

Lemma RS_grady_entry xi yi eps a k :
  Np.entry (RS.grady_matrix s xi yi eps) a k
  = if (a =? k)%nat then 0
    else 1 * RS.qe ^ 2 / (4 * PI * RS.eps0)
         * eff_dy (RS.box_y_length s) (nth k xi 0 - nth a xi 0) (nth a yi 0) (nth k yi 0)
         / min_image (RS.box_y_length s) (nth k xi 0 - nth a xi 0)
                     (nth a yi 0) (nth k yi 0) ^ 3.
Proof.
  unfold RS.grady_matrix.
  cbn [Np.meshgrid Np.transpose Np.mmap Np.mzip Np.fill_diagonal Np.nrows Np.ncols Np.entry].
  rewrite RS_Rij_entry, RS_YiYj_entry. destruct (a =? k)%nat; reflexivity.
Qed.

Lemma RS_grad_Vee_ok xi yi eps :
  length xi = length yi ->
  RS.grad_Vee s xi yi eps
  = Ok (interleave
          (Np.sum_axis0 (RS.gradx_matrix s xi (RS.map_y_into_domain s yi None) eps))
          (Np.sum_axis0 (RS.grady_matrix s xi (RS.map_y_into_domain s yi None) eps))).
Proof.
  intros H. unfold RS.grad_Vee. apply set_pair_interleave.
  - rewrite !sum_axis0_length. reflexivity.
  - rewrite zeros_length, sum_axis0_length. reflexivity.
Qed.

Lemma RS_grad_total_ok r :
  Nat.Even (length r) ->
  RS.grad_total s r
  = Ok (zip_with Rplus
          (interleave (RS.dVdx s (Np.evens r) (Np.odds r))
                      (RS.dVdy (Np.evens r) (Np.odds r)))
          (map (fun v => v / RS.qe)
               (interleave
                  (Np.sum_axis0 (RS.gradx_matrix s (Np.evens r)
                                   (RS.map_y_into_domain s (Np.odds r) None) RS.grad_Vee_eps))
                  (Np.sum_axis0 (RS.grady_matrix s (Np.evens r)
                                   (RS.map_y_into_domain s (Np.odds r) None) RS.grad_Vee_eps))))).
Proof.
  intros He. pose proof (even_halves r He) as HN.
  pose proof (evens_odds_length r) as HL.
  unfold RS.grad_total.
  assert (Hd : length (RS.dVdx s (Np.evens r) (Np.odds r)) = length (Np.evens r))
    by apply length_map.
  assert (Hd' : length (RS.dVdy (Np.evens r) (Np.odds r)) = length (Np.evens r))
    by apply zeros_length.
  unfold Np.set_evens. rewrite fit_same.
  2:{ rewrite evens_length, zeros_length, <- evens_length. exact Hd. }
  cbn [rbind]. unfold Np.set_odds. rewrite fit_same.
  2:{ rewrite odds_put_evens, odds_length, zeros_length, <- odds_length. congruence. }
  cbn [rbind]. rewrite put_interleave; [| congruence | rewrite zeros_length; lia ].
  rewrite RS_grad_Vee_ok by exact HN. cbn [rbind].
  rewrite zip2_same; [reflexivity|].
  rewrite length_map, !interleave_length; [| rewrite !sum_axis0_length; reflexivity | congruence ].
  rewrite sum_axis0_length, (proj2 (RS_gradx_shape _ _ _)). congruence.
Qed.

(** The components of [grad_total]. *)
Lemma RS_grad_total_nth r g k :
  Nat.Even (length r) -> RS.grad_total s r = Ok g -> (k < length (Np.evens r))%nat ->
  let yi' := RS.map_y_into_domain s (Np.odds r) None in
  nth (2 * k) g 0
  = RS.derivative s (nth k (Np.evens r) 0)
    + Np.sum_upto (length (Np.evens r)) (fun a =>
        Np.entry (RS.gradx_matrix s (Np.evens r) yi' RS.grad_Vee_eps) a k) / RS.qe
  /\ nth (2 * k + 1) g 0
  = 0 + Np.sum_upto (length (Np.evens r)) (fun a =>
        Np.entry (RS.grady_matrix s (Np.evens r) yi' RS.grad_Vee_eps) a k) / RS.qe.
Proof.
  intros He Hg Hk yi'. pose proof (even_halves r He) as HN.
  rewrite RS_grad_total_ok in Hg by exact He. injection Hg as <-.
  fold yi'.
  set (xi := Np.evens r) in *. set (yi := Np.odds r) in *.
  assert (Hy' : length yi' = length xi) by (unfold yi'; rewrite RS_map_y, length_map; congruence).
  assert (Hd : length (RS.dVdx s xi yi) = length xi) by apply length_map.
  assert (Hd' : length (RS.dVdy xi yi) = length xi) by apply zeros_length.
  assert (Hgx : length (Np.sum_axis0 (RS.gradx_matrix s xi yi' RS.grad_Vee_eps)) = length xi)
    by (rewrite sum_axis0_length; reflexivity).
  assert (Hgy : length (Np.sum_axis0 (RS.grady_matrix s xi yi' RS.grad_Vee_eps)) = length xi)
    by (rewrite sum_axis0_length; reflexivity).
  assert (L1 : length (interleave (RS.dVdx s xi yi) (RS.dVdy xi yi)) = (2 * length xi)%nat)
    by (rewrite interleave_length; congruence).
  assert (L2 : length (interleave (Np.sum_axis0 (RS.gradx_matrix s xi yi' RS.grad_Vee_eps))
                                  (Np.sum_axis0 (RS.grady_matrix s xi yi' RS.grad_Vee_eps)))
               = (2 * length xi)%nat)
    by (rewrite interleave_length; congruence).
  destruct (nth_interleave (RS.dVdx s xi yi) (RS.dVdy xi yi) k) as [E1 E2];
    [congruence | lia |].
  destruct (nth_interleave (Np.sum_axis0 (RS.gradx_matrix s xi yi' RS.grad_Vee_eps))
                           (Np.sum_axis0 (RS.grady_matrix s xi yi' RS.grad_Vee_eps)) k)
    as [E3 E4]; [congruence | lia |].
  split.
  - rewrite nth_zip_with by (rewrite ?length_map; lia).
    rewrite nth_map_R by lia. rewrite E1, E3.
    unfold RS.dVdx. rewrite nth_map_R by lia.
    rewrite nth_sum_axis0 by (rewrite (proj2 (RS_gradx_shape _ _ _)); lia).
    rewrite (proj1 (RS_gradx_shape _ _ _)), Hy'. reflexivity.
  - rewrite nth_zip_with by (rewrite ?length_map; lia).
    rewrite nth_map_R by lia. rewrite E2, E4.
    unfold RS.dVdy, Np.zeros. rewrite nth_repeat.
    rewrite nth_sum_axis0 by (rewrite (proj2 (RS_grady_shape _ _ _)); lia).
    rewrite (proj1 (RS_grady_shape _ _ _)), Hy'. reflexivity.
Qed.

Lemma RS_Vtotal_insert_x r k z :
  Nat.Even (length r) -> (k < length (Np.evens r))%nat ->
  RS.Vtotal s (<[(2 * k)%nat := z]> r)
  = RS_energy (RS.interpolator s) (RS.box_y_length s) (length (Np.evens r))
      (upd (fun i => nth i (Np.evens r) 0) k z) (fun i => nth i (Np.odds r) 0).
Proof.
  intros He Hk. pose proof (even_halves r He) as HN.
  rewrite RS_Vtotal_sum.
  - rewrite evens_insert_even, odds_insert_even, length_insert.
    apply RS_energy_ext; [|reflexivity].
    intros i. unfold upd. apply nth_insert, Hk.
  - rewrite evens_insert_even, odds_insert_even, length_insert. exact HN.
Qed.

Lemma RS_Vtotal_insert_y r k z :
  Nat.Even (length r) -> (k < length (Np.evens r))%nat ->
  RS.Vtotal s (<[(2 * k + 1)%nat := z]> r)
  = RS_energy (RS.interpolator s) (RS.box_y_length s) (length (Np.evens r))
      (fun i => nth i (Np.evens r) 0) (upd (fun i => nth i (Np.odds r) 0) k z).
Proof.
  intros He Hk. pose proof (even_halves r He) as HN.
  rewrite RS_Vtotal_sum.
  - rewrite evens_insert_odd, odds_insert_odd.
    apply RS_energy_ext; [reflexivity|].
    intros i. unfold upd. apply nth_insert. lia.
  - rewrite evens_insert_odd, odds_insert_odd, length_insert. exact HN.
Qed.

Lemma RS_grad_total_derivative r :
  0 < RS.box_y_length s ->
  Nat.Even (length r) ->
  (forall k, (k < length (Np.evens r))%nat ->
     derivable_pt_lim (RS.interpolator s) (nth k (Np.evens r) 0)
                      (RS.derivative s (nth k (Np.evens r) 0))) ->
  (forall a b, (a < length (Np.evens r))%nat -> (b < length (Np.evens r))%nat -> a <> b ->
     Np.entry (RS.calculate_Rij s (Np.evens r)
                 (RS.map_y_into_domain s (Np.odds r) None)) a b <> 0) ->
  exists g,
    RS.grad_total s r = Ok g /\ length g = length r
    /\ forall k, (k < length (Np.evens r))%nat ->
         derivable_pt_lim (fun t => RS.Vtotal s (<[(2 * k)%nat := t]> r))
                          (nth (2 * k) r 0) (nth (2 * k) g 0)
         /\ ((forall a, (a < length (Np.evens r))%nat -> a <> k ->
                Rabs (nth a (RS.map_y_into_domain s (Np.odds r) None) 0
                      - nth k (RS.map_y_into_domain s (Np.odds r) None) 0)
                <> RS.box_y_length s / 2) ->
             derivable_pt_lim (fun t => RS.Vtotal s (<[(2 * k + 1)%nat := t]> r))
                              (nth (2 * k + 1) r 0) (nth (2 * k + 1) g 0)).
Proof.
  intros HL He Hfield Hdist. pose proof (even_halves r He) as HN.
  pose proof (evens_odds_length r) as HLen.
  pose proof (RS_grad_total_ok r He) as Hg.
  eexists. split; [exact Hg|]. split.
  { rewrite length_zip_with_same.
    - rewrite interleave_length;
        [| unfold RS.dVdx, RS.dVdy; rewrite length_map, zeros_length; reflexivity].
      unfold RS.dVdx. rewrite length_map. lia.
    - rewrite length_map, !interleave_length.
      + unfold RS.dVdx. rewrite length_map.
        rewrite sum_axis0_length. rewrite (proj2 (RS_gradx_shape _ _ _)). reflexivity.
      + rewrite !sum_axis0_length. reflexivity.
      + unfold RS.dVdx, RS.dVdy; rewrite length_map, zeros_length; reflexivity. }
  intros k Hk.
  destruct (RS_grad_total_nth r _ k He Hg Hk) as [G1 G2].
  rewrite G1, G2. clear G1 G2 Hg.
  set (L := RS.box_y_length s) in *.
  assert (Hwrap : forall a, (a < length (Np.evens r))%nat ->
            nth a (RS.map_y_into_domain s (Np.odds r) None) 0
            = wrap L (nth a (Np.odds r) 0)).
  { intros a Ha. rewrite RS_map_y. apply nth_map_R. lia. }
  assert (Hd : forall a, (a < length (Np.evens r))%nat -> a <> k ->
            min_image L (nth k (Np.evens r) 0 - nth a (Np.evens r) 0)
                      (wrap L (nth a (Np.odds r) 0)) (wrap L (nth k (Np.odds r) 0)) <> 0).
  { intros a Ha Hak. specialize (Hdist a k Ha Hk Hak).
    rewrite RS_Rij_entry, !Hwrap in Hdist by assumption. exact Hdist. }
  split.
  - apply (derivable_pt_lim_ext
             (fun t => RS_energy (RS.interpolator s) L (length (Np.evens r))
                         (upd (fun i => nth i (Np.evens r) 0) k t)
                         (fun i => nth i (Np.odds r) 0))).
    + intros z. symmetry. apply RS_Vtotal_insert_x; assumption.
    + rewrite <- nth_evens.
      rewrite (sum_upto_ext _ _
                 (fun a => if (a =? k)%nat then 0
                           else -1 * RS.qe ^ 2 / (4 * PI * RS.eps0)
                                * (nth k (Np.evens r) 0 - nth a (Np.evens r) 0)
                                / min_image L (nth k (Np.evens r) 0 - nth a (Np.evens r) 0)
                                    (wrap L (nth a (Np.odds r) 0))
                                    (wrap L (nth k (Np.odds r) 0)) ^ 3)).
      * apply (RS_energy_deriv_x L HL (RS.interpolator s) (length (Np.evens r))
                 (fun i => nth i (Np.evens r) 0) (fun i => nth i (Np.odds r) 0) k);
          auto.
      * intros a Ha. rewrite RS_gradx_entry, !Hwrap by assumption. reflexivity.
  - intros Hkink.
    apply (derivable_pt_lim_ext
             (fun t => RS_energy (RS.interpolator s) L (length (Np.evens r))
                         (fun i => nth i (Np.evens r) 0)
                         (upd (fun i => nth i (Np.odds r) 0) k t))).
    + intros z. symmetry. apply RS_Vtotal_insert_y; assumption.
    + rewrite <- nth_odds.
      rewrite (sum_upto_ext _ _
                 (fun a => if (a =? k)%nat then 0
                           else 1 * RS.qe ^ 2 / (4 * PI * RS.eps0)
                                * eff_dy L (nth k (Np.evens r) 0 - nth a (Np.evens r) 0)
                                    (wrap L (nth a (Np.odds r) 0))
                                    (wrap L (nth k (Np.odds r) 0))
                                / min_image L (nth k (Np.evens r) 0 - nth a (Np.evens r) 0)
                                    (wrap L (nth a (Np.odds r) 0))
                                    (wrap L (nth k (Np.odds r) 0)) ^ 3)).
      * apply (RS_energy_deriv_y L HL (RS.interpolator s) (length (Np.evens r))
                 (fun i => nth i (Np.evens r) 0) (fun i => nth i (Np.odds r) 0) k);
          auto.
        intros a Ha Hak. specialize (Hkink a Ha Hak).
        rewrite !Hwrap in Hkink by assumption. exact Hkink.
      * intros a Ha. rewrite RS_grady_entry, !Hwrap by assumption. reflexivity.
Qed.

End RSGradient.

(** ** Two charges half a period apart *)

Section Kink.

Lemma four_pos : 0 < 4.
Proof. lra. Qed.

(** The minimum-image distance of the pair as the second charge moves in y. *)
Lemma kink_distance_below dx t :
  dx ^ 2 = 0 -> 0 < t <= 1 -> min_image 4 dx (-1) t = 1 + t.
Proof.
  intros Hdx Ht.
  rewrite (min_image_rep 4 four_pos dx (-1) t (-1 - t)).
  - rewrite Hdx. replace (0 + (-1 - t) ^ 2) with ((1 + t) * (1 + t)) by ring.
    apply sqrt_square. lra.
  - lra.
  - lra.
  - apply Rabs_le. lra.
  - exists 0%Z. simpl. ring.
Qed.

Lemma kink_distance_above dx t :
  dx ^ 2 = 0 -> 1 <= t < 2 -> min_image 4 dx (-1) t = 3 - t.
Proof.
  intros Hdx Ht.
  rewrite (min_image_rep 4 four_pos dx (-1) t (3 - t)).
  - rewrite Hdx. replace (0 + (3 - t) ^ 2) with ((3 - t) * (3 - t)) by ring.
    apply sqrt_square. lra.
  - lra.
  - lra.
  - apply Rabs_le. lra.
  - exists 1%Z. simpl. ring.
Qed.

Lemma kink_energy t :
  0 < t < 2 ->
  RS.Vtotal periodic_box (<[3%nat := t]> [0; -1; 0; 1])
  = RS.qe / (4 * PI * RS.eps0) / min_image 4 0 (-1) t.
Proof.
  intros Ht.
  pose proof rs_qe_pos as Hq. pose proof rs_four_pi_eps0_pos as Hp.
  change 3%nat with (2 * 1 + 1)%nat.
  rewrite (RS_Vtotal_insert_y periodic_box [0; -1; 0; 1] 1 t);
    [| exists 2%nat; reflexivity | cbn; lia ].
  unfold RS_energy.
  cbn [Np.evens Np.odds tl length Np.sum_upto Nat.eqb nth upd RS.interpolator
       RS.box_y_length periodic_box].
  rewrite (wrap_in_domain 4 (-1)) by lra.
  rewrite (wrap_in_domain 4 t) by lra.
  rewrite (min_image_sym 4 (0 - 0) (0 - 0) (-1) t) by ring.
  rewrite (min_image_dx 4 0 (0 - 0) (-1) t) by ring.
  assert (Hm : min_image 4 0 (-1) t <> 0).
  { destruct (Rle_or_lt t 1).
    - rewrite kink_distance_below by (try ring; lra). lra.
    - rewrite kink_distance_above by (try ring; lra). lra. }
  field. repeat split; first [exact Hm | apply PI_neq0 | unfold RS.eps0; lra | lra].
Qed.

(** At a y-separation of exactly half a period the energy has a corner:
    no number is its derivative in the y-coordinate of the second charge. *)
Lemma kink_not_derivable l :
  ~ derivable_pt_lim
      (fun t => RS.Vtotal periodic_box (<[3%nat := t]> [0; -1; 0; 1])) 1 l.
Proof.
  intros Hd.
  pose proof rs_qe_pos as Hq. pose proof rs_four_pi_eps0_pos as Hp.
  set (K := RS.qe / (4 * PI * RS.eps0)).
  assert (HK : 0 < K) by (apply Rdiv_lt_0_compat; assumption).
  assert (He : 0 < K / 8) by lra.
  destruct (Hd (K / 8) He) as [delta Hdelta].
  set (h := Rmin (delta / 2) (1 / 2)).
  assert (Hh : 0 < h <= 1 / 2 /\ h < delta).
  { pose proof (cond_pos delta). unfold h, Rmin.
    destruct (Rle_dec (delta / 2) (1 / 2)); lra. }
  destruct Hh as [[Hh0 Hh1] Hh2].
  assert (F1 : RS.Vtotal periodic_box (<[3%nat := 1 + 0]> [0; -1; 0; 1]) = K / 2).
  { rewrite kink_energy by lra. rewrite kink_distance_below by (try ring; lra).
    unfold K. f_equal. lra. }
  replace (1 + 0) with 1 in F1 by ring.
  assert (Fp : RS.Vtotal periodic_box (<[3%nat := 1 + h]> [0; -1; 0; 1]) = K / (2 - h)).
  { rewrite kink_energy by lra. rewrite kink_distance_above by (try ring; lra).
    unfold K. f_equal. lra. }
  assert (Fm : RS.Vtotal periodic_box (<[3%nat := 1 + - h]> [0; -1; 0; 1]) = K / (2 - h)).
  { rewrite kink_energy by lra. rewrite kink_distance_below by (try ring; lra).
    unfold K. f_equal. lra. }
  assert (Hp1 := Hdelta h).
  assert (Hm1 := Hdelta (- h)).
  cbv beta in Hp1, Hm1. rewrite Fp, F1 in Hp1. rewrite Fm, F1 in Hm1.
  assert (Q : (K / (2 - h) - K / 2) / h = K / (2 * (2 - h))) by (field; lra).
  assert (Q' : (K / (2 - h) - K / 2) / - h = - (K / (2 * (2 - h)))) by (field; lra).
  rewrite Q in Hp1. rewrite Q' in Hm1.
  assert (Hq4 : K / 4 <= K / (2 * (2 - h))).
  { apply (Rmult_le_reg_r (4 * (2 * (2 - h)))); [lra|].
    replace (K / 4 * (4 * (2 * (2 - h)))) with (K * (2 * (2 - h))) by field.
    replace (K / (2 * (2 - h)) * (4 * (2 * (2 - h)))) with (K * 4) by (field; lra).
    nra. }
  assert (A1 : Rabs (K / (2 * (2 - h)) - l) < K / 8).
  { apply Hp1; [lra|]. rewrite Rabs_pos_eq; lra. }
  assert (A2 : Rabs (- (K / (2 * (2 - h))) - l) < K / 8).
  { apply Hm1; [lra|]. rewrite Rabs_Ropp, Rabs_pos_eq; lra. }
  apply Rabs_lt_between in A1, A2. lra.
Qed.

End Kink.

(** ** The gradient is the derivative of the energy *)

Section GradientIsDerivative.

(** C1 (as the code computes it).  For an even-length [r] at which the field
    is differentiable and all pairwise distances are nonzero, [grad_total]
    succeeds with a vector of the length of [r] whose component [2k] is
    [d(Vtotal)/d(x_k)] and whose component [2k+1] is [d(Vtotal)/d(y_k)]:
    always for [ElectrostaticPotential]; for [ResonatorSolver] (period
    [box_y_length > 0]) always for the x-components, and for the
    y-component of charge [k] when no other charge is exactly half a period
    away from it in the wrapped y-coordinate. *)
Theorem grad_total_is_derivative (ep : EP.self) (rs : RS.self) (r : list R)
    (Heven : Nat.Even (length r)) :
  (EP_field_differentiable ep r -> EP_distances_nonzero r ->
   exists g,
     EP.grad_total ep r = Ok g /\ length g = length r
     /\ forall k, (k < length (Np.evens r))%nat ->
          partial_derivative_at (EP.Vtotal ep) r g (2 * k)
          /\ partial_derivative_at (EP.Vtotal ep) r g (2 * k + 1))
  /\ (0 < RS.box_y_length rs ->
      RS_field_differentiable rs r -> RS_distances_nonzero rs r ->
      exists g,
        RS.grad_total rs r = Ok g /\ length g = length r
        /\ forall k, (k < length (Np.evens r))%nat ->
             partial_derivative_at (RS.Vtotal rs) r g (2 * k)
             /\ (RS_off_half_period rs r k ->
                 partial_derivative_at (RS.Vtotal rs) r g (2 * k + 1))).
Proof.
  split.
  - intros Hf Hd. apply EP_grad_total_derivative; assumption.
  - intros HL Hf Hd. apply RS_grad_total_derivative; assumption.
Qed.

Lemma zero_field_differentiable r : EP_field_differentiable zero_field r.
Proof. intros k _. cbn. split; apply deriv_const. Qed.

Lemma periodic_box_differentiable r : RS_field_differentiable periodic_box r.
Proof. intros k _. cbn. apply deriv_const. Qed.

Lemma sqrt_1_0 : sqrt ((1 - 0) ^ 2 + (0 - 0) ^ 2) = 1.
Proof. replace ((1 - 0) ^ 2 + (0 - 0) ^ 2) with 1 by ring. apply sqrt_1. Qed.

Lemma sqrt_0_1 : sqrt ((0 - 1) ^ 2 + (0 - 0) ^ 2) = 1.
Proof. replace ((0 - 1) ^ 2 + (0 - 0) ^ 2) with 1 by ring. apply sqrt_1. Qed.

Lemma unit_pair_distances_ep : EP_distances_nonzero [0; 0; 1; 0].
Proof.
  intros a b Ha Hb Hab. cbn in Ha, Hb. rewrite EP_Rij_entry.
  destruct a as [|[|a]]; destruct b as [|[|b]]; try lia; cbn [Nat.eqb Np.evens Np.odds tl nth].
  - rewrite sqrt_1_0. lra.
  - rewrite sqrt_0_1. lra.
Qed.

Lemma unit_pair_min_image dx : dx ^ 2 = 1 -> min_image 4 dx 0 0 = 1.
Proof.
  intros H. rewrite (min_image_rep 4 four_pos dx 0 0 0).
  - rewrite H. replace (1 + 0 ^ 2) with 1 by ring. apply sqrt_1.
  - lra.
  - lra.
  - rewrite Rabs_R0. lra.
  - exists 0%Z. simpl. ring.
Qed.

Lemma unit_pair_distances_rs : RS_distances_nonzero periodic_box [0; 0; 1; 0].
Proof.
  intros a b Ha Hb Hab. cbn in Ha, Hb. rewrite RS_Rij_entry, RS_map_y.
  destruct a as [|[|a]]; destruct b as [|[|b]]; try lia;
    cbn [Np.evens Np.odds tl nth map RS.box_y_length periodic_box];
    rewrite (wrap_in_domain 4 0) by lra;
    rewrite unit_pair_min_image by ring; lra.
Qed.

Lemma unit_pair_off_half_period k : RS_off_half_period periodic_box [0; 0; 1; 0] k.
Proof.
  intros a Ha _. cbn in Ha. rewrite RS_map_y.
  assert (E : forall i, nth i (map (wrap 4) (Np.odds [0; 0; 1; 0])) 0
                        = if (i <? 2)%nat then 0 else 0).
  { intros [|[|i]]; cbn [Np.odds Np.evens tl map nth Nat.ltb Nat.leb];
      try (apply wrap_in_domain; lra). destruct i; reflexivity. }
  cbn [RS.box_y_length periodic_box]. rewrite !E.
  destruct (a <? 2)%nat; destruct (k <? 2)%nat;
    rewrite Rminus_diag, Rabs_R0; lra.
Qed.

Lemma grad_total_is_derivative_witness :
  Nat.Even (length [0; 0; 1; 0])
  /\ (exists g, EP.grad_total zero_field [0; 0; 1; 0] = Ok g
                /\ partial_derivative_at (EP.Vtotal zero_field) [0; 0; 1; 0] g 0)
  /\ (exists g, RS.grad_total periodic_box [0; 0; 1; 0] = Ok g
                /\ partial_derivative_at (RS.Vtotal periodic_box) [0; 0; 1; 0] g 1).
Proof.
  assert (He : Nat.Even (length [0; 0; 1; 0])) by (exists 2%nat; reflexivity).
  split; [exact He|].
  destruct (grad_total_is_derivative zero_field periodic_box [0; 0; 1; 0] He) as [HE HR].
  split.
  - destruct (HE (zero_field_differentiable _) unit_pair_distances_ep) as (g & Hg & _ & Hk).
    exists g. split; [exact Hg|].
    exact (proj1 (Hk 0%nat ltac:(cbn; lia))).
  - destruct (HR ltac:(cbn; lra) (periodic_box_differentiable _) unit_pair_distances_rs)
      as (g & Hg & _ & Hk).
    exists g. split; [exact Hg|].
    exact (proj2 (Hk 0%nat ltac:(cbn; lia)) (unit_pair_off_half_period 0)).
Defined.

(** The claim as stated fails for [ResonatorSolver]: two charges at
    [(0,-1)] and [(0,1)] with period 4 meet its hypotheses, yet the last
    component of [grad_total] is not the derivative of [Vtotal] in the
    y-coordinate of the second charge (there is none). *)
Lemma grad_total_periodic_counterexample :
  Nat.Even (length [0; -1; 0; 1])
  /\ RS_field_differentiable periodic_box [0; -1; 0; 1]
  /\ RS_distances_nonzero periodic_box [0; -1; 0; 1]
  /\ exists g,
       RS.grad_total periodic_box [0; -1; 0; 1] = Ok g
       /\ ~ partial_derivative_at (RS.Vtotal periodic_box) [0; -1; 0; 1] g (2 * 1 + 1).
Proof.
  split; [exists 2%nat; reflexivity|].
  split; [apply periodic_box_differentiable|].
  split.
  - intros a b Ha Hb Hab. cbn in Ha, Hb. rewrite RS_Rij_entry, RS_map_y.
    destruct a as [|[|a]]; destruct b as [|[|b]]; try lia;
      cbn [Np.evens Np.odds tl nth map RS.box_y_length periodic_box];
      rewrite (wrap_in_domain 4 (-1)) by lra;
      rewrite (wrap_in_domain 4 1) by lra.
    + rewrite kink_distance_below by (try ring; lra). lra.
    + rewrite (min_image_sym 4 (0 - 0) (0 - 0) (-1) 1) by ring.
      rewrite kink_distance_below by (try ring; lra). lra.
  - eexists. split; [apply RS_grad_total_ok; exists 2%nat; reflexivity|].
    unfold partial_derivative_at. apply kink_not_derivable.
Qed.

End GradientIsDerivative.

(** ** The annealing loop *)

Section Annealing.

Context {rng : Type}.
Variable s : RS.self.
Variable ext : RS.externals rng.
Variable cost_function : list R -> R.
Variable T : R.

Lemma Rltb_true a b : Rltb a b = true <-> a < b.
Proof. unfold Rltb. destruct (Rlt_dec a b); split; intros; try assumption; try reflexivity; try discriminate; contradiction. Qed.

Lemma Rltb_false a b : Rltb a b = false <-> ~ a < b.
Proof. unfold Rltb. destruct (Rlt_dec a b); split; intros; try assumption; try reflexivity; try discriminate; contradiction. Qed.

(** The new best result is the trial exactly when the trial converged with
    a strictly lower energy; otherwise it is the old one. *)
Lemma classify_best res cur :
  (res_status res = 0%Z /\ res_fun res < res_fun cur
   /\ fst (RS.classify res cur) = res)
  \/ (~ (res_status res = 0%Z /\ res_fun res < res_fun cur)
      /\ fst (RS.classify res cur) = cur).
Proof.
  unfold RS.classify.
  destruct (Z.eqb_spec (res_status res) 0) as [E|NE];
    destruct (Rltb (res_fun res) (res_fun cur)) eqn:Hlt;
    cbn [andb negb].
  - left. apply Rltb_true in Hlt. auto.
  - right. apply Rltb_false in Hlt. split; [tauto|].
    destruct (Rltb (res_fun cur) (res_fun res)); reflexivity.
  - right. split; [tauto | reflexivity].
  - right. split; [tauto|].
    destruct (Rltb (res_fun cur) (res_fun res)); reflexivity.
Qed.

Lemma thermal_kick_x_length x y : length (RS.thermal_kick_x s x y T) = length x.
Proof. unfold RS.thermal_kick_x, RS.ddVdx. rewrite !length_map. reflexivity. Qed.

Lemma perturb_ok positions g :
  randn_sized ext -> Nat.Even (length positions) ->
  exists p g', RS.perturb s ext T positions g = Ok (p, g') /\ length p = length positions.
Proof.
  intros Hr He. pose proof (even_halves positions He) as HN.
  pose proof (evens_odds_length positions) as HL.
  unfold RS.perturb, r2xy.
  pose proof (Hr (length (Np.evens positions)) g) as Hz1.
  destruct (RS.randn ext (length (Np.evens positions)) g) as [z1 g1]. cbn [fst] in Hz1.
  rewrite zip2_same by (rewrite thermal_kick_x_length; congruence).
  cbn [rbind]. rewrite zip2_same
    by (rewrite length_zip_with_same; rewrite thermal_kick_x_length; congruence).
  cbn [rbind].
  pose proof (Hr (length (Np.odds positions)) g1) as Hz2.
  destruct (RS.randn ext (length (Np.odds positions)) g1) as [z2 g2]. cbn [fst] in Hz2.
  rewrite zip2_same by (rewrite thermal_kick_x_length; congruence).
  cbn [rbind]. rewrite zip2_same
    by (rewrite length_zip_with_same; rewrite thermal_kick_x_length; congruence).
  cbn [rbind].
  rewrite xy2r_interleave.
  2:{ rewrite !length_zip_with_same; try congruence;
      rewrite ?length_zip_with_same; rewrite ?thermal_kick_x_length; congruence. }
  cbn [rbind]. eexists _, _. split; [reflexivity|].
  rewrite interleave_length.
  - rewrite length_zip_with_same; [lia|].
    rewrite length_zip_with_same; rewrite thermal_kick_x_length; congruence.
  - rewrite !length_zip_with_same; try congruence;
      rewrite ?length_zip_with_same; rewrite ?thermal_kick_x_length; congruence.
Qed.

(** One pass through the loop body. *)
Lemma trial_spec eip cur w :
  randn_sized ext -> Nat.Even (length eip) ->
  exists p g',
    RS.perturb s ext T eip (RS.gen w) = Ok (p, g')
    /\ RS.trial s ext cost_function T eip cur w
       = Ok (fst (RS.classify (RS.minimize ext cost_function p) cur),
             RS.World g' (RS.calls w ++ [p])
                      (RS.printed w
                       ++ snd (RS.classify (RS.minimize ext cost_function p) cur))).
Proof.
  intros Hr He.
  destruct (perturb_ok eip (RS.gen w) Hr He) as (p & g' & Hp & _).
  exists p, g'. split; [exact Hp|].
  unfold RS.trial. rewrite Hp. cbn [rbind].
  destruct (RS.classify (RS.minimize ext cost_function p) cur) as [b lines].
  reflexivity.
Qed.

(** After any number of passes: the loop has returned, the best result is
    the starting one or a converged one with strictly lower energy, and the
    start vectors handed to the minimiser are those of [restarts]. *)
Lemma trials_spec n eip cur w :
  randn_sized ext -> Nat.Even (length eip) ->
  exists best w' ps,
    RS.trials s ext cost_function T n eip cur w = Ok (best, w')
    /\ (best = cur \/ (res_status best = 0%Z /\ res_fun best < res_fun cur))
    /\ restarts s ext T n eip (RS.gen w) = Ok (ps, RS.gen w')
    /\ RS.calls w' = RS.calls w ++ ps
    /\ length ps = n.
Proof.
  intros Hr He. revert cur w.
  induction n as [|n IH]; intros cur w.
  - exists cur, w, []. cbn. rewrite app_nil_r. auto.
  - destruct (trial_spec eip cur w Hr He) as (p & g' & Hp & Ht).
    set (res := RS.minimize ext cost_function p) in *.
    set (w1 := RS.World g' (RS.calls w ++ [p])
                        (RS.printed w ++ snd (RS.classify res cur))) in *.
    destruct (IH (fst (RS.classify res cur)) w1) as (best & w' & ps & Hn & Hb & Hs & Hc & Hl).
    exists best, w', (p :: ps).
    split; [|split; [|split; [|split]]].
    + cbn [RS.trials]. rewrite Ht. cbn [rbind]. exact Hn.
    + destruct (classify_best res cur) as [(S0 & Lt & E) | (_ & E)]; rewrite E in Hb.
      * right. destruct Hb as [-> | [Hb1 Hb2]]; [auto | split; [exact Hb1 | lra]].
      * exact Hb.
    + cbn [restarts]. rewrite Hp. cbn [rbind].
      cbn [RS.gen w1] in Hs. rewrite Hs. reflexivity.
    + rewrite Hc. cbn [RS.calls w1]. rewrite <- app_assoc. reflexivity.
    + cbn. rewrite Hl. reflexivity.
Qed.

End Annealing.

Section AnnealingClaims.

Context {rng : Type}.


(** C2 (as the code computes it).  In every trial the position that is
    perturbed is [solution_data_reference['x']], the starting solution's
    position: the start vectors handed to the minimiser are those of
    [restarts] from that position, whatever the minimiser returned
    before. *)
Theorem perturbs_starting_position
    (s : RS.self) (ext : RS.externals rng) (cost_function : list R -> R) (T : R)
    (N_perturbations : Z) (solution_data_reference : OptimizeResult) (w : RS.world rng)
    (Hrandn : randn_sized ext)
    (Heven : Nat.Even (length (res_x solution_data_reference))) :
  exists best w' ps,
    RS.perturb_and_solve s ext cost_function T N_perturbations
                         solution_data_reference w = Ok (best, w')
    /\ restarts s ext T (Z.to_nat N_perturbations)
                (res_x solution_data_reference) (RS.gen w) = Ok (ps, RS.gen w')
    /\ RS.calls w' = RS.calls w ++ ps
    /\ length ps = Z.to_nat N_perturbations.
Proof.
  unfold RS.perturb_and_solve.
  destruct (trials_spec s ext cost_function T (Z.to_nat N_perturbations)
              (res_x solution_data_reference) solution_data_reference w Hrandn Heven)
    as (best & w' & ps & Hn & _ & Hs & Hc & Hl).
  exists best, w', ps. auto.
Qed.

End AnnealingClaims.


Section AnnealingExamples.

Lemma shifting_minimizer_sized : randn_sized shifting_minimizer.
Proof. intros n g. cbn. apply repeat_length. Qed.

Lemma origin_even : Nat.Even (length (res_x origin_solution)).
Proof. exists 1%nat. reflexivity. Qed.

(** At temperature 0 the thermal kick is 0 and the perturbed vector is the
    position that was decoded. *)
Lemma perturb_T0 a b g :
  RS.perturb curved_box shifting_minimizer 0 [a; b] g = Ok ([a; b], g).
Proof.
  unfold RS.perturb, r2xy, RS.thermal_kick_x, RS.ddVdx.
  cbn [Np.evens Np.odds tl length map RS.second_derivative curved_box
       RS.randn shifting_minimizer repeat].
  assert (K : sqrt (2 * 1.38E-23 * 0 / Rabs (1.602E-19 * 1)) = 0).
  { replace (2 * 1.38E-23 * 0 / Rabs (1.602E-19 * 1)) with 0
      by (unfold Rdiv; ring).
    apply sqrt_0. }
  rewrite K. cbn.
  replace (a + 0 * 1) with a by ring. replace (b + 0 * 1) with b by ring.
  reflexivity.
Qed.

Lemma classify_improved res cur :
  res_status res = 0%Z -> res_fun res < res_fun cur ->
  fst (RS.classify res cur) = res.
Proof.
  intros Hs Hf. destruct (classify_best res cur) as [(_ & _ & E) | (H & _)];
    [exact E | tauto].
Qed.

Lemma classify_not_lower res cur :
  ~ res_fun res < res_fun cur -> fst (RS.classify res cur) = cur.
Proof.
  intros Hf. destruct (classify_best res cur) as [(_ & H & _) | (_ & E)];
    [contradiction | exact E].
Qed.

Lemma first_trial w :
  exists w1,
    RS.trial curved_box shifting_minimizer flat_cost 0 [0; 0] origin_solution w
    = Ok (MkResult [0 + 1; 0 + 1] (-1) 0%Z, w1)
    /\ RS.calls w1 = RS.calls w ++ [[0; 0]] /\ RS.gen w1 = RS.gen w.
Proof.
  destruct (trial_spec curved_box shifting_minimizer flat_cost 0 [0; 0] origin_solution w
              shifting_minimizer_sized origin_even) as (p & g' & Hp & Ht).
  rewrite perturb_T0 in Hp. injection Hp as <- <-.
  rewrite classify_improved in Ht by (cbn; lra || reflexivity).
  eexists. split; [exact Ht|]. split; reflexivity.
Qed.

Lemma second_trial w :
  exists w2,
    RS.trial curved_box shifting_minimizer flat_cost 0 [0; 0]
             (MkResult [0 + 1; 0 + 1] (-1) 0%Z) w
    = Ok (MkResult [0 + 1; 0 + 1] (-1) 0%Z, w2)
    /\ RS.calls w2 = RS.calls w ++ [[0; 0]] /\ RS.gen w2 = RS.gen w.
Proof.
  destruct (trial_spec curved_box shifting_minimizer flat_cost 0 [0; 0]
              (MkResult [0 + 1; 0 + 1] (-1) 0%Z) w
              shifting_minimizer_sized origin_even) as (p & g' & Hp & Ht).
  rewrite perturb_T0 in Hp. injection Hp as <- <-.
  rewrite classify_not_lower in Ht by (cbn; lra).
  eexists. split; [exact Ht|]. split; reflexivity.
Qed.

(** The claim as stated fails: after a first trial that became the best
    result (position [[1; 1]]), the second trial still perturbs the starting
    position [[0; 0]], not the position of the best result. *)
Lemma perturbs_best_counterexample :
  exists best1 w1 best2 w2,
    RS.perturb_and_solve curved_box shifting_minimizer flat_cost 0 1
                         origin_solution quiet_world = Ok (best1, w1)
    /\ RS.perturb_and_solve curved_box shifting_minimizer flat_cost 0 2
                            origin_solution quiet_world = Ok (best2, w2)
    /\ res_x best1 <> res_x origin_solution
    /\ exists p, RS.calls w2 !! 1%nat = Some p
                 /\ RS.perturb curved_box shifting_minimizer 0 (res_x origin_solution)
                               (RS.gen w1) = Ok (p, RS.gen w2)
                 /\ RS.perturb curved_box shifting_minimizer 0 (res_x best1) (RS.gen w1)
                    <> Ok (p, RS.gen w2).
Proof.
  destruct (first_trial quiet_world) as (w1 & Ht1 & Hc1 & Hg1).
  destruct (second_trial w1) as (w2 & Ht2 & Hc2 & Hg2).
  exists (MkResult [0 + 1; 0 + 1] (-1) 0%Z), w1, (MkResult [0 + 1; 0 + 1] (-1) 0%Z), w2.
  split; [|split; [|split]].
  - unfold RS.perturb_and_solve. change (Z.to_nat 1) with 1%nat.
    cbn [RS.trials res_x origin_solution]. rewrite Ht1. reflexivity.
  - unfold RS.perturb_and_solve. change (Z.to_nat 2) with 2%nat.
    cbn [RS.trials res_x origin_solution]. rewrite Ht1. cbn [rbind]. rewrite Ht2.
    reflexivity.
  - cbn. intros H. injection H as H _. lra.
  - exists [0; 0]. split; [|split].
    + rewrite Hc2, Hc1. reflexivity.
    + cbn [res_x origin_solution]. rewrite perturb_T0, Hg2. reflexivity.
    + cbn [res_x]. rewrite perturb_T0. intros H. injection H as H _ _. lra.
Qed.


Lemma perturbs_starting_position_witness :
  exists best w' ps,
    RS.perturb_and_solve curved_box shifting_minimizer flat_cost 0 2
                         origin_solution quiet_world = Ok (best, w')
    /\ restarts curved_box shifting_minimizer 0 (Z.to_nat 2)
                (res_x origin_solution) (RS.gen quiet_world) = Ok (ps, RS.gen w')
    /\ RS.calls w' = RS.calls quiet_world ++ ps
    /\ length ps = Z.to_nat 2.
Proof.
  exact (perturbs_starting_position curved_box shifting_minimizer flat_cost 0 2
           origin_solution quiet_world shifting_minimizer_sized origin_even).
Defined.

End AnnealingExamples.

(** ** The helpers on array objects: what they write *)

Section StoreFrame.

Implicit Types (h : Store.store) (a : Store.ndarray) (b i j : nat) (v x : R).

Lemma cell_set_ne h a i v b j :
  ~ (b = Store.base a /\ j = Store.slot a i) ->
  Store.cell (Store.set h a i v) b j = Store.cell h b j.
Proof.
  intros Hne. unfold Store.cell, Store.set.
  destruct (decide (b = Store.base a)) as [->|Hb].
  - rewrite lookup_alter_eq. destruct (h !! Store.base a) as [buf|]; cbn; [|reflexivity].
    apply list_lookup_insert_ne. intros E. apply Hne. split; [reflexivity | congruence].
  - rewrite lookup_alter_ne by congruence. reflexivity.
Qed.

Lemma cell_set_eq h a i v x :
  Store.cell h (Store.base a) (Store.slot a i) = Some x ->
  Store.cell (Store.set h a i v) (Store.base a) (Store.slot a i) = Some v.
Proof.
  unfold Store.cell, Store.set. rewrite lookup_alter_eq.
  destruct (h !! Store.base a) as [buf|]; cbn; [|discriminate].
  intros Hx. apply list_lookup_insert_eq. apply lookup_lt_is_Some. eauto.
Qed.

Lemma cell_set_is_Some h a i v b j :
  is_Some (Store.cell (Store.set h a i v) b j) <-> is_Some (Store.cell h b j).
Proof.
  unfold Store.cell, Store.set.
  destruct (decide (b = Store.base a)) as [->|Hb].
  - rewrite lookup_alter_eq. destruct (h !! Store.base a) as [buf|]; cbn; [|reflexivity].
    rewrite !lookup_lt_is_Some, length_insert. reflexivity.
  - rewrite lookup_alter_ne by congruence. reflexivity.
Qed.

(** Membership in the index/mask pairs that [set_masked] walks. *)
Lemma in_masked_ops i (m : bool) n (mask : list bool) :
  (i, m) ∈ zip (seq 0 n) mask <-> (i < n)%nat /\ mask !! i = Some m.
Proof.
  rewrite list_elem_of_lookup. split.
  - intros [k Hk]. apply lookup_zip_with_Some in Hk as (i' & m' & E & Hs & Hm).
    injection E as <- <-. apply lookup_seq in Hs as [-> Hlt].
    split; [lia | exact Hm].
  - intros [Hi Hm]. exists i. apply lookup_zip_with_Some.
    exists i, m. split; [reflexivity|]. split; [|exact Hm].
    apply lookup_seq. split; [reflexivity | exact Hi].
Qed.

Lemma set_masked_fold h a mask v :
  Store.set_masked h a mask v
  = fold_left (masked_step a v) (zip (seq 0 (Store.size a)) mask) h.
Proof. reflexivity. Qed.

(** A cell that no masked element addresses keeps its content. *)
Lemma masked_frame a v ops h b j :
  (forall i, (i, true) ∈ ops -> ~ (b = Store.base a /\ j = Store.slot a i)) ->
  Store.cell (fold_left (masked_step a v) ops h) b j = Store.cell h b j.
Proof.
  revert h. induction ops as [|[i m] ops IH]; intros h Hne; [reflexivity|].
  cbn [fold_left]. rewrite IH.
  - unfold masked_step. destruct m; [|reflexivity].
    apply cell_set_ne. apply Hne. left.
  - intros i' Hi'. apply Hne. right. exact Hi'.
Qed.

(** A cell holding the written value keeps it. *)
Lemma masked_stable a v ops h b j :
  Store.cell h b j = Some v ->
  Store.cell (fold_left (masked_step a v) ops h) b j = Some v.
Proof.
  revert h. induction ops as [|[i m] ops IH]; intros h Hv; [exact Hv|].
  cbn [fold_left]. apply IH. unfold masked_step. destruct m; [|exact Hv].
  destruct (decide (b = Store.base a /\ j = Store.slot a i)) as [[-> ->]|Hne].
  - eapply cell_set_eq, Hv.
  - rewrite cell_set_ne by exact Hne. exact Hv.
Qed.

(** A cell that a masked element addresses receives the value. *)
Lemma masked_hit a v ops h i x :
  (i, true) ∈ ops ->
  Store.cell h (Store.base a) (Store.slot a i) = Some x ->
  Store.cell (fold_left (masked_step a v) ops h) (Store.base a) (Store.slot a i) = Some v.
Proof.
  revert h x. induction ops as [|[i' m] ops IH]; intros h x Hin Hx.
  - inversion Hin.
  - cbn [fold_left]. apply elem_of_cons in Hin as [E|Hin].
    + injection E as <- <-. apply masked_stable. cbn. eapply cell_set_eq, Hx.
    + assert (Hs : is_Some (Store.cell (masked_step a v h (i', m))
                                       (Store.base a) (Store.slot a i))).
      { unfold masked_step. destruct m; [|eauto]. apply cell_set_is_Some. eauto. }
      destruct Hs as [x' Hx']. eapply IH; eassumption.
Qed.

Lemma slot_inj a i i' :
  (0 < Store.stride a)%nat -> Store.slot a i = Store.slot a i' -> i = i'.
Proof. unfold Store.slot. intros Hs E. nia. Qed.

Lemma masked_valid a v ops h a' :
  valid h a' -> valid (fold_left (masked_step a v) ops h) a'.
Proof.
  revert h. induction ops as [|[i m] ops IH]; intros h Hv; [exact Hv|].
  cbn [fold_left]. apply IH. unfold masked_step. destruct m; [|exact Hv].
  intros k Hk. apply cell_set_is_Some, Hv, Hk.
Qed.

(** The elements of [a] after [a[mask] = v]. *)
Lemma set_masked_get h a (mask : list bool) v i :
  valid h a -> (0 < Store.stride a)%nat -> (i < Store.size a)%nat ->
  Store.get (Store.set_masked h a mask v) a i
  = if default false (mask !! i) then v else Store.get h a i.
Proof.
  intros Hv Hs Hi. rewrite set_masked_fold. unfold Store.get.
  destruct (Hv i Hi) as [x Hx].
  destruct (mask !! i) as [[|]|] eqn:Hm; cbn [default].
  - erewrite masked_hit; [reflexivity | | exact Hx].
    apply in_masked_ops. split; assumption.
  - rewrite masked_frame; [reflexivity|].
    intros i' Hin [_ E]. apply in_masked_ops in Hin as [_ Hm'].
    apply (slot_inj a) in E; [|exact Hs]. congruence.
  - rewrite masked_frame; [reflexivity|].
    intros i' Hin [_ E]. apply in_masked_ops in Hin as [_ Hm'].
    apply (slot_inj a) in E; [|exact Hs]. congruence.
Qed.

Lemma values_length h a : length (Store.values h a) = Store.size a.
Proof. unfold Store.values. rewrite length_map, length_seq. reflexivity. Qed.

Lemma values_lookup h a i :
  (i < Store.size a)%nat -> Store.values h a !! i = Some (Store.get h a i).
Proof.
  intros Hi. unfold Store.values.
  change (map (Store.get h a) (seq 0 (Store.size a)))
    with (Store.get h a <$> seq 0 (Store.size a)).
  rewrite list_lookup_fmap, lookup_seq_lt by exact Hi. reflexivity.
Qed.

(** [a[p(a)] = v]: the mask is computed from the array itself. *)
Lemma set_masked_self h a (p : R -> bool) v :
  valid h a -> (0 < Store.stride a)%nat ->
  Store.values (Store.set_masked h a (map p (Store.values h a)) v) a
  = map (fun x => if p x then v else x) (Store.values h a).
Proof.
  intros Hv Hs. unfold Store.values at 1 3. rewrite map_map.
  apply map_ext_in. intros i Hi. apply in_seq in Hi.
  rewrite set_masked_get by (try assumption; lia).
  change (map p (Store.values h a)) with (p <$> Store.values h a).
  rewrite list_lookup_fmap, values_lookup by lia. reflexivity.
Qed.

Lemma alloc_fresh h l :
  Store.base (snd (Store.alloc h l)) ∉ dom h.
Proof. cbn. apply is_fresh. Qed.

Lemma alloc_frame h l b j :
  b ∈ dom h -> Store.cell (fst (Store.alloc h l)) b j = Store.cell h b j.
Proof.
  intros Hb. unfold Store.cell. cbn.
  rewrite lookup_insert_ne; [reflexivity|].
  intros E. rewrite <- E in Hb. exact (is_fresh _ Hb).
Qed.

Lemma alloc_values h l :
  Store.values (fst (Store.alloc h l)) (snd (Store.alloc h l)) = l.
Proof.
  apply list_eq. intros i.
  destruct (decide (i < length l)%nat) as [Hlt|Hge].
  - rewrite values_lookup by exact Hlt.
    unfold Store.get, Store.cell, Store.slot. cbn.
    rewrite lookup_insert_eq. replace (i * 1)%nat with i by lia.
    destruct (lookup_lt_is_Some_2 l i Hlt) as [x Hx]. rewrite Hx. reflexivity.
  - rewrite !lookup_ge_None_2; [reflexivity | lia |].
    rewrite values_length. cbn. lia.
Qed.

Lemma valid_dom h a i :
  valid h a -> (i < Store.size a)%nat -> Store.base a ∈ dom h.
Proof.
  intros Hv Hi. destruct (Hv i Hi) as [x Hx]. unfold Store.cell in Hx.
  apply elem_of_dom. destruct (h !! Store.base a); [eauto | discriminate].
Qed.

Lemma values_ext h h' a :
  (forall i, (i < Store.size a)%nat ->
     Store.cell h' (Store.base a) (Store.slot a i)
     = Store.cell h (Store.base a) (Store.slot a i)) ->
  Store.values h' a = Store.values h a.
Proof.
  intros H. unfold Store.values. apply map_ext_in. intros i Hi. apply in_seq in Hi.
  unfold Store.get. rewrite H by lia. reflexivity.
Qed.

End StoreFrame.

(** ** Views and the value-level codec *)

Section StoreViews.

Lemma div2_lt n i : ((i < Nat.div2 (S n))%nat <-> (2 * i < n)%nat)
                    /\ ((i < Nat.div2 n)%nat <-> (2 * i + 1 < n)%nat).
Proof.
  rewrite !Nat.div2_div.
  pose proof (Nat.div_mod_eq (S n) 2). pose proof (Nat.div_mod_eq n 2).
  pose proof (Nat.mod_upper_bound (S n) 2). pose proof (Nat.mod_upper_bound n 2).
  lia.
Qed.

(** The slices that [r2xy] returns hold what the value-level [r2xy]
    computes from the elements of [r]. *)
Lemma r2xy_views h (r : Store.ndarray) :
  let '(_, (x, y)) := Store.r2xy h r in
  (Store.values h x, Store.values h y) = r2xy (Store.values h r).
Proof.
  change ((Store.values h (Store.evens r), Store.values h (Store.odds r))
          = r2xy (Store.values h r)).
  unfold r2xy. f_equal.
  - apply list_eq. intros i. rewrite evens_lookup.
    pose proof (proj1 (div2_lt (Store.size r) i)) as Hd.
    destruct (decide (2 * i < Store.size r)%nat) as [Hlt|Hge].
    + rewrite (values_lookup h r) by exact Hlt.
      rewrite values_lookup by (apply Hd, Hlt).
      unfold Store.get, Store.slot. cbn. do 3 f_equal. lia.
    + rewrite !lookup_ge_None_2; [reflexivity | |].
      * rewrite values_length. lia.
      * rewrite values_length. cbn [Store.evens Store.size]. lia.
  - apply list_eq. intros i. rewrite odds_lookup.
    pose proof (proj2 (div2_lt (Store.size r) i)) as Hd.
    destruct (decide (2 * i + 1 < Store.size r)%nat) as [Hlt|Hge].
    + rewrite (values_lookup h r) by exact Hlt.
      rewrite values_lookup by (apply Hd, Hlt).
      unfold Store.get, Store.slot. cbn. do 3 f_equal. lia.
    + rewrite !lookup_ge_None_2; [reflexivity | |].
      * rewrite values_length. lia.
      * rewrite values_length. cbn [Store.odds Store.size]. lia.
Qed.

End StoreViews.


Section StoreClaims.

Lemma map_into_domain_spec (h : Store.store) (xi yi : Store.ndarray)
    (xbounds ybounds : R * R) :
  valid h yi -> (0 < Store.stride yi)%nat ->
  let h' := fst (Store.map_into_domain h xi yi xbounds ybounds) in
  let xi' := fst (snd (Store.map_into_domain h xi yi xbounds ybounds)) in
  let yi' := snd (snd (Store.map_into_domain h xi yi xbounds ybounds)) in
  yi' = yi
  /\ (Store.base xi' ∉ dom h)
  /\ (forall b j, b ∈ dom h -> ~ addresses yi b j ->
        Store.cell h' b j = Store.cell h b j)
  /\ Store.values h' yi = map (clamp (fst ybounds) (snd ybounds)) (Store.values h yi)
  /\ Store.values h' xi'
     = map (fun x => Rabs (snd xbounds - fst xbounds
                           - Np.remainder (x - snd xbounds)
                                          (2 * (snd xbounds - fst xbounds)))
                     + fst xbounds)
           (Store.values h xi).
Proof.
  intros Hv Hs. destruct xbounds as [left_boundary right_boundary].
  destruct ybounds as [bottom_boundary top_boundary].
  unfold Store.map_into_domain. cbn [fst snd].
  set (xs := map _ (Store.values h xi)).
  pose proof (alloc_fresh h xs) as Hfresh.
  pose proof (alloc_frame h xs) as Hframe.
  pose proof (alloc_values h xs) as Hxs.
  destruct (Store.alloc h xs) as [h1 xi1]. cbn [fst snd] in *.
  assert (Hv1 : valid h1 yi).
  { intros i Hi. rewrite Hframe; [apply Hv, Hi | eapply valid_dom; eassumption]. }
  assert (E1 : Store.values h1 yi = Store.values h yi).
  { apply values_ext. intros i Hi. apply Hframe. eapply valid_dom; eassumption. }
  set (h2 := Store.set_masked h1 yi _ top_boundary).
  assert (Hv2 : valid h2 yi) by (apply masked_valid, Hv1).
  split; [reflexivity|]. split; [exact Hfresh|]. split.
  - intros b j Hb Hna.
    rewrite set_masked_fold, masked_frame.
    + unfold h2. rewrite set_masked_fold, masked_frame; [apply Hframe, Hb|].
      intros i Hin [Eb Ej]. apply in_masked_ops in Hin as [Hi _].
      apply Hna. split; [exact Eb | exists i; auto].
    + intros i Hin [Eb Ej]. apply in_masked_ops in Hin as [Hi _].
      apply Hna. split; [exact Eb | exists i; auto].
  - split.
    + rewrite (set_masked_self h2 yi (fun v => Rltb v bottom_boundary)) by assumption.
      unfold h2.
      rewrite (set_masked_self h1 yi (fun v => Rltb top_boundary v)) by assumption.
      rewrite E1, map_map. reflexivity.
    + transitivity (Store.values h1 xi1); [|rewrite Hxs; reflexivity].
      apply values_ext. intros k Hk.
      assert (Hoff : forall i, (i < Store.size yi)%nat -> Store.base xi1 <> Store.base yi).
      { intros i Hi E. apply Hfresh. rewrite E. eapply valid_dom; eassumption. }
      rewrite set_masked_fold, masked_frame.
      * unfold h2. rewrite set_masked_fold, masked_frame; [reflexivity|].
        intros i Hin [Eb _]. apply in_masked_ops in Hin as [Hi _]. exact (Hoff i Hi Eb).
      * intros i Hin [Eb _]. apply in_masked_ops in Hin as [Hi _]. exact (Hoff i Hi Eb).
Qed.

Lemma xy2r_values (h h' : Store.store) (x y a : Store.ndarray) :
  Store.xy2r h x y = Ok (h', a) ->
  xy2r (Store.values h x) (Store.values h y) = Ok (Store.values h' a).
Proof.
  unfold Store.xy2r. destruct (xy2r (Store.values h x) (Store.values h y)) as [r|e];
    cbn [rbind]; [|discriminate].
  intros E. pose proof (alloc_values h r) as Hr.
  destruct (Store.alloc h r) as [h1 a1]. cbn [fst snd] in Hr.
  injection E as <- <-. rewrite Hr. reflexivity.
Qed.

Lemma xy2r_frame (h h' : Store.store) (x y a : Store.ndarray) :
  Store.xy2r h x y = Ok (h', a) ->
  (Store.base a ∉ dom h)
  /\ forall b j, b ∈ dom h -> Store.cell h' b j = Store.cell h b j.
Proof.
  unfold Store.xy2r. destruct (xy2r (Store.values h x) (Store.values h y)) as [r|e];
    cbn [rbind]; [|discriminate].
  intros E. injection E as E1 E2.
  pose proof (alloc_fresh h r) as Hf. pose proof (alloc_frame h r) as Hfr.
  cbn [snd Store.alloc] in Hf, E2. cbn [fst Store.alloc] in Hfr, E1.
  rewrite <- E2, <- E1. split; [exact Hf | exact Hfr].
Qed.

(** C10 (as the code computes it).  [r2xy] writes nothing (its results are
    views of [r]); [xy2r] writes only the new array it returns;
    [map_into_domain] binds [xi] to a new array and leaves every cell that is
    not an element of [yi] as it was, but it assigns to [yi] in place: each
    element of the caller's [yi] above [top_boundary] becomes
    [top_boundary], then each below [bottom_boundary] becomes
    [bottom_boundary].  What the three return is a function of the
    elements of their arguments and of the bounds alone: nothing else is
    read. *)
Theorem helpers_write_only_yi (h : Store.store) (r x y xi yi : Store.ndarray)
    (xbounds ybounds : R * R)
    (Hvalid : valid h yi) (Hstride : (0 < Store.stride yi)%nat) :
  (fst (Store.r2xy h r) = h
   /\ (Store.values h (fst (snd (Store.r2xy h r))),
       Store.values h (snd (snd (Store.r2xy h r)))) = r2xy (Store.values h r))
  /\ (forall h' a, Store.xy2r h x y = Ok (h', a) ->
        (Store.base a ∉ dom h)
        /\ (forall b j, b ∈ dom h -> Store.cell h' b j = Store.cell h b j)
        /\ xy2r (Store.values h x) (Store.values h y) = Ok (Store.values h' a))
  /\ (let h' := fst (Store.map_into_domain h xi yi xbounds ybounds) in
      let xi' := fst (snd (Store.map_into_domain h xi yi xbounds ybounds)) in
      let yi' := snd (snd (Store.map_into_domain h xi yi xbounds ybounds)) in
      yi' = yi
      /\ (Store.base xi' ∉ dom h)
      /\ (forall b j, b ∈ dom h -> ~ addresses yi b j ->
            Store.cell h' b j = Store.cell h b j)
      /\ (Store.base xi ∈ dom h ->
          (forall i, (i < Store.size xi)%nat ->
             ~ addresses yi (Store.base xi) (Store.slot xi i)) ->
          Store.values h' xi = Store.values h xi)
      /\ Store.values h' yi
         = map (clamp (fst ybounds) (snd ybounds)) (Store.values h yi)
      /\ Store.values h' xi'
         = map (fun v => Rabs (snd xbounds - fst xbounds
                               - Np.remainder (v - snd xbounds)
                                              (2 * (snd xbounds - fst xbounds)))
                         + fst xbounds)
               (Store.values h xi)).
Proof.
  split; [split; [reflexivity | exact (r2xy_views h r)]|].
  split.
  { intros h' a Hxy. destruct (xy2r_frame h h' x y a Hxy) as [F1 F2].
    split; [exact F1|]. split; [exact F2 | apply xy2r_values, Hxy]. }
  destruct (map_into_domain_spec h xi yi xbounds ybounds Hvalid Hstride)
    as (H1 & H2 & H3 & H4 & H5).
  cbv zeta. split; [exact H1|]. split; [exact H2|]. split; [exact H3|].
  split; [|split; [exact H4 | exact H5]].
  intros Hb Hdisj. apply values_ext. intros i Hi. apply H3; [exact Hb | apply Hdisj, Hi].
Qed.

Lemma two_arrays_valid : valid two_arrays array_1.
Proof.
  intros i Hi. cbn in Hi. destruct i; [|lia]. exists 2. reflexivity.
Qed.

Lemma two_arrays_values : Store.values two_arrays array_1 = [2].
Proof. reflexivity. Qed.

Lemma clamp_2 : clamp (-1) 1 2 = 1.
Proof.
  unfold clamp, Rltb. destruct (Rlt_dec 1 2); [|lra].
  destruct (Rlt_dec 1 (-1)); [lra | reflexivity].
Qed.

(** The claim as stated fails: [map_into_domain] changes its argument
    [yi = [2]] to [[1]] when the bounds are [(-1, 1)]. *)
Lemma map_into_domain_mutates_yi :
  Store.values two_arrays array_1 = [2]
  /\ Store.values (fst (Store.map_into_domain two_arrays array_0 array_1 (-1, 1) (-1, 1)))
                  array_1 = [1]
  /\ Store.values (fst (Store.map_into_domain two_arrays array_0 array_1 (-1, 1) (-1, 1)))
                  array_1 <> Store.values two_arrays array_1.
Proof.
  assert (E : Store.values
                (fst (Store.map_into_domain two_arrays array_0 array_1 (-1, 1) (-1, 1)))
                array_1 = [1]).
  { destruct (map_into_domain_spec two_arrays array_0 array_1 (-1, 1) (-1, 1)
                two_arrays_valid ltac:(cbn; lia)) as (_ & _ & _ & H & _).
    cbv zeta in H. rewrite H, two_arrays_values. cbn [map fst snd].
    rewrite clamp_2. reflexivity. }
  split; [exact two_arrays_values|]. split; [exact E|].
  rewrite E, two_arrays_values. intros H. injection H as H. lra.
Qed.

Lemma helpers_write_only_yi_witness :
  valid two_arrays array_1
  /\ Store.values (fst (Store.map_into_domain two_arrays array_0 array_1 (-1, 1) (-1, 1)))
                  array_0 = Store.values two_arrays array_0.
Proof.
  split; [exact two_arrays_valid|].
  refine (proj1 (proj2 (proj2 (proj2 (proj2 (proj2
            (helpers_write_only_yi two_arrays array_0 array_0 array_0 array_0 array_1
               (-1, 1) (-1, 1) two_arrays_valid _)))))) _ _).
  - cbn. lia.
  - apply elem_of_dom. exists [0]. reflexivity.
  - intros i Hi [Hb _]. cbn in Hb. discriminate.
Defined.

End StoreClaims.

(** * Part III: further properties of the code *)

(** ** The periodic axis of [ResonatorSolver] *)

Section PeriodicAxis.

Lemma remainder_shift x m (n : Z) :
  0 < m -> Np.remainder (x + IZR n * m) m = Np.remainder x m.
Proof.
  intros Hm. unfold Np.remainder.
  replace (Int_part ((x + IZR n * m) / m)) with (Int_part (x / m) + n)%Z.
  - rewrite plus_IZR. ring.
  - apply Int_part_spec. rewrite plus_IZR.
    replace ((x + IZR n * m) / m) with (x / m + IZR n) by (field; lra).
    destruct (base_Int_part (x / m)) as [H1 H2]. split; lra.
Qed.

Lemma wrap_shift L v (n : Z) : 0 < L -> wrap L (v + IZR n * L) = wrap L v.
Proof.
  intros HL. unfold wrap. replace (L / 2 - - L / 2) with L by field.
  replace (v + IZR n * L - - L / 2) with (v - - L / 2 + IZR n * L) by ring.
  rewrite remainder_shift by exact HL. reflexivity.
Qed.

(** One element of [map_y_into_domain] for explicit bounds. *)
Lemma map_y_element lo hi v :
  lo < hi ->
  let v' := lo + Np.remainder (v - lo) (hi - lo) in
  lo <= v' < hi
  /\ (exists n : Z, v' = v - IZR n * (hi - lo))
  /\ (lo <= v < hi -> v' = v).
Proof.
  intros H v'. unfold v'.
  destruct (remainder_spec (v - lo) (hi - lo) ltac:(lra)) as [[H1 H2] [n Hn]].
  split; [lra|]. split.
  - exists n. rewrite Hn. ring.
  - intros Hv. rewrite remainder_small by lra. ring.
Qed.

(** [map_y_into_domain] with bounds [lo < hi]: every returned coordinate
    lies in [[lo, hi)] and differs from the given one by a whole number of
    periods [hi - lo]; coordinates already in [[lo, hi)] are returned as they
    are, so mapping twice is mapping once; and without bounds the domain is
    [[-box_y_length/2, box_y_length/2)]. *)
Theorem map_y_into_domain_range (s : RS.self) (y : list R) (lo hi : R)
    (Hbounds : lo < hi) :
  Forall2 (fun v v' =>
             lo <= v' < hi
             /\ (exists n : Z, v' = v - IZR n * (hi - lo))
             /\ (lo <= v < hi -> v' = v))
          y (RS.map_y_into_domain s y (Some (lo, hi)))
  /\ RS.map_y_into_domain s (RS.map_y_into_domain s y (Some (lo, hi))) (Some (lo, hi))
     = RS.map_y_into_domain s y (Some (lo, hi))
  /\ RS.map_y_into_domain s y None
     = RS.map_y_into_domain s y
         (Some (- RS.box_y_length s / 2, RS.box_y_length s / 2)).
Proof.
  split; [|split; [|reflexivity]].
  - unfold RS.map_y_into_domain. cbn [fst snd].
    induction y as [|v y IH]; cbn [map]; constructor; [|exact IH].
    apply map_y_element, Hbounds.
  - unfold RS.map_y_into_domain. cbn [fst snd]. rewrite map_map.
    apply map_ext. intros v.
    destruct (map_y_element lo hi v Hbounds) as (Hr & _ & _).
    apply (map_y_element lo hi _ Hbounds). exact Hr.
Qed.

Lemma map_y_into_domain_range_witness :
  -2 < 2
  /\ RS.map_y_into_domain periodic_box
       (RS.map_y_into_domain periodic_box [3; 0] (Some (-2, 2))) (Some (-2, 2))
     = RS.map_y_into_domain periodic_box [3; 0] (Some (-2, 2)).
Proof.
  assert (H : -2 < 2) by lra.
  split; [exact H|].
  exact (proj1 (proj2 (map_y_into_domain_range periodic_box [3; 0] (-2) 2 H))).
Defined.

Lemma sq_le_image L e (m : Z) :
  0 < L -> Rabs e <= L / 2 -> e ^ 2 <= (e + IZR m * L) ^ 2.
Proof.
  intros HL He. apply Rabs_le_between in He.
  destruct (Z.lt_trichotomy m 0) as [Hm | [-> | Hm]].
  - assert (Hm1 : IZR m <= -1) by (apply IZR_le; lia).
    assert (Ht : IZR m * L <= - L) by nra.
    set (t := IZR m * L) in *.
    assert (0 <= (- t) * (- (2 * e + t))) by (apply Rmult_le_pos; lra).
    nra.
  - simpl. replace (e + 0 * L) with e by ring. lra.
  - assert (Hm1 : 1 <= IZR m) by (apply IZR_le; lia).
    assert (Ht : L <= IZR m * L) by nra.
    set (t := IZR m * L) in *.
    assert (0 <= t * (2 * e + t)) by (apply Rmult_le_pos; lra).
    nra.
Qed.

(** The wrapped y-difference that the code selects, in terms of the
    coordinates before wrapping. *)
Lemma eff_dy_wrapped L dx u w :
  0 < L ->
  let e := eff_dy L dx (wrap L u) (wrap L w) in
  Rabs e <= L / 2
  /\ (exists n : Z, e = u - w + IZR n * L)
  /\ forall dx', min_image L dx' (wrap L u) (wrap L w) = sqrt (dx' ^ 2 + e ^ 2).
Proof.
  intros HL e.
  destruct (wrap_spec L HL u) as [Hu [nu Eu]].
  destruct (wrap_spec L HL w) as [Hw [nw Ew]].
  destruct (eff_dy_rep L HL dx (wrap L u) (wrap L w) Hu Hw) as (Hb & [n En] & _).
  fold e in Hb, En.
  split; [exact Hb|]. split.
  - exists (n - nu + nw)%Z. rewrite plus_IZR, minus_IZR, En, Eu, Ew. ring.
  - intros dx'. apply min_image_eff; assumption.
Qed.

Lemma nth_map_y s yi a :
  (a < length yi)%nat ->
  nth a (RS.map_y_into_domain s yi None) 0 = wrap (RS.box_y_length s) (nth a yi 0).
Proof. intros Ha. rewrite RS_map_y. apply nth_map_R, Ha. Qed.

(** For as many x as y coordinates, the distance that [Vee] and
    [grad_Vee] use (the entry of
    [calculate_Rij] on the coordinates mapped into the domain) is the
    distance to the nearest periodic image of the other charge: no shift of
    the y-difference by a whole number of periods gives a smaller distance,
    and one of them gives exactly this one.  The matrix is symmetric and its
    diagonal is zero. *)
Theorem calculate_Rij_nearest_image (s : RS.self) (xi yi : list R) (a b : nat)
    (HL : 0 < RS.box_y_length s)
    (Hlen : length xi = length yi)
    (Ha : (a < length yi)%nat) (Hb : (b < length yi)%nat) :
  let L := RS.box_y_length s in
  let yi' := RS.map_y_into_domain s yi None in
  let dx := nth a xi 0 - nth b xi 0 in
  let dy := nth a yi 0 - nth b yi 0 in
  let d := Np.entry (RS.calculate_Rij s xi yi') a b in
  (forall n : Z, d <= sqrt (dx ^ 2 + (dy + IZR n * L) ^ 2))
  /\ (exists n : Z, d = sqrt (dx ^ 2 + (dy + IZR n * L) ^ 2))
  /\ Np.entry (RS.calculate_Rij s xi yi') b a = d
  /\ Np.entry (RS.calculate_Rij s xi yi') a a = 0.
Proof.
  intros L yi' dx dy d. unfold d, yi'.
  rewrite !RS_Rij_entry, !nth_map_y by assumption. fold L.
  destruct (eff_dy_wrapped L (nth b xi 0 - nth a xi 0) (nth a yi 0) (nth b yi 0) HL)
    as (Hbd & [n0 En0] & Hmin).
  set (e := eff_dy L (nth b xi 0 - nth a xi 0) (wrap L (nth a yi 0)) (wrap L (nth b yi 0)))
    in *.
  assert (Hdx : (nth b xi 0 - nth a xi 0) ^ 2 = dx ^ 2) by (unfold dx; ring).
  split; [|split; [|split]].
  - intros n. rewrite Hmin, Hdx. apply sqrt_le_1_alt.
    replace (dy + IZR n * L) with (e + IZR (n - n0) * L)
      by (rewrite minus_IZR, En0; unfold dy; ring).
    pose proof (sq_le_image L e (n - n0) HL Hbd). lra.
  - exists n0. rewrite Hmin, Hdx, En0. reflexivity.
  - apply min_image_sym. ring.
  - destruct (wrap_spec L HL (nth a yi 0)) as [Hw _].
    rewrite (min_image_rep L HL _ _ _ 0); try assumption.
    + replace ((nth a xi 0 - nth a xi 0) ^ 2 + 0 ^ 2) with 0 by ring. apply sqrt_0.
    + rewrite Rabs_R0. lra.
    + exists 0%Z. simpl. ring.
Qed.

Lemma calculate_Rij_nearest_image_witness :
  0 < RS.box_y_length periodic_box
  /\ length [0; 0] = length [0; 3]
  /\ Np.entry (RS.calculate_Rij periodic_box [0; 0]
                 (RS.map_y_into_domain periodic_box [0; 3] None)) 1 0
     = Np.entry (RS.calculate_Rij periodic_box [0; 0]
                   (RS.map_y_into_domain periodic_box [0; 3] None)) 0 1.
Proof.
  assert (H : 0 < RS.box_y_length periodic_box) by (cbn; lra).
  split; [exact H|]. split; [reflexivity|].
  refine (proj1 (proj2 (proj2 (calculate_Rij_nearest_image periodic_box [0; 0] [0; 3]
                                 0 1 H eq_refl _ _)))); cbn; lia.
Defined.

(** [calculate_YiYj] on coordinates mapped into the domain, for as many
    x as y coordinates: each entry is a
    y-difference of the two charges up to a whole number of periods, at most
    half a period in absolute value, the matrix is antisymmetric, and it is
    the y-leg of the distance of [calculate_Rij]: [Rij^2 = dx^2 + YiYj^2]. *)
Theorem calculate_YiYj_consistent (s : RS.self) (xi yi : list R) (a b : nat)
    (HL : 0 < RS.box_y_length s)
    (Hlen : length xi = length yi)
    (Ha : (a < length yi)%nat) (Hb : (b < length yi)%nat) :
  let L := RS.box_y_length s in
  let yi' := RS.map_y_into_domain s yi None in
  let D := Np.entry (RS.calculate_YiYj s xi yi') a b in
  Rabs D <= L / 2
  /\ (exists n : Z, D = nth a yi 0 - nth b yi 0 + IZR n * L)
  /\ Np.entry (RS.calculate_YiYj s xi yi') b a = - D
  /\ Np.entry (RS.calculate_Rij s xi yi') a b ^ 2
     = (nth a xi 0 - nth b xi 0) ^ 2 + D ^ 2.
Proof.
  intros L yi' D. unfold D, yi'.
  rewrite !RS_YiYj_entry, !RS_Rij_entry, !nth_map_y by assumption. fold L.
  destruct (eff_dy_wrapped L (nth b xi 0 - nth a xi 0) (nth a yi 0) (nth b yi 0) HL)
    as (Hbd & Hn & Hmin).
  split; [exact Hbd|]. split; [exact Hn|]. split.
  - apply eff_dy_antisym. ring.
  - rewrite Hmin.
    set (e := eff_dy L _ _ _).
    replace (sqrt ((nth b xi 0 - nth a xi 0) ^ 2 + e ^ 2) ^ 2)
      with (sqrt ((nth b xi 0 - nth a xi 0) ^ 2 + e ^ 2)
            * sqrt ((nth b xi 0 - nth a xi 0) ^ 2 + e ^ 2)) by ring.
    rewrite sqrt_sqrt; [ring|].
    pose proof (pow2_ge_0 (nth b xi 0 - nth a xi 0)). pose proof (pow2_ge_0 e). lra.
Qed.

Lemma calculate_YiYj_consistent_witness :
  0 < RS.box_y_length periodic_box
  /\ length [0; 0] = length [0; 3]
  /\ Rabs (Np.entry (RS.calculate_YiYj periodic_box [0; 0]
                       (RS.map_y_into_domain periodic_box [0; 3] None)) 0 1)
     <= RS.box_y_length periodic_box / 2.
Proof.
  assert (H : 0 < RS.box_y_length periodic_box) by (cbn; lra).
  split; [exact H|]. split; [reflexivity|].
  refine (proj1 (calculate_YiYj_consistent periodic_box [0; 0] [0; 3] 0 1 H eq_refl _ _));
    cbn; lia.
Defined.

Lemma map_insert_same (f : R -> R) (l : list R) k v v' :
  l !! k = Some v -> f v' = f v -> map f (<[k := v']> l) = map f l.
Proof.
  revert k. induction l as [|x l IH]; intros [|k] Hk Hf; cbn in *; try discriminate.
  - injection Hk as ->. rewrite Hf. reflexivity.
  - f_equal. apply IH; assumption.
Qed.

(** Moving one charge by a whole number of periods along y changes neither
    [Vtotal] nor [grad_total] (no two charges coinciding). *)
Theorem whole_period_shift (s : RS.self) (r : list R) (k : nat) (y : R) (n : Z)
    (HL : 0 < RS.box_y_length s)
    (Hdist : RS_distances_nonzero s r)
    (Hy : r !! (2 * k + 1)%nat = Some y) :
  let r' := <[(2 * k + 1)%nat := y + IZR n * RS.box_y_length s]> r in
  RS.Vtotal s r' = RS.Vtotal s r /\ RS.grad_total s r' = RS.grad_total s r.
Proof.
  intros r'.
  assert (He : Np.evens r' = Np.evens r) by apply evens_insert_odd.
  assert (Hm : RS.map_y_into_domain s (Np.odds r') None
               = RS.map_y_into_domain s (Np.odds r) None).
  { unfold r'. rewrite odds_insert_odd, !RS_map_y.
    apply (map_insert_same _ _ _ y).
    - rewrite odds_lookup. exact Hy.
    - apply wrap_shift, HL. }
  assert (Hlen : length r' = length r) by apply length_insert.
  split.
  - unfold RS.Vtotal, RS.Vee, RS.Velectrostatic, RS.V. rewrite He, Hm. reflexivity.
  - unfold RS.grad_total, RS.grad_Vee, RS.dVdx, RS.dVdy. rewrite He, Hm, Hlen. reflexivity.
Qed.

Lemma whole_period_shift_witness :
  0 < RS.box_y_length periodic_box
  /\ RS_distances_nonzero periodic_box [0; 0; 1; 0]
  /\ RS.Vtotal periodic_box (<[(2 * 0 + 1)%nat := 0 + IZR 3 * RS.box_y_length periodic_box]>
                               [0; 0; 1; 0])
     = RS.Vtotal periodic_box [0; 0; 1; 0].
Proof.
  assert (H : 0 < RS.box_y_length periodic_box) by (cbn; lra).
  split; [exact H|]. split; [exact unit_pair_distances_rs|].
  exact (proj1 (whole_period_shift periodic_box [0; 0; 1; 0] 0 0 3 H
                  unit_pair_distances_rs eq_refl)).
Defined.

Lemma min_image_translate L dx u w c :
  0 < L ->
  min_image L dx (wrap L (u + c)) (wrap L (w + c))
  = min_image L dx (wrap L u) (wrap L w).
Proof.
  intros HL.
  destruct (eff_dy_wrapped L dx u w HL) as (Hb & [n En] & Hmin).
  rewrite (Hmin dx).
  destruct (wrap_spec L HL (u + c)) as [Hu [nu Eu]].
  destruct (wrap_spec L HL (w + c)) as [Hw [nw Ew]].
  apply min_image_rep; try assumption.
  exists (n + nu - nw)%Z. rewrite minus_IZR, plus_IZR, En, Eu, Ew. ring.
Qed.

(** [Vtotal] of [ResonatorSolver] is invariant under a common translation of
    all charges along the periodic axis, by any amount (no two charges
    coinciding). *)
Theorem y_translation_invariance (s : RS.self) (r : list R) (c : R)
    (HL : 0 < RS.box_y_length s) (Heven : Nat.Even (length r))
    (Hdist : RS_distances_nonzero s r) :
  RS.Vtotal s (interleave (Np.evens r) (map (fun y => y + c) (Np.odds r)))
  = RS.Vtotal s r.
Proof.
  pose proof (even_halves r Heven) as HN.
  assert (Hl : length (Np.evens r) = length (map (fun y => y + c) (Np.odds r)))
    by (rewrite length_map; exact HN).
  rewrite !RS_Vtotal_sum;
    [| exact HN | rewrite evens_interleave, odds_interleave by exact Hl; exact Hl ].
  rewrite evens_interleave, odds_interleave by exact Hl.
  unfold RS_energy. f_equal. f_equal.
  apply sum_upto_ext. intros a Ha. apply sum_upto_ext. intros b Hb.
  destruct (a =? b)%nat; [reflexivity|].
  rewrite !(nth_map_R (fun y => y + c)) by lia.
  rewrite min_image_translate by exact HL. reflexivity.
Qed.

Lemma y_translation_invariance_witness :
  0 < RS.box_y_length periodic_box
  /\ Nat.Even (length [0; 0; 1; 0])
  /\ RS_distances_nonzero periodic_box [0; 0; 1; 0]
  /\ RS.Vtotal periodic_box
       (interleave (Np.evens [0; 0; 1; 0]) (map (fun y => y + 7) (Np.odds [0; 0; 1; 0])))
     = RS.Vtotal periodic_box [0; 0; 1; 0].
Proof.
  assert (H : 0 < RS.box_y_length periodic_box) by (cbn; lra).
  assert (He : Nat.Even (length [0; 0; 1; 0])) by (exists 2%nat; reflexivity).
  split; [exact H|]. split; [exact He|]. split; [exact unit_pair_distances_rs|].
  exact (y_translation_invariance periodic_box [0; 0; 1; 0] 7 H He unit_pair_distances_rs).
Defined.

End PeriodicAxis.

(** ** The pair interaction *)

Section PairInteraction.

(** A symmetric double sum off the diagonal is twice the sum over the
    pairs [b < a]. *)
Lemma sum_sym_offdiag N (f : nat -> nat -> R) :
  (forall a b, f a b = f b a) ->
  Np.sum_upto N (fun a => Np.sum_upto N (fun b => if (a =? b)%nat then 0 else f a b))
  = 2 * Np.sum_upto N (fun a => Np.sum_upto a (fun b => f a b)).
Proof.
  intros Hsym. induction N as [|N IH]; [cbn; ring|].
  cbn [Np.sum_upto]. rewrite Nat.eqb_refl.
  rewrite (sum_upto_ext N _ (fun a =>
             Np.sum_upto N (fun b => if (a =? b)%nat then 0 else f a b) + f a N)).
  2:{ intros a Ha. destruct (Nat.eqb_spec a N); [lia | reflexivity]. }
  rewrite sum_upto_plus, IH.
  rewrite (sum_upto_ext N (fun b => if (N =? b)%nat then 0 else f N b) (fun b => f b N)).
  2:{ intros b Hb. destruct (Nat.eqb_spec N b); [lia | apply Hsym]. }
  rewrite (sum_upto_ext N (fun b => f N b) (fun b => f b N)) by (intros; apply Hsym).
  ring.
Qed.

(** An antisymmetric double sum vanishes. *)
Lemma sum_antisym N (f : nat -> nat -> R) :
  (forall a b, f a b = - f b a) ->
  Np.sum_upto N (fun b => Np.sum_upto N (fun a => f a b)) = 0.
Proof.
  intros Hanti. induction N as [|N IH]; [reflexivity|].
  cbn [Np.sum_upto].
  rewrite sum_upto_plus, IH.
  assert (HNN : f N N = 0) by (pose proof (Hanti N N); lra).
  rewrite HNN.
  rewrite (sum_upto_ext N (fun a => f a N) (fun a => - 1 * f N a)).
  2:{ intros a _. rewrite (Hanti a N). ring. }
  rewrite sum_upto_scal. ring.
Qed.

(** The factor 1/2 of [Vee] makes [Vtotal] count every pair of charges
    once: [Vtotal] is the sum of the field values at the charges plus
    [k*qe/r] for each unordered pair at distance [r]. *)
Theorem Vtotal_counts_each_pair_once (s : EP.self) (r : list R)
    (Heven : Nat.Even (length r)) (Hdist : EP_distances_nonzero r) :
  let xi := Np.evens r in
  let yi := Np.odds r in
  EP.Vtotal s r
  = Np.sum1 (EP.V s xi yi)
    + Np.sum_upto (length xi) (fun a => Np.sum_upto a (fun b =>
        coulomb_k * EP.qe
        / sqrt ((nth b xi 0 - nth a xi 0) ^ 2 + (nth a yi 0 - nth b yi 0) ^ 2))).
Proof.
  intros xi yi. pose proof (even_halves r Heven) as HN.
  pose proof qe_pos as Hq. pose proof four_pi_eps0_pos as Hp.
  rewrite EP_Vtotal_sum by exact HN. fold xi yi. unfold EP_energy.
  rewrite (sum_sym_offdiag (length xi)
             (fun a b => 1 / 2 * EP.qe ^ 2 / (4 * PI * EP.eps0) * 1
                         / sqrt ((nth b xi 0 - nth a xi 0) ^ 2
                                 + (nth a yi 0 - nth b yi 0) ^ 2))).
  2:{ intros a b. cbv beta.
      replace ((nth a xi 0 - nth b xi 0) ^ 2 + (nth b yi 0 - nth a yi 0) ^ 2)
        with ((nth b xi 0 - nth a xi 0) ^ 2 + (nth a yi 0 - nth b yi 0) ^ 2) by ring.
      reflexivity. }
  unfold EP.V. rewrite sum1_nth, length_zip_with_same by exact HN.
  rewrite (sum_upto_ext (length xi)
             (fun i => nth i (zip_with (EP.interpolator s 0 0) xi yi) 0)
             (fun i => EP.interpolator s 0 0 (nth i xi 0) (nth i yi 0)))
    by (intros i Hi; apply nth_zip_with; unfold xi, yi in *; lia).
  rewrite (sum_upto_ext (length xi)
             (fun a => Np.sum_upto a (fun b =>
                coulomb_k * EP.qe
                / sqrt ((nth b xi 0 - nth a xi 0) ^ 2 + (nth a yi 0 - nth b yi 0) ^ 2)))
             (fun a => (2 / EP.qe) * Np.sum_upto a (fun b =>
                1 / 2 * EP.qe ^ 2 / (4 * PI * EP.eps0) * 1
                / sqrt ((nth b xi 0 - nth a xi 0) ^ 2 + (nth a yi 0 - nth b yi 0) ^ 2)))).
  2:{ intros a _. rewrite <- sum_upto_scal. apply sum_upto_ext. intros b _.
      unfold coulomb_k, Rdiv.
      generalize (/ sqrt ((nth b xi 0 - nth a xi 0) ^ 2 + (nth a yi 0 - nth b yi 0) ^ 2)).
      intros iS. field.
      repeat split; first [apply PI_neq0 | pose proof eps0_pos; lra | lra]. }
  rewrite sum_upto_scal. field. lra.
Qed.

Lemma Vtotal_counts_each_pair_once_witness :
  Nat.Even (length [0; 0; 1; 0])
  /\ EP_distances_nonzero [0; 0; 1; 0]
  /\ EP.Vtotal zero_field [0; 0; 1; 0]
     = Np.sum1 (EP.V zero_field (Np.evens [0; 0; 1; 0]) (Np.odds [0; 0; 1; 0]))
       + Np.sum_upto (length (Np.evens [0; 0; 1; 0])) (fun a => Np.sum_upto a (fun b =>
           coulomb_k * EP.qe
           / sqrt ((nth b (Np.evens [0; 0; 1; 0]) 0 - nth a (Np.evens [0; 0; 1; 0]) 0) ^ 2
                   + (nth a (Np.odds [0; 0; 1; 0]) 0 - nth b (Np.odds [0; 0; 1; 0]) 0) ^ 2))).
Proof.
  assert (He : Nat.Even (length [0; 0; 1; 0])) by (exists 2%nat; reflexivity).
  split; [exact He|]. split; [exact unit_pair_distances_ep|].
  exact (Vtotal_counts_each_pair_once zero_field [0; 0; 1; 0] He unit_pair_distances_ep).
Defined.

Lemma sum1_sum_axis0 M :
  Np.sum1 (Np.sum_axis0 M)
  = Np.sum_upto (Np.ncols M) (fun b => Np.sum_upto (Np.nrows M) (fun a => Np.entry M a b)).
Proof.
  rewrite sum1_nth, sum_axis0_length. apply sum_upto_ext.
  intros b Hb. apply nth_sum_axis0, Hb.
Qed.

(** The pair forces cancel: the x-components of [grad_Vee] add up to zero,
    and so do its y-components ([ElectrostaticPotential]). *)
Theorem pair_gradient_sums_to_zero (xi yi : list R) (eps : R)
    (Hlen : length xi = length yi)
    (Hdist : forall a b, (a < length xi)%nat -> (b < length xi)%nat -> a <> b ->
               Np.entry (EP.grad_Vee_Rij xi yi eps) a b <> 0) :
  exists g,
    EP.grad_Vee xi yi eps = Ok g
    /\ length g = (2 * length xi)%nat
    /\ Np.sum1 (Np.evens g) = 0
    /\ Np.sum1 (Np.odds g) = 0.
Proof.
  rewrite EP_grad_Vee_ok by exact Hlen. eexists. split; [reflexivity|].
  assert (Hl : length (Np.sum_axis0 (EP.gradx_matrix xi yi eps))
               = length (Np.sum_axis0 (EP.grady_matrix xi yi eps)))
    by (rewrite !sum_axis0_length; reflexivity).
  split; [rewrite interleave_length, sum_axis0_length by exact Hl; reflexivity|].
  rewrite evens_interleave, odds_interleave by exact Hl.
  rewrite !sum1_sum_axis0.
  rewrite (proj1 (EP_gradx_shape _ _ _)), (proj2 (EP_gradx_shape _ _ _)).
  rewrite (proj1 (EP_grady_shape _ _ _)), (proj2 (EP_grady_shape _ _ _)).
  rewrite <- Hlen.
  split; apply sum_antisym; intros a b.
  - rewrite !EP_gradx_entry, (Nat.eqb_sym b a).
    destruct (a =? b)%nat; [ring|].
    replace ((nth a xi 0 - nth b xi 0) ^ 2 + (nth b yi 0 - nth a yi 0) ^ 2)
      with ((nth b xi 0 - nth a xi 0) ^ 2 + (nth a yi 0 - nth b yi 0) ^ 2) by ring.
    unfold Rdiv. ring.
  - rewrite !EP_grady_entry, (Nat.eqb_sym b a).
    destruct (a =? b)%nat; [ring|].
    replace ((nth a xi 0 - nth b xi 0) ^ 2 + (nth b yi 0 - nth a yi 0) ^ 2)
      with ((nth b xi 0 - nth a xi 0) ^ 2 + (nth a yi 0 - nth b yi 0) ^ 2) by ring.
    unfold Rdiv. ring.
Qed.

Lemma unit_pair_grad_distances :
  forall a b, (a < length [0; 1])%nat -> (b < length [0; 1])%nat -> a <> b ->
    Np.entry (EP.grad_Vee_Rij [0; 1] [0; 0] EP.grad_Vee_eps) a b <> 0.
Proof.
  intros a b Ha Hb Hab. cbn in Ha, Hb.
  change (EP.grad_Vee_Rij [0; 1] [0; 0] EP.grad_Vee_eps)
    with (EP.Vee_Rij [0; 1] [0; 0] EP.grad_Vee_eps).
  rewrite EP_Rij_entry.
  destruct a as [|[|a]]; destruct b as [|[|b]]; try lia; cbn [Nat.eqb nth].
  - rewrite sqrt_1_0. lra.
  - rewrite sqrt_0_1. lra.
Qed.

Lemma pair_gradient_sums_to_zero_witness :
  length [0; 1] = length [0; 0]
  /\ exists g, EP.grad_Vee [0; 1] [0; 0] EP.grad_Vee_eps = Ok g
                /\ length g = (2 * length [0; 1])%nat
                /\ Np.sum1 (Np.evens g) = 0
                /\ Np.sum1 (Np.odds g) = 0.
Proof.
  split; [reflexivity|].
  exact (pair_gradient_sums_to_zero [0; 1] [0; 0] EP.grad_Vee_eps eq_refl
           unit_pair_grad_distances).
Defined.

(** The pair forces cancel under the periodic minimum-image rule too
    ([ResonatorSolver]). *)
Theorem periodic_pair_gradient_sums_to_zero (s : RS.self) (xi yi : list R) (eps : R)
    (Hlen : length xi = length yi)
    (Hdist : forall a b, (a < length xi)%nat -> (b < length xi)%nat -> a <> b ->
               Np.entry (RS.calculate_Rij s xi (RS.map_y_into_domain s yi None)) a b
               <> 0) :
  exists g,
    RS.grad_Vee s xi yi eps = Ok g
    /\ length g = (2 * length xi)%nat
    /\ Np.sum1 (Np.evens g) = 0
    /\ Np.sum1 (Np.odds g) = 0.
Proof.
  rewrite RS_grad_Vee_ok by exact Hlen. eexists. split; [reflexivity|].
  set (yi' := RS.map_y_into_domain s yi None).
  assert (Hy' : length yi' = length xi)
    by (unfold yi'; rewrite RS_map_y, length_map; congruence).
  assert (Hl : length (Np.sum_axis0 (RS.gradx_matrix s xi yi' eps))
               = length (Np.sum_axis0 (RS.grady_matrix s xi yi' eps)))
    by (rewrite !sum_axis0_length; reflexivity).
  split; [rewrite interleave_length, sum_axis0_length by exact Hl; reflexivity|].
  rewrite evens_interleave, odds_interleave by exact Hl.
  rewrite !sum1_sum_axis0.
  rewrite (proj1 (RS_gradx_shape _ _ _ _)), (proj2 (RS_gradx_shape _ _ _ _)).
  rewrite (proj1 (RS_grady_shape _ _ _ _)), (proj2 (RS_grady_shape _ _ _ _)).
  rewrite Hy'.
  split; apply sum_antisym; intros a b.
  - rewrite !RS_gradx_entry, (Nat.eqb_sym b a).
    destruct (a =? b)%nat; [ring|].
    rewrite (min_image_sym _ (nth b xi 0 - nth a xi 0) (nth a xi 0 - nth b xi 0)
               (nth a yi' 0) (nth b yi' 0)) by ring.
    unfold Rdiv. ring.
  - rewrite !RS_grady_entry, (Nat.eqb_sym b a).
    destruct (a =? b)%nat; [ring|].
    rewrite (min_image_sym _ (nth b xi 0 - nth a xi 0) (nth a xi 0 - nth b xi 0)
               (nth a yi' 0) (nth b yi' 0)) by ring.
    rewrite (eff_dy_antisym _ (nth b xi 0 - nth a xi 0) (nth a xi 0 - nth b xi 0)
               (nth a yi' 0) (nth b yi' 0)) by ring.
    unfold Rdiv. ring.
Qed.

Lemma periodic_pair_gradient_sums_to_zero_witness :
  length [0; 1] = length [0; 0]
  /\ exists g, RS.grad_Vee periodic_box [0; 1] [0; 0] RS.grad_Vee_eps = Ok g
                /\ length g = (2 * length [0; 1])%nat
                /\ Np.sum1 (Np.evens g) = 0
                /\ Np.sum1 (Np.odds g) = 0.
Proof.
  split; [reflexivity|].
  exact (periodic_pair_gradient_sums_to_zero periodic_box [0; 1] [0; 0] RS.grad_Vee_eps
           eq_refl unit_pair_distances_rs).
Defined.

Lemma sum_axis0_ext M M' :
  Np.nrows M = Np.nrows M' -> Np.ncols M = Np.ncols M' ->
  (forall a b, (a < Np.nrows M)%nat -> (b < Np.ncols M)%nat ->
     Np.entry M a b = Np.entry M' a b) ->
  Np.sum_axis0 M = Np.sum_axis0 M'.
Proof.
  intros Hr Hc He. unfold Np.sum_axis0. rewrite <- Hr, <- Hc.
  apply map_ext_in. intros b Hb. apply in_seq in Hb.
  apply sum_upto_ext. intros a Ha. apply He; lia.
Qed.

(** The pair interaction depends on relative positions only: translating
    all charges by a common [(cx, cy)] changes neither the summed pair
    energy nor [grad_Vee]. *)
Theorem pair_interaction_translation_invariant (xi yi : list R) (cx cy eps : R)
    (Hlen : length xi = length yi)
    (Hdist : forall a b, (a < length xi)%nat -> (b < length xi)%nat -> a <> b ->
               Np.entry (EP.Vee_Rij xi yi eps) a b <> 0) :
  let xi' := map (fun x => x + cx) xi in
  let yi' := map (fun y => y + cy) yi in
  Np.sum (Np.fill_diagonal (EP.Vee xi' yi' eps) 0)
  = Np.sum (Np.fill_diagonal (EP.Vee xi yi eps) 0)
  /\ EP.grad_Vee xi' yi' eps = EP.grad_Vee xi yi eps.
Proof.
  intros xi' yi'.
  assert (Hx : forall a, (a < length xi)%nat -> nth a xi' 0 = nth a xi 0 + cx)
    by (intros a Ha; apply (nth_map_R (fun x => x + cx)), Ha).
  assert (Hy : forall a, (a < length xi)%nat -> nth a yi' 0 = nth a yi 0 + cy)
    by (intros a Ha; apply (nth_map_R (fun y => y + cy)); lia).
  assert (Hsq : forall a b, (a < length xi)%nat -> (b < length xi)%nat ->
            (nth b xi' 0 - nth a xi' 0) ^ 2 + (nth a yi' 0 - nth b yi' 0) ^ 2
            = (nth b xi 0 - nth a xi 0) ^ 2 + (nth a yi 0 - nth b yi 0) ^ 2).
  { intros a b Ha Hb. rewrite !Hx, !Hy by assumption. ring. }
  split.
  - rewrite !sum_fill_diagonal_0. unfold sum_offdiag.
    change (Np.nrows (EP.Vee xi' yi' eps)) with (length yi').
    change (Np.ncols (EP.Vee xi' yi' eps)) with (length xi').
    change (Np.nrows (EP.Vee xi yi eps)) with (length yi).
    change (Np.ncols (EP.Vee xi yi eps)) with (length xi).
    unfold xi', yi'. rewrite !length_map. fold xi' yi'. rewrite <- Hlen.
    apply sum_upto_ext. intros a Ha. apply sum_upto_ext. intros b Hb.
    rewrite !EP_Vee_entry, !EP_Rij_entry.
    destruct (a =? b)%nat; [reflexivity|]. rewrite Hsq by assumption. reflexivity.
  - rewrite !EP_grad_Vee_ok by (unfold xi', yi'; rewrite ?length_map; exact Hlen).
    f_equal. f_equal.
    + apply sum_axis0_ext;
        [ cbn; unfold yi'; apply length_map | cbn; unfold xi'; apply length_map |].
      intros a b Ha Hb.
      rewrite (proj1 (EP_gradx_shape _ _ _)) in Ha.
      rewrite (proj2 (EP_gradx_shape _ _ _)) in Hb.
      unfold xi', yi' in Ha, Hb. rewrite length_map in Ha, Hb.
      rewrite !EP_gradx_entry. destruct (a =? b)%nat; [reflexivity|].
      rewrite Hsq by lia. rewrite !Hx by lia.
      replace (nth b xi 0 + cx - (nth a xi 0 + cx)) with (nth b xi 0 - nth a xi 0) by ring.
      reflexivity.
    + apply sum_axis0_ext;
        [ cbn; unfold yi'; apply length_map | cbn; unfold xi'; apply length_map |].
      intros a b Ha Hb.
      rewrite (proj1 (EP_grady_shape _ _ _)) in Ha.
      rewrite (proj2 (EP_grady_shape _ _ _)) in Hb.
      unfold xi', yi' in Ha, Hb. rewrite length_map in Ha, Hb.
      rewrite !EP_grady_entry. destruct (a =? b)%nat; [reflexivity|].
      rewrite Hsq by lia. rewrite !Hy by lia.
      replace (nth a yi 0 + cy - (nth b yi 0 + cy)) with (nth a yi 0 - nth b yi 0) by ring.
      reflexivity.
Qed.

Lemma pair_interaction_translation_invariant_witness :
  length [0; 1] = length [0; 0]
  /\ EP.grad_Vee (map (fun x => x + 5) [0; 1]) (map (fun y => y + 7) [0; 0])
                 EP.grad_Vee_eps
     = EP.grad_Vee [0; 1] [0; 0] EP.grad_Vee_eps.
Proof.
  split; [reflexivity|].
  exact (proj2 (pair_interaction_translation_invariant [0; 1] [0; 0] 5 7 EP.grad_Vee_eps
                  eq_refl unit_pair_grad_distances)).
Defined.

End PairInteraction.

(** ** Thermal kicks and the annealing loop *)

Section ThermalKick.

(** [thermal_kick_x] returns, for each charge, the amplitude [a >= 0] at
    which the trap energy [1/2 * k * a^2] equals [kB * T], where
    [k = |qe * V''(x)|] is the local stiffness (nonzero) and
    [kB = 1.38e-23]. *)
Theorem thermal_kick_equipartition (s : RS.self) (x y : list R) (T : R)
    (HT : 0 <= T)
    (Hstiff : Forall (fun v => RS.second_derivative s v <> 0) x) :
  Forall2 (fun v a =>
             0 <= a
             /\ Rabs (1.602E-19 * RS.second_derivative s v) * a ^ 2
                = 2 * 1.38E-23 * T)
          x (RS.thermal_kick_x s x y T).
Proof.
  unfold RS.thermal_kick_x, RS.ddVdx. rewrite map_map.
  induction Hstiff as [|v x Hv _ IH]; cbn [map]; constructor; [|exact IH].
  set (k := Rabs (1.602E-19 * RS.second_derivative s v)).
  assert (Hk : 0 < k).
  { unfold k. apply Rabs_pos_lt. apply Rmult_integral_contrapositive. split; [lra | exact Hv]. }
  assert (Hq : 0 <= 2 * 1.38E-23 * T / k).
  { apply Rmult_le_pos; [|left; apply Rinv_0_lt_compat, Hk]. lra. }
  split; [apply sqrt_pos|].
  replace (sqrt (2 * 1.38E-23 * T / k) ^ 2)
    with (sqrt (2 * 1.38E-23 * T / k) * sqrt (2 * 1.38E-23 * T / k)) by ring.
  rewrite sqrt_sqrt by exact Hq. field. lra.
Qed.

Lemma thermal_kick_equipartition_witness :
  0 <= 300
  /\ Forall2 (fun v a =>
                0 <= a
                /\ Rabs (1.602E-19 * RS.second_derivative curved_box v) * a ^ 2
                   = 2 * 1.38E-23 * 300)
             [0; 1] (RS.thermal_kick_x curved_box [0; 1] [0; 0] 300).
Proof.
  assert (H : 0 <= 300) by lra.
  split; [exact H|].
  apply (thermal_kick_equipartition curved_box [0; 1] [0; 0] 300 H).
  repeat constructor; cbn; lra.
Defined.

End ThermalKick.

Section AnnealingLoop.

Context {rng : Type}.
Variable s : RS.self.
Variable ext : RS.externals rng.
Variable cost_function : list R -> R.

(** What a pass of the loop that returned has done. *)
Lemma trial_inv T eip cur w b w1 :
  RS.trial s ext cost_function T eip cur w = Ok (b, w1) ->
  exists p g',
    RS.perturb s ext T eip (RS.gen w) = Ok (p, g')
    /\ b = fst (RS.classify (RS.minimize ext cost_function p) cur)
    /\ RS.gen w1 = g'
    /\ RS.calls w1 = RS.calls w ++ [p].
Proof.
  unfold RS.trial. destruct (RS.perturb s ext T eip (RS.gen w)) as [[p g']|e];
    cbn [rbind]; [|discriminate].
  destruct (RS.classify (RS.minimize ext cost_function p) cur) as [b' lines] eqn:Hc.
  intros E. injection E as <- <-. exists p, g'. rewrite Hc.
  split; [reflexivity|]. split; [reflexivity|]. split; reflexivity.
Qed.

Lemma trials_min T n eip cur w best w' :
  RS.trials s ext cost_function T n eip cur w = Ok (best, w') ->
  exists ps,
    RS.calls w' = RS.calls w ++ ps /\ length ps = n
    /\ (best = cur
        \/ exists p, p ∈ ps /\ best = RS.minimize ext cost_function p
                     /\ res_status best = 0%Z)
    /\ res_fun best <= res_fun cur
    /\ forall p, p ∈ ps -> res_status (RS.minimize ext cost_function p) = 0%Z ->
         res_fun best <= res_fun (RS.minimize ext cost_function p).
Proof.
  revert cur w. induction n as [|n IH]; intros cur w Hrun.
  - cbn in Hrun. injection Hrun as <- <-. exists [].
    rewrite app_nil_r. split; [reflexivity|]. split; [reflexivity|].
    split; [left; reflexivity|]. split; [lra|].
    intros p Hp. inversion Hp.
  - cbn [RS.trials] in Hrun.
    destruct (RS.trial s ext cost_function T eip cur w) as [[b w1]|e] eqn:Ht;
      cbn [rbind] in Hrun; [|discriminate].
    destruct (trial_inv T eip cur w b w1 Ht) as (p & g' & _ & Hb & _ & Hc1).
    destruct (IH b w1 Hrun) as (ps & Hc & Hl & Hsel & Hle & Hmin).
    set (res := RS.minimize ext cost_function p) in *.
    exists (p :: ps).
    split; [rewrite Hc, Hc1, <- app_assoc; reflexivity|].
    split; [cbn; rewrite Hl; reflexivity|].
    destruct (classify_best res cur) as [(S0 & Lt & E) | (Hn & E)];
      rewrite E in Hb; subst b.
    + split; [|split].
      * right. destruct Hsel as [-> | (q & Hq & Hbq & Hs)].
        -- exists p. split; [left | split; [reflexivity | exact S0]].
        -- exists q. split; [right; exact Hq | split; assumption].
      * lra.
      * intros q Hq Hs. apply elem_of_cons in Hq as [Hqp | Hq];
          [subst q; exact Hle | apply Hmin; assumption].
    + split; [|split].
      * destruct Hsel as [-> | (q & Hq & Hbq & Hs)]; [left; reflexivity|].
        right. exists q. split; [right; exact Hq | split; assumption].
      * exact Hle.
      * intros q Hq Hs. apply elem_of_cons in Hq as [Hqp | Hq];
          [subst q | apply Hmin; assumption].
        fold res in Hs |- *.
        destruct (Rlt_dec (res_fun res) (res_fun cur)) as [Hlt|Hge];
          [exfalso; apply Hn; split; assumption | lra].
Qed.

(** When [perturb_and_solve] returns, the result is the lowest-energy
    candidate among the starting solution and the converged trials: it is
    the starting solution or the result of a converged trial, its energy is
    at most the starting energy and at most that of every converged trial.
    With a trial count of zero or less nothing is done at all. *)
Theorem perturb_and_solve_returns_minimum (T : R) (N_perturbations : Z)
    (solution_data_reference best : OptimizeResult) (w w' : RS.world rng)
    (Hrun : RS.perturb_and_solve s ext cost_function T N_perturbations
                                 solution_data_reference w = Ok (best, w')) :
  exists ps,
    RS.calls w' = RS.calls w ++ ps
    /\ length ps = Z.to_nat N_perturbations
    /\ (best = solution_data_reference
        \/ exists p, p ∈ ps /\ best = RS.minimize ext cost_function p
                     /\ res_status best = 0%Z)
    /\ res_fun best <= res_fun solution_data_reference
    /\ (forall p, p ∈ ps -> res_status (RS.minimize ext cost_function p) = 0%Z ->
          res_fun best <= res_fun (RS.minimize ext cost_function p))
    /\ ((N_perturbations <= 0)%Z -> best = solution_data_reference /\ w' = w).
Proof.
  unfold RS.perturb_and_solve in Hrun.
  destruct (trials_min T _ _ _ _ _ _ Hrun) as (ps & H1 & H2 & H3 & H4 & H5).
  exists ps. repeat (split; [assumption|]).
  intros HN. replace (Z.to_nat N_perturbations) with 0%nat in Hrun by lia.
  cbn in Hrun. injection Hrun as <- <-. split; reflexivity.
Qed.

End AnnealingLoop.

Section AnnealingLoopExamples.

Lemma two_trials_run :
  exists w2,
    RS.perturb_and_solve curved_box shifting_minimizer flat_cost 0 2
                         origin_solution quiet_world
    = Ok (MkResult [0 + 1; 0 + 1] (-1) 0%Z, w2).
Proof.
  destruct (first_trial quiet_world) as (w1 & Ht1 & _).
  destruct (second_trial w1) as (w2 & Ht2 & _).
  exists w2. unfold RS.perturb_and_solve. change (Z.to_nat 2) with 2%nat.
  cbn [RS.trials res_x origin_solution]. rewrite Ht1. cbn [rbind]. rewrite Ht2.
  reflexivity.
Qed.

Lemma perturb_and_solve_returns_minimum_witness :
  exists w2,
    RS.perturb_and_solve curved_box shifting_minimizer flat_cost 0 2
                         origin_solution quiet_world
    = Ok (MkResult [0 + 1; 0 + 1] (-1) 0%Z, w2)
    /\ res_fun (MkResult [0 + 1; 0 + 1] (-1) 0%Z) <= res_fun origin_solution.
Proof.
  destruct two_trials_run as [w2 Hrun]. exists w2. split; [exact Hrun|].
  destruct (perturb_and_solve_returns_minimum curved_box shifting_minimizer flat_cost
              0 2 origin_solution _ quiet_world w2 Hrun) as (ps & _ & _ & _ & H & _).
  exact H.
Defined.

End AnnealingLoopExamples.

Section ZeroTemperature.

Context {rng : Type}.
Variable s : RS.self.
Variable ext : RS.externals rng.

Lemma thermal_kick_zero x y :
  Forall (fun a => a = 0) (RS.thermal_kick_x s x y 0).
Proof.
  unfold RS.thermal_kick_x, RS.ddVdx. rewrite map_map.
  induction x as [|v x IH]; cbn [map]; constructor; [|exact IH].
  replace (2 * 1.38E-23 * 0 / Rabs (1.602E-19 * RS.second_derivative s v)) with 0
    by (unfold Rdiv; ring).
  apply sqrt_0.
Qed.

Lemma add_zero_kick (x k z : list R) :
  Forall (fun a => a = 0) k -> length k = length x -> length z = length x ->
  zip_with Rplus x (zip_with Rmult k z) = x.
Proof.
  intros Hk. revert x z. induction Hk as [|a k Ha _ IH]; intros [|v x] [|c z] H1 H2;
    cbn in *; try lia; try reflexivity.
  subst a. f_equal; [ring | apply IH; lia].
Qed.

Lemma perturb_zero positions g :
  randn_sized ext -> Nat.Even (length positions) ->
  exists g', RS.perturb s ext 0 positions g = Ok (positions, g').
Proof.
  intros Hr He. pose proof (even_halves positions He) as HN.
  unfold RS.perturb, r2xy.
  pose proof (Hr (length (Np.evens positions)) g) as Hz1.
  destruct (RS.randn ext (length (Np.evens positions)) g) as [z1 g1]. cbn [fst] in Hz1.
  rewrite zip2_same by (rewrite thermal_kick_x_length; congruence).
  cbn [rbind]. rewrite zip2_same
    by (rewrite length_zip_with_same; rewrite thermal_kick_x_length; congruence).
  cbn [rbind].
  pose proof (Hr (length (Np.odds positions)) g1) as Hz2.
  destruct (RS.randn ext (length (Np.odds positions)) g1) as [z2 g2]. cbn [fst] in Hz2.
  rewrite zip2_same by (rewrite thermal_kick_x_length; congruence).
  cbn [rbind]. rewrite zip2_same
    by (rewrite length_zip_with_same; rewrite thermal_kick_x_length; congruence).
  cbn [rbind].
  rewrite !add_zero_kick;
    try apply thermal_kick_zero; try (rewrite thermal_kick_x_length); try congruence.
  rewrite xy2r_interleave by exact HN. cbn [rbind].
  rewrite interleave_evens_odds by exact He. exists g2. reflexivity.
Qed.

Lemma restarts_zero n positions g ps g' :
  randn_sized ext -> Nat.Even (length positions) ->
  restarts s ext 0 n positions g = Ok (ps, g') -> ps = repeat positions n.
Proof.
  intros Hr He. revert g ps g'. induction n as [|n IH]; intros g ps g' Hrun.
  - cbn in Hrun. injection Hrun as <- _. reflexivity.
  - cbn [restarts] in Hrun.
    destruct (perturb_zero positions g Hr He) as [g1 Hp]. rewrite Hp in Hrun.
    cbn [rbind] in Hrun.
    destruct (restarts s ext 0 n positions g1) as [[ps1 g2]|e] eqn:Hrest;
      cbn [rbind] in Hrun; [|discriminate].
    injection Hrun as <- _. cbn [repeat]. f_equal. eapply IH, Hrest.
Qed.

(** At temperature 0 (and nonzero stiffness at every charge) the thermal
    kick vanishes: every one of the [N] trials hands the minimiser exactly
    the starting position. *)
Theorem zero_temperature_restarts (cost_function : list R -> R)
    (N_perturbations : Z) (solution_data_reference : OptimizeResult)
    (w : RS.world rng)
    (Hrandn : randn_sized ext)
    (Heven : Nat.Even (length (res_x solution_data_reference)))
    (Hstiff : Forall (fun v => RS.second_derivative s v <> 0)
                     (Np.evens (res_x solution_data_reference))) :
  exists best w',
    RS.perturb_and_solve s ext cost_function 0 N_perturbations
                         solution_data_reference w = Ok (best, w')
    /\ RS.calls w'
       = RS.calls w ++ repeat (res_x solution_data_reference) (Z.to_nat N_perturbations).
Proof.
  unfold RS.perturb_and_solve.
  destruct (trials_spec s ext cost_function 0 (Z.to_nat N_perturbations)
              (res_x solution_data_reference) solution_data_reference w Hrandn Heven)
    as (best & w' & ps & Hn & _ & Hs & Hc & _).
  exists best, w'. split; [exact Hn|].
  rewrite Hc. f_equal. eapply restarts_zero; eassumption.
Qed.

End ZeroTemperature.

Lemma zero_temperature_restarts_witness :
  exists best w',
    RS.perturb_and_solve curved_box shifting_minimizer flat_cost 0 5
                         origin_solution quiet_world = Ok (best, w')
    /\ RS.calls w'
       = RS.calls quiet_world ++ repeat (res_x origin_solution) (Z.to_nat 5).
Proof.
  apply (zero_temperature_restarts curved_box shifting_minimizer flat_cost 5
           origin_solution quiet_world shifting_minimizer_sized origin_even).
  repeat constructor. cbn. lra.
Defined.

(** ** [map_into_domain]: the simulation box *)

Section SimulationBox.

(** One element of the new [xi]: the position mirrored into
    [[left, right]]. *)
Lemma mirror_element left_boundary right_boundary x :
  left_boundary < right_boundary ->
  let L := right_boundary - left_boundary in
  let x' := Rabs (L - Np.remainder (x - right_boundary) (2 * L)) + left_boundary in
  left_boundary <= x' <= right_boundary
  /\ (left_boundary <= x <= right_boundary -> x' = x)
  /\ (right_boundary <= x <= right_boundary + L -> x' = 2 * right_boundary - x).
Proof.
  intros Hb L x'. assert (HL : 0 < 2 * L) by (unfold L; lra).
  destruct (remainder_spec (x - right_boundary) (2 * L) HL) as [[H0 H1] _].
  split; [|split].
  - unfold x', Rabs. destruct (Rcase_abs _); unfold L in *; lra.
  - intros Hx. unfold x'.
    destruct (Req_dec x right_boundary) as [->|Hne].
    + rewrite remainder_small by lra.
      rewrite Rabs_pos_eq by (unfold L; lra). unfold L. lra.
    + rewrite <- (remainder_shift (x - right_boundary) (2 * L) 1 HL).
      rewrite remainder_small by (simpl; unfold L; lra).
      simpl. rewrite Rabs_left1 by (unfold L; lra). unfold L. lra.
  - intros Hx. unfold x'.
    rewrite remainder_small by (unfold L in *; lra).
    rewrite Rabs_pos_eq by (unfold L in *; lra). unfold L. lra.
Qed.

Lemma clamp_element bottom_boundary top_boundary v :
  bottom_boundary <= top_boundary ->
  bottom_boundary <= clamp bottom_boundary top_boundary v <= top_boundary
  /\ (bottom_boundary <= v <= top_boundary -> clamp bottom_boundary top_boundary v = v).
Proof.
  intros Hb. unfold clamp, Rltb.
  destruct (Rlt_dec top_boundary v) as [H1|H1].
  - destruct (Rlt_dec top_boundary bottom_boundary); split; intros; lra.
  - destruct (Rlt_dec v bottom_boundary); split; intros; lra.
Qed.

Lemma Forall_map_all {A B} (f : A -> B) (P : B -> Prop) (l : list A) :
  (forall x, P (f x)) -> Forall P (map f l).
Proof. intros H. induction l; cbn; constructor; auto. Qed.

Lemma map_fixed {A} (f : A -> A) (Q : A -> Prop) (l : list A) :
  (forall x, Q x -> f x = x) -> Forall Q l -> map f l = l.
Proof.
  intros H HQ. induction HQ as [|x l Hx _ IH]; cbn; [reflexivity|].
  rewrite H by exact Hx. f_equal. exact IH.
Qed.

(** [map_into_domain] returns coordinates that all lie in the simulation
    box; coordinates already in the box are returned as they are; and an x
    up to one box length beyond the right boundary is mirrored at it. *)
Theorem map_into_domain_inside_box (h : Store.store) (xi yi : Store.ndarray)
    (left_boundary right_boundary bottom_boundary top_boundary : R)
    (Hvalid : valid h yi) (Hstride : (0 < Store.stride yi)%nat)
    (Hx : left_boundary < right_boundary)
    (Hy : bottom_boundary <= top_boundary) :
  let out := Store.map_into_domain h xi yi (left_boundary, right_boundary)
                                   (bottom_boundary, top_boundary) in
  let xs := Store.values (fst out) (fst (snd out)) in
  let ys := Store.values (fst out) (snd (snd out)) in
  Forall (fun v => left_boundary <= v <= right_boundary) xs
  /\ Forall (fun v => bottom_boundary <= v <= top_boundary) ys
  /\ (Forall (fun v => left_boundary <= v <= right_boundary) (Store.values h xi) ->
      xs = Store.values h xi)
  /\ (Forall (fun v => bottom_boundary <= v <= top_boundary) (Store.values h yi) ->
      ys = Store.values h yi)
  /\ Forall2 (fun v v' =>
                right_boundary <= v <= right_boundary + (right_boundary - left_boundary) ->
                v' = 2 * right_boundary - v)
             (Store.values h xi) xs.
Proof.
  intros out xs ys.
  destruct (map_into_domain_spec h xi yi (left_boundary, right_boundary)
              (bottom_boundary, top_boundary) Hvalid Hstride)
    as (Ey & _ & _ & Hys & Hxs).
  cbv zeta in Ey, Hys, Hxs. fold out in Ey, Hys, Hxs. cbn [fst snd] in Hys, Hxs.
  unfold xs, ys. rewrite Ey, Hys, Hxs. clear Ey Hys Hxs out xs ys.
  split; [|split; [|split; [|split]]].
  - apply Forall_map_all. intros x.
    apply (mirror_element left_boundary right_boundary x Hx).
  - apply Forall_map_all. intros v.
    apply (clamp_element bottom_boundary top_boundary v Hy).
  - apply map_fixed. intros x.
    apply (mirror_element left_boundary right_boundary x Hx).
  - apply map_fixed. intros v.
    apply (clamp_element bottom_boundary top_boundary v Hy).
  - induction (Store.values h xi) as [|x l IH]; cbn [map]; constructor; [|exact IH].
    apply (mirror_element left_boundary right_boundary x Hx).
Qed.

Lemma map_into_domain_inside_box_witness :
  valid two_arrays array_1 /\ -1 < 1
  /\ Forall (fun v => -1 <= v <= 1)
       (Store.values
          (fst (Store.map_into_domain two_arrays array_0 array_1 (-1, 1) (-1, 1)))
          (snd (snd (Store.map_into_domain two_arrays array_0 array_1 (-1, 1) (-1, 1))))).
Proof.
  assert (Hx : -1 < 1) by lra.
  assert (Hy : -1 <= 1) by lra.
  split; [exact two_arrays_valid|]. split; [exact Hx|].
  refine (proj1 (proj2 (map_into_domain_inside_box two_arrays array_0 array_1
                          (-1) 1 (-1) 1 two_arrays_valid _ Hx Hy))).
  cbn. lia.
Defined.

End SimulationBox.

(** ** Slices share the buffer of the array they come from *)

Section Aliasing.

Lemma valid_odds h (r : Store.ndarray) : valid h r -> valid h (Store.odds r).
Proof.
  intros Hv i Hi. cbn [Store.odds Store.size] in Hi.
  pose proof (proj1 (proj2 (div2_lt (Store.size r) i)) Hi) as Hlt.
  replace (Store.slot (Store.odds r) i) with (Store.slot r (2 * i + 1))
    by (unfold Store.slot; cbn; lia).
  apply (Hv (2 * i + 1)%nat Hlt).
Qed.

Lemma evens_not_odds (r : Store.ndarray) i :
  (0 < Store.stride r)%nat ->
  ~ addresses (Store.odds r) (Store.base (Store.evens r)) (Store.slot (Store.evens r) i).
Proof.
  intros Hs [_ (i' & _ & E)]. unfold Store.slot in E. cbn in E.
  assert (E' : (Store.stride r * (2 * i) = Store.stride r * (2 * i' + 1))%nat) by lia.
  apply Nat.mul_cancel_l in E'; lia.
Qed.

(** Decoding with [r2xy] and then calling [map_into_domain] on the two
    slices writes into [r] itself: afterwards the y-entries of the caller's
    [r] are clamped to the y-bounds, and its x-entries are as before (the
    mirrored x live in a new array). *)
Theorem map_into_domain_writes_through_views (h : Store.store) (r : Store.ndarray)
    (xbounds ybounds : R * R)
    (Hvalid : valid h r) (Hstride : (0 < Store.stride r)%nat) :
  let x := fst (snd (Store.r2xy h r)) in
  let y := snd (snd (Store.r2xy h r)) in
  let h' := fst (Store.map_into_domain (fst (Store.r2xy h r)) x y xbounds ybounds) in
  r2xy (Store.values h' r)
  = (Np.evens (Store.values h r),
     map (clamp (fst ybounds) (snd ybounds)) (Np.odds (Store.values h r))).
Proof.
  intros x y h'. cbn [Store.r2xy fst snd] in x, y, h'.
  pose proof (r2xy_views h r) as Hv0. cbn [Store.r2xy] in Hv0.
  pose proof (r2xy_views h' r) as Hv1. cbn [Store.r2xy] in Hv1.
  rewrite <- Hv1. unfold r2xy in Hv0. injection Hv0 as Hx0 Hy0.
  rewrite <- Hx0, <- Hy0.
  assert (Hvy : valid h (Store.odds r)) by apply valid_odds, Hvalid.
  assert (Hsy : (0 < Store.stride (Store.odds r))%nat) by (cbn; lia).
  destruct (map_into_domain_spec h x y xbounds ybounds Hvy Hsy) as (_ & _ & Hfr & Hys & _).
  cbv zeta in Hfr, Hys. fold h' in Hfr, Hys.
  f_equal; [|exact Hys].
  apply values_ext. intros i Hi. apply Hfr.
  - cbn [Store.evens Store.size] in Hi.
    pose proof (proj1 (proj1 (div2_lt (Store.size r) i)) Hi) as Hlt.
    eapply (valid_dom h r), Hlt. exact Hvalid.
  - apply evens_not_odds, Hstride.
Qed.


Lemma one_charge_valid : valid one_charge_store one_charge.
Proof.
  intros i Hi. cbn in Hi. destruct i as [|[|i]]; [exists 0 | exists 5 | lia]; reflexivity.
Qed.

Lemma map_into_domain_writes_through_views_witness :
  valid one_charge_store one_charge
  /\ r2xy (Store.values
             (fst (Store.map_into_domain one_charge_store (Store.evens one_charge)
                     (Store.odds one_charge) (-1, 1) (-1, 1)))
             one_charge)
     = (Np.evens (Store.values one_charge_store one_charge),
        map (clamp (-1) 1) (Np.odds (Store.values one_charge_store one_charge))).
Proof.
  split; [exact one_charge_valid|].
  refine (map_into_domain_writes_through_views one_charge_store one_charge (-1, 1) (-1, 1)
            one_charge_valid _).
  cbn. lia.
Defined.

End Aliasing.

(** ** [ConvergenceMonitor.monitor_convergence]: the record of a run *)


Section Monitor.

Variable fprime : list R -> (list R -> R) -> R -> list R.

Lemma fold_left_Rmax_le l a : a <= fold_left Rmax l a.
Proof.
  revert a. induction l as [|b l IH]; intros a; simpl; [lra|].
  eapply Rle_trans; [apply (Rmax_l a b)|apply IH].
Qed.

Lemma fold_left_Rmax l a :
  0 <= a -> fold_left Rmax (map Rabs l) a = Rmax a (linf_norm l).
Proof.
  revert a. induction l as [|b l IH]; intros a Ha; simpl.
  - unfold linf_norm. simpl. rewrite Rmax_left; lra.
  - rewrite IH.
    + unfold linf_norm. simpl. now rewrite Rmax_assoc.
    + eapply Rle_trans; [apply Ha|apply Rmax_l].
Qed.

Lemma linf_norm_nonneg g : 0 <= linf_norm g.
Proof.
  destruct g as [|a g]; unfold linf_norm; simpl; [lra|].
  eapply Rle_trans; [apply Rabs_pos|apply Rmax_l].
Qed.

Lemma max_abs_ok g : g <> [] -> CM.max_abs g = Ok (linf_norm g).
Proof.
  destruct g as [|a g]; [congruence|]. intros _. simpl.
  rewrite fold_left_Rmax by apply Rabs_pos. reflexivity.
Qed.

Lemma vstack_ok rows g n :
  Forall (fun row => length row = n) rows -> length g = n ->
  CM.vstack rows g = Ok (rows ++ [g]).
Proof.
  intros Hrows Hg. unfold CM.vstack.
  replace (forallb _ rows) with true; [reflexivity|].
  symmetry. apply forallb_forall. intros row Hin.
  apply Nat.eqb_eq. rewrite Hg.
  rewrite List.Forall_forall in Hrows. now apply Hrows.
Qed.

Lemma if_app {A} (b : bool) (l1 l2 : list A) :
  (if b then l1 else []) ++ (if b then l2 else []) = if b then l1 ++ l2 else [].
Proof. now destruct b. Qed.

(** One call that records, after the first. *)
Lemma record_step U G N k v cg cf it eps J A xk n m :
  N <> 0%Z -> k <> 0%Z -> (k mod N)%Z = 0%Z ->
  Forall (fun row => length row = n) J ->
  Forall (fun row => length row = m) A ->
  G xk <> [] -> length (G xk) = n -> length (fprime xk U eps) = m ->
  CM.monitor_convergence fprime
    (CM.Self U G N k v cg cf it eps (Some J) (Some A)) xk =
  CM.Outcome
    (CM.Self U G N (k + 1) v (cg ++ [linf_norm (G xk)]) (cf ++ [U xk])
       (it ++ [k]) eps (Some (J ++ [G xk])) (Some (A ++ [fprime xk U eps])))
    (if v then [line U G (k, xk)] else []) None.
Proof.
  intros HN Hk Hmod HJ HA Hne Hn Hm.
  unfold CM.monitor_convergence, CM.stack_rows. simpl.
  apply Z.eqb_neq in HN, Hk. apply Z.eqb_eq in Hmod.
  rewrite HN, Hmod, (max_abs_ok _ Hne), Hk. simpl.
  rewrite (vstack_ok J (G xk) n HJ Hn), (vstack_ok A (fprime xk U eps) m HA Hm).
  simpl. unfold line. simpl. rewrite !last_last. reflexivity.
Qed.

(** One call that does not record. *)
Lemma skip_step s xk :
  CM.call_every s <> 0%Z ->
  (CM.call_counter s mod CM.call_every s)%Z <> 0%Z ->
  CM.monitor_convergence fprime s xk =
  CM.Outcome (CM.set_call_counter s (CM.call_counter s + 1)) [] None.
Proof.
  intros HN Hmod. unfold CM.monitor_convergence.
  apply Z.eqb_neq in HN, Hmod. now rewrite HN, Hmod.
Qed.

(** The calls after the first, as long as the gradients keep one length. *)
Lemma callbacks_later U G N k v cg cf it eps J A xs n m :
  N <> 0%Z -> (0 < k)%Z ->
  Forall (fun row => length row = n) J ->
  Forall (fun row => length row = m) A ->
  Forall (fun xk => G xk <> [] /\ length (G xk) = n
                    /\ length (fprime xk U eps) = m) xs ->
  let rec := multiples N k xs in
  callbacks fprime (CM.Self U G N k v cg cf it eps (Some J) (Some A)) xs =
  CM.Outcome
    (CM.Self U G N (k + Z.of_nat (length xs)) v
       (cg ++ map (fun p => linf_norm (G (snd p))) rec)
       (cf ++ map (fun p => U (snd p)) rec)
       (it ++ map fst rec) eps
       (Some (J ++ map (fun p => G (snd p)) rec))
       (Some (A ++ map (fun p => fprime (snd p) U eps) rec)))
    (if v then map (line U G) rec else []) None.
Proof.
  intros HN. revert k cg cf it J A.
  induction xs as [|xk xs IH]; intros k cg cf it J A Hk HJ HA Hxs rec.
  - subst rec. simpl. rewrite !app_nil_r, Z.add_0_r. now destruct v.
  - apply Forall_cons in Hxs as [(Hne & Hn & Hm) Hxs].
    subst rec. cbn [callbacks multiples].
    replace (k + Z.of_nat (length (xk :: xs)))%Z
      with (k + 1 + Z.of_nat (length xs))%Z by (simpl length; lia).
    destruct (k mod N =? 0)%Z eqn:Ek.
    + apply Z.eqb_eq in Ek.
      rewrite (record_step U G N k v cg cf it eps J A xk n m) by (auto; lia).
      cbn [CM.raised CM.state CM.stdout].
      rewrite IH; [|lia| | |assumption].
      * cbn [CM.raised CM.state CM.stdout app map fst snd].
        rewrite <- !app_assoc. cbn [app]. rewrite if_app. reflexivity.
      * apply Forall_app; split; [assumption|]. now repeat constructor.
      * apply Forall_app; split; [assumption|]. now repeat constructor.
    + apply Z.eqb_neq in Ek.
      rewrite skip_step by (cbn; assumption).
      unfold CM.set_call_counter. simpl.
      rewrite IH by (assumption || lia).
      reflexivity.
Qed.

Lemma multiples_spec N k xs i xk :
  In (i, xk) (multiples N k xs) <->
  exists j, xs !! j = Some xk /\ i = (k + Z.of_nat j)%Z /\ (i mod N)%Z = 0%Z.
Proof.
  revert k. induction xs as [|x xs IH]; intros k; cbn [multiples].
  - split; [intros []|]. intros (j & Hj & _). now rewrite lookup_nil in Hj.
  - rewrite in_app_iff, IH. split.
    + intros [Hin | (j & Hj & Hi & Hm)].
      * destruct (k mod N =? 0)%Z eqn:Ek; [|destruct Hin].
        destruct Hin as [Heq|[]]. injection Heq as <- <-.
        exists 0%nat. apply Z.eqb_eq in Ek. repeat split; [lia|exact Ek].
      * exists (S j). repeat split; [exact Hj|lia|exact Hm].
    + intros ([|j] & Hj & Hi & Hm).
      * left. cbn in Hj. injection Hj as ->.
        replace i with k in * by lia.
        apply Z.eqb_eq in Hm. rewrite Hm. now left.
      * right. exists j. repeat split; [exact Hj|lia|exact Hm].
Qed.

(** Started by [__init__] with a nonzero [N] and called on the iterates
    [xs], whose gradients are nonempty and of one length (and the
    numerical gradients of one length), [monitor_convergence] never raises;
    it counts every call and records exactly the calls whose number
    (from 0) is a multiple of [N]: [iter] holds these numbers in order,
    [curr_fun] the cost, [curr_grad_norm] the largest absolute gradient
    entry, [jac] and [approx_fprime] one row for each of them, and one line
    is printed for each when [verbose] is set. *)
Theorem monitor_convergence_schedule (Uopt : list R -> R)
    (grad_Uopt : list R -> list R) (N : Z) (verbose : bool) (eps : R)
    (xs : list (list R)) (n m : nat)
    (HN : N <> 0%Z)
    (Hshape : Forall (fun xk => grad_Uopt xk <> [] /\ length (grad_Uopt xk) = n
                                /\ length (fprime xk Uopt eps) = m) xs) :
  let o := callbacks fprime (CM.init Uopt grad_Uopt N verbose eps) xs in
  let rec := multiples N 0 xs in
  CM.raised o = None
  /\ CM.call_counter (CM.state o) = Z.of_nat (length xs)
  /\ CM.iter (CM.state o) = map fst rec
  /\ (forall i, In i (CM.iter (CM.state o)) <->
                (0 <= i < Z.of_nat (length xs))%Z /\ (i mod N)%Z = 0%Z)
  /\ CM.curr_fun (CM.state o) = map (fun p => Uopt (snd p)) rec
  /\ CM.curr_grad_norm (CM.state o)
     = map (fun p => linf_norm (grad_Uopt (snd p))) rec
  /\ (xs <> [] ->
      CM.jac (CM.state o) = Some (map (fun p => grad_Uopt (snd p)) rec)
      /\ CM.approx_fprime (CM.state o)
         = Some (map (fun p => fprime (snd p) Uopt eps) rec))
  /\ CM.stdout o = (if verbose then map (line Uopt grad_Uopt) rec else []).
Proof.
  intros o rec.
  assert (Hiter : forall i, In i (map fst rec) <->
                    (0 <= i < Z.of_nat (length xs))%Z /\ (i mod N)%Z = 0%Z).
  { intros i. rewrite in_map_iff. split.
    - intros ([i' xk] & <- & Hin). apply multiples_spec in Hin as (j & Hj & Hi & Hm).
      apply lookup_lt_Some in Hj. cbn. split; [lia|exact Hm].
    - intros [Hi Hm]. destruct (lookup_lt_is_Some_2 xs (Z.to_nat i)) as [xk Hxk]; [lia|].
      exists (i, xk). split; [reflexivity|]. apply multiples_spec.
      exists (Z.to_nat i). repeat split; [exact Hxk|lia|exact Hm]. }
  destruct xs as [|xk xs].
  - subst o rec. cbn.
    repeat split; try reflexivity; try (now destruct verbose);
      intros; cbn in *; try contradiction; try lia; congruence.
  - apply Forall_cons in Hshape as [(Hne & Hn & Hm) Hshape].
    assert (Ho : o = CM.Outcome
      (CM.Self Uopt grad_Uopt N (Z.of_nat (length (xk :: xs))) verbose
         (map (fun p => linf_norm (grad_Uopt (snd p))) rec)
         (map (fun p => Uopt (snd p)) rec)
         (map fst rec) eps
         (Some (map (fun p => grad_Uopt (snd p)) rec))
         (Some (map (fun p => fprime (snd p) Uopt eps) rec)))
      (if verbose then map (line Uopt grad_Uopt) rec else []) None).
    { subst o rec. cbn [callbacks multiples].
      unfold CM.monitor_convergence, CM.stack_rows, CM.init. simpl.
      apply Z.eqb_neq in HN. rewrite HN. simpl.
      rewrite (max_abs_ok _ Hne). simpl.
      cbv [CM.set_call_counter CM.set_approx_fprime CM.set_jac
           CM.set_curr_grad_norm CM.set_curr_fun CM.set_iter
           CM.Uopt CM.grad_Uopt CM.call_every CM.call_counter CM.verbose
           CM.curr_grad_norm CM.curr_fun CM.iter CM.epsilon CM.jac
           CM.approx_fprime Z.add].
      rewrite (callbacks_later Uopt grad_Uopt N 1 verbose _ _ _ eps _ _ xs n m);
        [|now apply Z.eqb_neq|lia|now repeat constructor|now repeat constructor
         |exact Hshape].
      simpl. rewrite if_app. simpl.
      replace (1 + Z.of_nat (length xs))%Z with (Z.pos (Pos.of_succ_nat (length xs)))
        by lia.
      reflexivity. }
    rewrite Ho. cbn [CM.raised CM.state CM.stdout CM.call_counter CM.iter
                     CM.curr_fun CM.curr_grad_norm CM.jac CM.approx_fprime].
    split; [reflexivity|]. split; [reflexivity|]. split; [reflexivity|].
    split; [exact Hiter|]. split; [reflexivity|]. split; [reflexivity|].
    split; [intros _; split; reflexivity|reflexivity].
Qed.

(** A call that raises leaves the call counter as it was.  It raises
    [ZeroDivisionError] exactly when [call_every] is 0, and then changes
    nothing.  Otherwise the call was due to record and has already
    appended to [iter] and [curr_fun]: whatever is raised later in the
    call leaves these two lists one entry longer, and [curr_grad_norm]
    too unless the gradient was empty. *)
Theorem monitor_convergence_exception (s : CM.self) (xk : list R) (e : CM.error)
    (Hraised : CM.raised (CM.monitor_convergence fprime s xk) = Some e) :
  let s' := CM.state (CM.monitor_convergence fprime s xk) in
  CM.call_counter s' = CM.call_counter s
  /\ CM.stdout (CM.monitor_convergence fprime s xk) = []
  /\ (e = CM.ZeroDivisionError <-> CM.call_every s = 0%Z)
  /\ (CM.call_every s = 0%Z -> s' = s)
  /\ (CM.call_every s <> 0%Z ->
      (CM.call_counter s mod CM.call_every s)%Z = 0%Z
      /\ CM.iter s' = CM.iter s ++ [CM.call_counter s]
      /\ CM.curr_fun s' = CM.curr_fun s ++ [CM.Uopt s xk]
      /\ CM.curr_grad_norm s'
         = CM.curr_grad_norm s
           ++ match CM.grad_Uopt s xk with
              | [] => []
              | _ :: _ => [linf_norm (CM.grad_Uopt s xk)]
              end).
Proof.
  destruct s as [U G N k v cg cf it eps J A].
  revert Hraised. unfold CM.monitor_convergence, CM.stack_rows. simpl.
  destruct (N =? 0)%Z eqn:EN.
  { apply Z.eqb_eq in EN. simpl. intros [= <-].
    repeat split; intros; try reflexivity; congruence. }
  apply Z.eqb_neq in EN.
  destruct (k mod N =? 0)%Z eqn:Ek; [|simpl; discriminate].
  apply Z.eqb_eq in Ek.
  destruct (G xk) as [|g0 g] eqn:EG.
  { simpl. intros [= <-]. rewrite app_nil_r.
    repeat split; intros; try reflexivity; congruence. }
  rewrite <- EG. rewrite max_abs_ok by (rewrite EG; discriminate). simpl.
  destruct (k =? 0)%Z; [simpl; discriminate|].
  assert (Hnorm : [linf_norm (G xk)]
                  = match G xk with [] => [] | _ :: _ => [linf_norm (G xk)] end)
    by (now rewrite EG).
  destruct J as [J|]; simpl.
  2:{ intros [= <-]. repeat split; intros; try reflexivity; try congruence;
      now rewrite <- Hnorm. }
  destruct (CM.vstack J (G xk)); simpl.
  2:{ intros [= <-]. repeat split; intros; try reflexivity; try congruence;
      now rewrite <- Hnorm. }
  destruct A as [A|]; simpl.
  2:{ intros [= <-]. repeat split; intros; try reflexivity; try congruence;
      now rewrite <- Hnorm. }
  destruct (CM.vstack A _); simpl; [discriminate|].
  intros [= <-]. repeat split; intros; try reflexivity; try congruence;
  now rewrite <- Hnorm.
Qed.

Lemma attributes_bound_step s xk :
  attributes_bound s ->
  attributes_bound (CM.state (CM.monitor_convergence fprime s xk)).
Proof.
  destruct s as [U G N k v cg cf it eps J A]. unfold attributes_bound. simpl.
  intros [Hk HJA].
  unfold CM.monitor_convergence, CM.stack_rows. simpl.
  destruct (N =? 0)%Z; [simpl; auto|].
  destruct (k mod N =? 0)%Z eqn:Ek;
    [|simpl; split; [lia|intros _; apply HJA; intros ->;
                         rewrite Zmod_0_l in Ek; discriminate]].
  destruct (CM.max_abs (G xk)); [|simpl; auto]. simpl.
  destruct (k =? 0)%Z eqn:Ek0.
  { simpl. split; [lia|]. intros _. split; discriminate. }
  apply Z.eqb_neq in Ek0. destruct (HJA Ek0) as [HJ HA].
  destruct J as [J|]; [|congruence]. destruct A as [A|]; [|congruence].
  destruct (CM.vstack J (G xk)); simpl; [|split; [lia|intros _; split; discriminate]].
  destruct (CM.vstack A _); simpl; split; try lia; intros _; split; discriminate.
Qed.

(** However many calls a monitor started by [__init__] has served, and
    whatever they raised, no call raises [AttributeError]: [jac] and
    [approx_fprime] are bound before any call reads them. *)
Theorem monitor_never_attribute_error (Uopt : list R -> R)
    (grad_Uopt : list R -> list R) (N : Z) (verbose : bool) (eps : R)
    (xs : list (list R)) (xk : list R) (name : string) :
  CM.raised (CM.monitor_convergence fprime
               (callbacks_caught fprime (CM.init Uopt grad_Uopt N verbose eps) xs)
               xk)
  <> Some (CM.AttributeError name).
Proof.
  assert (Hinv : attributes_bound
            (callbacks_caught fprime (CM.init Uopt grad_Uopt N verbose eps) xs)).
  { unfold callbacks_caught.
    assert (H0 : attributes_bound (CM.init Uopt grad_Uopt N verbose eps))
      by (split; [cbn; lia|cbn; congruence]).
    revert H0. generalize (CM.init Uopt grad_Uopt N verbose eps).
    induction xs as [|x xs IH]; intros s Hs; [exact Hs|].
    cbn [fold_left]. apply IH, attributes_bound_step, Hs. }
  revert Hinv. generalize (callbacks_caught fprime (CM.init Uopt grad_Uopt N verbose eps) xs).
  intros [U G N' k v cg cf it eps' J A] [Hk HJA]. simpl in *.
  unfold CM.monitor_convergence, CM.stack_rows. simpl.
  destruct (N' =? 0)%Z; [simpl; discriminate|].
  destruct (k mod N' =? 0)%Z; [|simpl; discriminate].
  destruct (CM.max_abs (G xk)); [|simpl; discriminate]. simpl.
  destruct (k =? 0)%Z eqn:Ek0; [simpl; discriminate|].
  apply Z.eqb_neq in Ek0. destruct (HJA Ek0) as [HJ HA].
  destruct J as [J|]; [|congruence]. destruct A as [A|]; [|congruence].
  destruct (CM.vstack J (G xk)); simpl; [|discriminate].
  destruct (CM.vstack A _); simpl; discriminate.
Qed.

End Monitor.

Lemma monitor_convergence_schedule_witness :
  (2 <> 0)%Z
  /\ CM.iter (CM.state (callbacks plain_fprime (plain_monitor 2) [[1]; [2]; [3]]))
     = [0%Z; 2%Z].
Proof.
  assert (HN : (2 <> 0)%Z) by lia.
  split; [exact HN|].
  destruct (monitor_convergence_schedule plain_fprime (fun _ => 0) (fun xk => xk)
              2 true 1E-12 [[1]; [2]; [3]] 1 1 HN) as (_ & _ & H & _).
  - repeat constructor; discriminate.
  - exact H.
Defined.

Lemma monitor_convergence_exception_witness :
  CM.raised (CM.monitor_convergence plain_fprime (plain_monitor 0) [1])
  = Some CM.ZeroDivisionError
  /\ CM.call_counter (CM.state (CM.monitor_convergence plain_fprime (plain_monitor 0) [1]))
     = CM.call_counter (plain_monitor 0).
Proof.
  assert (H : CM.raised (CM.monitor_convergence plain_fprime (plain_monitor 0) [1])
              = Some CM.ZeroDivisionError) by reflexivity.
  split; [exact H|].
  exact (proj1 (monitor_convergence_exception plain_fprime (plain_monitor 0) [1] _ H)).
Defined.

(** ** [PostProcess]: counting, density and file names *)


Section TrappedElectrons.

Lemma where_length_from k mask :
  length (List.filter snd (zip (seq k (length mask)) mask))
  = length (List.filter (fun m : bool => m) mask).
Proof.
  revert k. induction mask as [|m mask IH]; intros k; [reflexivity|].
  cbn [length seq zip zip_with List.filter snd]. destruct m; cbn [length];
    now rewrite IH.
Qed.

Lemma where_length mask : length (PP.np_where mask) = length (List.filter (fun m : bool => m) mask).
Proof. unfold PP.np_where. rewrite length_map. apply where_length_from. Qed.

Lemma zip_with_map2 {A} (f g : A -> bool) l :
  zip_with andb (map f l) (map g l) = map (fun x => f x && g x) l.
Proof. induction l as [|a l IH]; [reflexivity|]. cbn. now rewrite IH. Qed.

Lemma filter_id_map {A} (f : A -> bool) l :
  length (List.filter (fun m : bool => m) (map f l)) = length (List.filter f l).
Proof.
  induction l as [|a l IH]; [reflexivity|]. cbn.
  destruct (f a); cbn; now rewrite IH.
Qed.

(** The count as a filter of the x coordinates. *)
Lemma get_trapped_electrons_filter r lo hi :
  PP.get_trapped_electrons r (lo, hi)
  = length (List.filter (fun x => Rltb lo x && Rltb x hi) (Np.evens r)).
Proof.
  unfold PP.get_trapped_electrons. cbn [fst snd].
  now rewrite where_length, zip_with_map2, filter_id_map.
Qed.

Lemma inside_true lo hi x : Rltb lo x && Rltb x hi = true <-> lo < x < hi.
Proof. rewrite andb_true_iff, !Rltb_true. tauto. Qed.

Lemma filter_length_all {A} (f : A -> bool) l :
  length (List.filter f l) = length l <-> List.Forall (fun x => f x = true) l.
Proof.
  induction l as [|a l IH]; cbn.
  - split; [constructor|reflexivity].
  - pose proof (List.filter_length_le f l) as Hle.
    destruct (f a) eqn:Ea; cbn.
    + split.
      * intros H. constructor; [exact Ea|]. apply IH. lia.
      * intros H. inversion H; subst. f_equal. now apply IH.
    + split; [lia|]. intros H. inversion H; congruence.
Qed.

Lemma filter_length_none {A} (f : A -> bool) l :
  length (List.filter f l) = 0%nat <-> List.Forall (fun x => f x = false) l.
Proof.
  induction l as [|a l IH]; cbn.
  - split; [constructor|reflexivity].
  - destruct (f a) eqn:Ea; cbn.
    + split; [lia|]. intros H. inversion H; congruence.
    + rewrite IH. split; [now constructor|]. intros H. now inversion H.
Qed.

Lemma filter_length_mono {A} (f g : A -> bool) l :
  (forall x, f x = true -> g x = true) ->
  (length (List.filter f l) <= length (List.filter g l))%nat.
Proof.
  intros Hfg. induction l as [|a l IH]; cbn; [lia|].
  destruct (f a) eqn:Ea.
  - rewrite (Hfg a Ea). cbn. lia.
  - destruct (g a); cbn; lia.
Qed.

(** The indices that [np.where] returns, numbered from [s]. *)
Lemma where_from_In s mask k :
  In k (map fst (List.filter snd (zip (seq s (length mask)) mask)))
  <-> exists i, k = (s + i)%nat /\ nth i mask false = true.
Proof.
  revert s. induction mask as [|m mask IH]; intros s.
  - cbn. split; [intros []|]. intros (i & _ & H). destruct i; discriminate.
  - cbn [length seq zip zip_with List.filter snd].
    assert (Hrest : In k (map fst (List.filter snd (zip (seq (S s) (length mask)) mask)))
              <-> exists i, k = (s + S i)%nat /\ nth (S i) (m :: mask) false = true).
    { rewrite IH. split; intros (i & Hk & Hi); exists i; (split; [lia|exact Hi]). }
    destruct m; cbn [map fst In]; rewrite Hrest.
    + split.
      * intros [<-|(i & Hk & Hi)]; [exists 0%nat; split; [lia|reflexivity]|].
        exists (S i). split; assumption.
      * intros ([|i] & Hk & Hi); [left; lia|right; exists i; split; assumption].
    + split.
      * intros (i & Hk & Hi). exists (S i). split; assumption.
      * intros ([|i] & Hk & Hi); [discriminate|exists i; split; assumption].
Qed.

Lemma where_from_NoDup s mask :
  List.NoDup (map fst (List.filter snd (zip (seq s (length mask)) mask))).
Proof.
  revert s. induction mask as [|m mask IH]; intros s; [constructor|].
  cbn [length seq zip zip_with List.filter snd].
  destruct m; cbn [map fst]; [|apply IH].
  constructor; [|apply IH].
  intros Hin. apply where_from_In in Hin as (i & Hk & _). lia.
Qed.

Lemma nth_mask (f : R -> bool) xs i :
  nth i (map f xs) false = true <-> (i < length xs)%nat /\ f (nth i xs 0) = true.
Proof.
  revert i. induction xs as [|x xs IH]; intros i.
  - destruct i; cbn; split; try discriminate; intros [H _]; lia.
  - destruct i as [|i]; cbn [map nth length].
    + split; [intros H; split; [lia|exact H]|intros [_ H]; exact H].
    + rewrite IH. split; intros [H1 H2]; (split; [lia|exact H2]).
Qed.

(** [get_trapped_electrons] returns the number of charges whose x
    coordinate lies strictly between the bounds: it is the length of a
    duplicate-free list of exactly the indices [k] with
    [lo < x_k < hi] (a charge on a bound is not counted).  So the count is
    at most the number of charges; it is the number of charges exactly
    when every x is strictly inside, and 0 exactly when none is; it does
    not depend on any y coordinate, and it does not decrease when the
    bounds are widened. *)
Theorem get_trapped_electrons_counts (r : list R) (lo hi : R) :
  (exists idx : list nat,
     List.NoDup idx
     /\ (forall k, In k idx <->
                   (k < length (Np.evens r))%nat /\ lo < nth k (Np.evens r) 0 < hi)
     /\ PP.get_trapped_electrons r (lo, hi) = length idx)
  /\ (forall x y r', PP.get_trapped_electrons (x :: y :: r') (lo, hi)
        = ((if Rlt_dec lo x then if Rlt_dec x hi then 1 else 0 else 0)
           + PP.get_trapped_electrons r' (lo, hi))%nat)
  /\ (PP.get_trapped_electrons r (lo, hi) <= length (Np.evens r))%nat
  /\ (PP.get_trapped_electrons r (lo, hi) = length (Np.evens r)
      <-> List.Forall (fun x => lo < x < hi) (Np.evens r))
  /\ (PP.get_trapped_electrons r (lo, hi) = 0%nat
      <-> List.Forall (fun x => x <= lo \/ hi <= x) (Np.evens r))
  /\ (forall k y, PP.get_trapped_electrons (<[(2 * k + 1)%nat := y]> r) (lo, hi)
                  = PP.get_trapped_electrons r (lo, hi))
  /\ (forall lo' hi', lo' <= lo -> hi <= hi' ->
        (PP.get_trapped_electrons r (lo, hi)
         <= PP.get_trapped_electrons r (lo', hi'))%nat).
Proof.
  split.
  { exists (PP.np_where (zip_with andb
                           (map (fun x => Rltb lo x) (Np.evens r))
                           (map (fun x => Rltb x hi) (Np.evens r)))).
    split; [apply where_from_NoDup|]. split; [|reflexivity].
    intros k. unfold PP.np_where. rewrite where_from_In, zip_with_map2.
    split.
    - intros (i & -> & Hi). apply nth_mask in Hi as [Hlt Hi].
      apply inside_true in Hi. cbn [Nat.add]. split; assumption.
    - intros [Hlt Hin]. exists k. split; [reflexivity|].
      apply nth_mask. split; [exact Hlt|]. now apply inside_true. }
  split.
  { intros x y r'. rewrite !get_trapped_electrons_filter.
    cbn [Np.evens List.filter]. unfold Rltb at 1 2.
    destruct (Rlt_dec lo x), (Rlt_dec x hi); reflexivity. }
  rewrite get_trapped_electrons_filter.
  split; [apply List.filter_length_le|].
  split; [|split; [|split]].
  - rewrite filter_length_all. split; intros H; eapply List.Forall_impl; try exact H;
      intros x Hx; now apply inside_true.
  - rewrite filter_length_none. split; intros H; eapply List.Forall_impl; try exact H;
      intros x Hx; cbv beta in *.
    + destruct (Rle_dec x lo) as [|Hn]; [now left|]. right.
      destruct (Rle_dec hi x) as [|Hn']; [assumption|].
      assert (Hin : lo < x < hi) by lra. apply inside_true in Hin. congruence.
    + destruct (Rltb lo x && Rltb x hi) eqn:E; [|reflexivity].
      apply inside_true in E. lra.
  - intros k y. rewrite get_trapped_electrons_filter, evens_insert_odd. reflexivity.
  - intros lo' hi' Hlo Hhi. rewrite get_trapped_electrons_filter.
    apply filter_length_mono. intros x Hx. apply inside_true in Hx.
    apply inside_true. lra.
Qed.

End TrappedElectrons.

Section ElectronDensity.

Lemma min_upto_le n f b : (b <= n)%nat -> PP.min_upto n f <= f b.
Proof.
  induction n as [|n IH]; intros Hb; cbn [PP.min_upto].
  - replace b with 0%nat by lia. lra.
  - destruct (Nat.eq_dec b (S n)) as [->|Hne]; [apply Rmin_r|].
    eapply Rle_trans; [apply Rmin_l|]. apply IH. lia.
Qed.

Lemma min_upto_attained n f : exists b, (b <= n)%nat /\ PP.min_upto n f = f b.
Proof.
  induction n as [|n (b & Hb & IH)]; cbn [PP.min_upto].
  - exists 0%nat. split; [lia|reflexivity].
  - unfold Rmin. destruct (Rle_dec _ _).
    + exists b. split; [lia|exact IH].
    + exists (S n). split; [lia|reflexivity].
Qed.

Lemma sum1_pos l : List.Forall (fun v => 0 < v) l -> l <> [] -> 0 < Np.sum1 l.
Proof.
  intros H. induction H as [|a l Ha Hl IH]; [congruence|]. intros _.
  cbn [Np.sum1 fold_right]. fold (Np.sum1 l).
  destruct l as [|b l]; [cbn; lra|].
  assert (0 < Np.sum1 (b :: l)) by (apply IH; discriminate). lra.
Qed.

Lemma density_Rij_entry r a b :
  Np.entry (PP.density_Rij (Np.evens r) (Np.odds r)) a b
  = if (a =? b)%nat then 1E10 else distance r a b.
Proof. reflexivity. Qed.

(** For two or more charges at distinct positions, none farther than
    [1e10] from another, [nearest_neighbors] holds for every charge the
    distance to a nearest other charge (no larger than the distance to any
    other charge, and equal to one of them); their mean is positive, and
    [get_electron_density] returns (and prints, when [verbose]) one over
    the square of that mean. *)
Theorem nearest_neighbor_density (r : list R) (verbose : bool)
    (Heven : Nat.Even (length r))
    (Htwo : (2 <= length (Np.evens r))%nat)
    (Hdist : forall a b, (a < length (Np.evens r))%nat ->
                         (b < length (Np.evens r))%nat -> a <> b ->
                         0 < distance r a b <= 1E10) :
  exists nn,
    PP.nearest_neighbors r = Ok nn
    /\ length nn = length (Np.evens r)
    /\ (forall a, (a < length (Np.evens r))%nat ->
          (forall b, (b < length (Np.evens r))%nat -> b <> a ->
                     nth a nn 0 <= distance r a b)
          /\ exists b, (b < length (Np.evens r))%nat /\ b <> a
                       /\ nth a nn 0 = distance r a b)
    /\ 0 < PP.mean nn
    /\ PP.get_electron_density r verbose
       = Ok (1 / PP.mean nn ^ 2, if verbose then [1 / PP.mean nn ^ 2] else []).
Proof.
  pose proof (even_halves r Heven) as Hlen.
  set (N := length (Np.evens r)) in *.
  destruct N as [|n] eqn:EN; [lia|].
  set (M := PP.density_Rij (Np.evens r) (Np.odds r)).
  set (nn := map (fun a => PP.min_upto n (fun b => Np.entry M a b)) (seq 0 (S n))).
  assert (Hnn : PP.nearest_neighbors r = Ok nn).
  { unfold PP.nearest_neighbors, r2xy, PP.min_axis1.
    change (Np.ncols (PP.density_Rij (Np.evens r) (Np.odds r)))
      with (length (Np.evens r)).
    change (Np.nrows (PP.density_Rij (Np.evens r) (Np.odds r)))
      with (length (Np.odds r)).
    rewrite <- Hlen. fold N. rewrite EN. reflexivity. }
  assert (Hnth : forall a, (a < S n)%nat ->
            nth a nn 0 = PP.min_upto n (fun b => Np.entry M a b)).
  { intros a Ha. unfold nn. now rewrite nth_map_seq. }
  assert (Hspec : forall a, (a < S n)%nat ->
          (forall b, (b < S n)%nat -> b <> a -> nth a nn 0 <= distance r a b)
          /\ exists b, (b < S n)%nat /\ b <> a /\ nth a nn 0 = distance r a b).
  { intros a Ha. rewrite (Hnth a Ha).
    assert (Hle : forall b, (b < S n)%nat -> b <> a ->
              PP.min_upto n (fun b => Np.entry M a b) <= distance r a b).
    { intros b Hb Hne.
      pose proof (min_upto_le n (fun b => Np.entry M a b) b ltac:(lia)) as H.
      cbv beta in H. unfold M in H. rewrite density_Rij_entry in H.
      destruct (Nat.eqb_spec a b); [congruence|exact H]. }
    split; [exact Hle|].
    destruct (min_upto_attained n (fun b => Np.entry M a b)) as (b & Hb & Hmin).
    unfold M in Hmin. rewrite density_Rij_entry in Hmin. fold M in Hmin.
    destruct (Nat.eqb_spec a b) as [<-|Hne].
    - (* the diagonal: some other charge is as near as the fill value *)
      set (c := if (a =? 0)%nat then 1%nat else 0%nat).
      assert (Hc : (c < S n)%nat /\ c <> a)
        by (unfold c; destruct (Nat.eqb_spec a 0); lia).
      destruct Hc as [Hc Hca]. exists c. split; [exact Hc|]. split; [exact Hca|].
      pose proof (Hle c Hc Hca) as H1.
      destruct (Hdist a c Ha Hc ltac:(congruence)) as [_ H2]. lra.
    - exists b. split; [lia|]. split; [congruence|exact Hmin]. }
  assert (Hlen_nn : length nn = S n) by (unfold nn; now rewrite length_map, length_seq).
  assert (Hmean : 0 < PP.mean nn).
  { unfold PP.mean. apply Rdiv_lt_0_compat.
    - apply sum1_pos; [|destruct nn; [discriminate|discriminate]].
      apply List.Forall_forall. intros v Hin.
      apply (In_nth _ _ 0) in Hin as (a & Ha & <-). rewrite Hlen_nn in Ha.
      destruct (Hspec a Ha) as [_ (b & Hb & Hne & ->)].
      apply (Hdist a b Ha Hb). congruence.
    - rewrite Hlen_nn. apply lt_0_INR. lia. }
  exists nn. repeat split; try assumption.
  - intros b Hb Hne. now apply (proj1 (Hspec a H)).
  - apply (proj2 (Hspec a H)).
  - unfold PP.get_electron_density. rewrite Hnn. reflexivity.
Qed.

(** A single charge has no neighbour: wherever it is, the value that
    fills the diagonal of the distance matrix is taken for its
    nearest-neighbour distance, and the density returned is
    [1 / (1e10)^2 = 1e-20]. *)
Theorem single_electron_density (x y : R) (verbose : bool) :
  PP.nearest_neighbors [x; y] = Ok [1E10]
  /\ PP.get_electron_density [x; y] verbose
     = Ok (1E-20, if verbose then [1E-20] else []).
Proof.
  split; [reflexivity|].
  unfold PP.get_electron_density.
  change (PP.nearest_neighbors [x; y]) with (Ok [1E10]). cbn [rbind].
  assert (H : 1 / PP.mean [1E10] ^ 2 = 1E-20).
  { unfold PP.mean, Np.sum1. cbn [fold_right length INR]. lra. }
  rewrite H. reflexivity.
Qed.

End ElectronDensity.

Lemma three_charges_distances a b :
  (a < 3)%nat -> (b < 3)%nat -> a <> b -> 0 < distance three_charges a b <= 1E10.
Proof.
  intros Ha Hb Hne. unfold distance.
  destruct a as [|[|[|a]]]; try lia; destruct b as [|[|[|b]]]; try lia;
    cbn [three_charges Np.evens Np.odds tl nth].
  all: match goal with
       | |- 0 < sqrt ?e <= _ =>
           assert (H0 : 0 < e) by (cbn [pow]; lra);
           assert (H1 : e <= 1) by (cbn [pow]; lra);
           split; [now apply sqrt_lt_R0|];
           apply Rle_trans with (sqrt 1);
           [apply sqrt_le_1_alt; lra|rewrite sqrt_1; lra]
       end.
Qed.

Lemma nearest_neighbor_density_witness :
  exists nn,
    PP.nearest_neighbors three_charges = Ok nn /\ 0 < PP.mean nn.
Proof.
  assert (Heven : Nat.Even (length three_charges)) by (exists 3%nat; reflexivity).
  assert (Htwo : (2 <= length (Np.evens three_charges))%nat) by (cbn; lia).
  destruct (nearest_neighbor_density three_charges true Heven Htwo
              three_charges_distances) as (nn & Hnn & _ & _ & Hmean & _).
  exists nn. split; [exact Hnn|exact Hmean].
Defined.

Section FileNames.

Lemma string_length_append (s t : string) :
  String.length (s ++ t)%string = (String.length s + String.length t)%nat.
Proof. induction s as [|c s IH]; [reflexivity|]. simpl. now rewrite IH. Qed.

Lemma string_append_inj_r (s1 s2 t : string) :
  (s1 ++ t)%string = (s2 ++ t)%string -> s1 = s2.
Proof.
  intros H.
  assert (Hlen : String.length s1 = String.length s2).
  { apply (f_equal String.length) in H. rewrite !string_length_append in H. lia. }
  revert s2 H Hlen. induction s1 as [|c s1 IH]; intros [|c' s2] H Hlen;
    try discriminate; [reflexivity|].
  cbn in H. injection H as -> H. f_equal. apply IH; [exact H|]. cbn in Hlen. lia.
Qed.

Lemma zeros_succ k :
  String.concat "" (repeat "0"%string (S k))
  = ("0" ++ String.concat "" (repeat "0"%string k))%string.
Proof. destruct k; reflexivity. Qed.

(** Reading a padded number back. *)
Lemma read_zeros k s d :
  NilEmpty.uint_of_string s = Some d ->
  exists d', NilEmpty.uint_of_string
               (String.concat "" (repeat "0"%string k) ++ s)%string = Some d'
             /\ Nat.of_uint d' = Nat.of_uint d.
Proof.
  intros Hs. induction k as [|k (d' & Hd' & Hof)].
  - exists d. split; [exact Hs|reflexivity].
  - rewrite zeros_succ. revert Hd'. generalize (String.concat "" (repeat "0"%string k)).
    intros z Hd'.
    exists (Decimal.D0 d'). split.
    + simpl. change (String.append EmptyString z) with z. rewrite Hd'. reflexivity.
    + rewrite <- Hof. reflexivity.
Qed.

Lemma read_digits n :
  exists d, NilEmpty.uint_of_string (NilZero.string_of_uint (Nat.to_uint n)) = Some d
            /\ Nat.of_uint d = n.
Proof.
  destruct (Nat.to_uint n) eqn:E;
    try (eexists; split; [apply NilEmpty.usu|rewrite <- E; apply DecimalNat.Unsigned.of_to]).
  exists (Decimal.D0 Decimal.Nil). split; [reflexivity|].
  rewrite <- (DecimalNat.Unsigned.of_to n), E. reflexivity.
Qed.

Lemma five_digits_inj a b : PP.five_digits a = PP.five_digits b -> a = b.
Proof.
  unfold PP.five_digits. intros H.
  destruct (read_digits a) as (da & Ha & Hda).
  destruct (read_digits b) as (db & Hb & Hdb).
  destruct (read_zeros (5 - String.length (NilZero.string_of_uint (Nat.to_uint a)))
              _ _ Ha) as (da' & Ha' & Hda').
  destruct (read_zeros (5 - String.length (NilZero.string_of_uint (Nat.to_uint b)))
              _ _ Hb) as (db' & Hb' & Hdb').
  rewrite H, Hb' in Ha'. injection Ha' as <-. congruence.
Qed.

Lemma npz_name_inj a b : PP.npz_name a = PP.npz_name b -> a = b.
Proof. intros H. apply five_digits_inj, (string_append_inj_r _ _ _ H). Qed.

Lemma listed_spec name listdir :
  existsb (String.eqb name) listdir = true <-> In name listdir.
Proof.
  rewrite existsb_exists. split.
  - intros (x & Hin & Heq). apply String.eqb_eq in Heq. now subst.
  - intros Hin. exists name. split; [exact Hin|apply String.eqb_refl].
Qed.

(** Some number no larger than the number of entries names no entry. *)
Lemma first_free listdir :
  exists n, (n <= length listdir)%nat
            /\ ~ In (PP.npz_name n) listdir
            /\ forall k, (k < n)%nat -> In (PP.npz_name k) listdir.
Proof.
  assert (Hex : exists n, (n <= length listdir)%nat /\ ~ In (PP.npz_name n) listdir).
  { destruct (List.Forall_Exists_dec (fun k => In (PP.npz_name k) listdir)
                (fun k => in_dec string_dec (PP.npz_name k) listdir)
                (seq 0 (S (length listdir)))) as [Hall|Hsome].
    - exfalso.
      assert (Hnd : List.NoDup (map PP.npz_name (seq 0 (S (length listdir))))).
      { apply NoDup_map_NoDup_ForallPairs; [|apply List.seq_NoDup].
        intros a b _ _. apply npz_name_inj. }
      apply NoDup_incl_length with (l' := listdir) in Hnd.
      + rewrite length_map, length_seq in Hnd. lia.
      + intros name Hin. apply in_map_iff in Hin as (k & <- & Hk).
        rewrite List.Forall_forall in Hall. now apply Hall.
    - apply List.Exists_exists in Hsome as (n & Hin & Hn).
      apply in_seq in Hin. exists n. split; [lia|exact Hn]. }
  destruct Hex as (n0 & _ & Hn0).
  assert (Hleast : forall m, (exists n, (n <= m)%nat /\ ~ In (PP.npz_name n) listdir) ->
            exists n, ~ In (PP.npz_name n) listdir
                      /\ forall k, (k < n)%nat -> In (PP.npz_name k) listdir).
  { induction m as [|m IH]; intros (n & Hle & Hn).
    - exists n. split; [exact Hn|]. intros k Hk. lia.
    - destruct (List.Forall_Exists_dec (fun k => In (PP.npz_name k) listdir)
                  (fun k => in_dec string_dec (PP.npz_name k) listdir)
                  (seq 0 n)) as [Hall|Hsome].
      + exists n. split; [exact Hn|]. intros k Hk.
        rewrite List.Forall_forall in Hall. apply Hall, in_seq. lia.
      + apply List.Exists_exists in Hsome as (n' & Hin & Hn').
        apply in_seq in Hin. apply IH. exists n'. split; [lia|exact Hn']. }
  destruct (Hleast n0 (ex_intro _ n0 (conj (le_n _) Hn0))) as (n & Hn & Hbelow).
  exists n. split; [|split; assumption].
  destruct (le_lt_dec n (length listdir)) as [|Hgt]; [assumption|].
  exfalso.
  assert (Hnd : List.NoDup (map PP.npz_name (seq 0 (S (length listdir))))).
  { apply NoDup_map_NoDup_ForallPairs; [|apply List.seq_NoDup].
    intros a b _ _. apply npz_name_inj. }
  apply NoDup_incl_length with (l' := listdir) in Hnd.
  - rewrite length_map, length_seq in Hnd. lia.
  - intros name Hin. apply in_map_iff in Hin as (k & <- & Hk).
    apply in_seq in Hk. apply Hbelow. lia.
Qed.

(** The loop from the test of the name numbered [k], the counter
    already at [k + 1]. *)
Lemma next_free_from listdir n k fuel :
  ~ In (PP.npz_name n) listdir ->
  (forall j, (j < n)%nat -> In (PP.npz_name j) listdir) ->
  (k <= n)%nat -> (n - k < fuel)%nat ->
  PP.next_free fuel listdir (PP.npz_name k) (S k) = Some (PP.npz_name n, S n).
Proof.
  intros Hn Hbelow. revert k. induction fuel as [|fuel IH]; intros k Hk Hfuel; [lia|].
  cbn [PP.next_free].
  destruct (Nat.eq_dec k n) as [->|Hne].
  - destruct (existsb _ _) eqn:E; [|reflexivity].
    apply listed_spec in E. contradiction.
  - assert (Hin : In (PP.npz_name k) listdir) by (apply Hbelow; lia).
    apply listed_spec in Hin. rewrite Hin.
    apply IH; lia.
Qed.

(** [write2file] writes under the first name of [00000.npz], [00001.npz],
    ... that the directory does not hold: the loop ends after at most
    [n + 2] tests, [n] being the number of that name, which is at most the
    number of entries; the name chosen is not in the directory, so no
    entry is overwritten, and every name with a smaller number is. *)
Theorem write2file_first_free_name (listdir : list string) :
  exists n,
    (n <= length listdir)%nat
    /\ ~ In (PP.npz_name n) listdir
    /\ (forall k, (k < n)%nat -> In (PP.npz_name k) listdir)
    /\ forall fuel, (n + 2 <= fuel)%nat ->
          PP.write2file fuel listdir
          = Some (PP.npz_name n, PP.npz_name n :: listdir).
Proof.
  destruct (first_free listdir) as (n & Hle & Hn & Hbelow).
  exists n. split; [exact Hle|]. split; [exact Hn|]. split; [exact Hbelow|].
  intros fuel Hfuel. unfold PP.write2file.
  destruct fuel as [|fuel]; [lia|]. cbn [PP.next_free].
  destruct (existsb _ _) eqn:E.
  - rewrite (next_free_from listdir n 0 fuel Hn Hbelow) by lia. reflexivity.
  - destruct n as [|n]; [reflexivity|].
    assert (Hin : In (PP.npz_name 0) listdir) by (apply Hbelow; lia).
    apply listed_spec in Hin. congruence.
Qed.

End FileNames.
